(** * SSH port-forwarding GUI: the forwarding core, embedded and verified

    The development follows the layout of the repository:
    - [PortForwarder]  : src/core/port_forwarder.py (registry of forwarding
      records, start / stop / remove, the byte pump's accounting, the
      SOCKS5 handler);
    - [SSHManager]     : src/core/ssh_manager.py (SSH sessions, the
      forwardings started from the dialogs, the SOCKS5 handler);
    - [Encryption]     : src/utils/encryption.py (the base64 / Fernet
      envelope);
    with, ahead of them, what they take from Python and its libraries:
    - [Utf8]           : [str], [str.encode] and [bytes.decode];
    - [Socks]          : a client socket, with [recv], [sendall], [close]
      and exceptions;
    - [Base64]         : [base64.b64encode] and [base64.b64decode].

    Python objects that are shared and mutated in place (the forwarding
    dicts, the connection dicts) live in an object store and are referred to
    by location; sockets, channels, threads and SSH clients are opaque
    handles; everything the operating system or the network decides is an
    explicit argument of the operation that asks for it. *)

From Stdlib Require Import ZArith NArith Strings.Ascii Strings.Byte Lia ZifyBool
  ZifyN.
From stdpp Require Import gmap strings list pretty.

Open Scope Z_scope.

(** ** Shared vocabulary *)

(** Opaque run-time objects (sockets, channels, threads, SSH clients). *)
Definition handle := nat.

(** Locations of the mutable dict objects. *)
Definition loc := nat.

(** What the managers do to the outside world, in program order. *)
Inductive effect :=
| EmitForwardingStatus (obj : loc) (is_active : bool)
| EmitTraffic (obj : loc) (sent received : Z)
| EmitConnectionStatus (client_id : string) (up : bool)
| ListenOn (sock : handle) (host : string) (port : Z)
| RequestPortForward (host : string) (port : Z)
| CancelPortForward (host : string) (port : Z)
| CloseServerSocket (sock : handle)
| CloseSocket (sock : handle)
| CloseChannel (chan : handle)
| CloseClient (client : handle).

Global Instance effect_eq_dec : EqDecision effect.
Proof. solve_decision. Defined.

(** [str(v)] for the values a forwarding config holds: a missing key reads as
    [None] through [dict.get] and prints as the word None. *)
Definition py_str (v : option string) : string := default "None" v.
Definition py_str_int (v : option Z) : string := from_option pretty "None" v.

(** Truthiness of [str] and [int] values read with [dict.get]. *)
Definition truthy_str (v : option string) : bool :=
  match v with Some s => negb (String.eqb s "") | None => false end.
Definition truthy_int (v : option Z) : bool :=
  match v with Some z => negb (z =? 0) | None => false end.

(** Whether every character of a string passes a test; the characters a
    printed [int] is made of, and the separator of the ids. *)
Fixpoint all_chars (P : ascii → bool) (s : string) : bool :=
  match s with
  | EmptyString => true
  | String c s' => P c && all_chars P s'
  end.

Definition not_colon (c : ascii) : bool := negb (Ascii.eqb c ":"%char).
Definition digit_or_dash (c : ascii) : bool :=
  Ascii.eqb c "-"%char || (48 <=? N_of_ascii c)%N && (N_of_ascii c <=? 57)%N.

(** ** Text: Python [str] and the UTF-8 codec *)
Module Utf8.

(** A Python [str] is a sequence of code points below 0x110000, lone
    surrogates included. *)
Definition text := list N.

Definition byte_of (n : N) : byte := default x00 (Byte.of_N n).

Definition is_surrogate (c : N) : bool := (0xD800 <=? c)%N && (c <=? 0xDFFF)%N.

(** [str.encode("utf-8")] on one code point; [None] is UnicodeEncodeError
    (surrogates are not allowed). *)
Definition encode_point (c : N) : option (list byte) :=
  if (c <? 0x80)%N then Some [byte_of c]
  else if (c <? 0x800)%N then
    Some [byte_of (0xC0 + c / 64); byte_of (0x80 + c mod 64)]
  else if is_surrogate c then None
  else if (c <? 0x10000)%N then
    Some [byte_of (0xE0 + c / 4096); byte_of (0x80 + (c / 64) mod 64);
          byte_of (0x80 + c mod 64)]
  else if (c <? 0x110000)%N then
    Some [byte_of (0xF0 + c / 262144); byte_of (0x80 + (c / 4096) mod 64);
          byte_of (0x80 + (c / 64) mod 64); byte_of (0x80 + c mod 64)]
  else None.

Fixpoint encode (s : text) : option (list byte) :=
  match s with
  | [] => Some []
  | c :: s' =>
    match encode_point c, encode s' with
    | Some bs, Some bs' => Some (bs ++ bs')
    | _, _ => None
    end
  end.

(** The payload of a continuation byte 10xxxxxx. *)
Definition continuation (b : byte) : option N :=
  let n := Byte.to_N b in
  if (0x80 <=? n)%N && (n <? 0xC0)%N then Some (n - 0x80)%N else None.

(** [bytes.decode("utf-8")], strict; [None] is UnicodeDecodeError:
    stray continuation bytes, overlong forms, surrogates, values above
    0x10FFFF and truncated sequences are all rejected. *)
Fixpoint decode (bs : list byte) : option text :=
  match bs with
  | [] => Some []
  | b0 :: r0 =>
    let n0 := Byte.to_N b0 in
    if (n0 <? 0x80)%N then cons n0 <$> decode r0
    else if (n0 <? 0xC2)%N then None
    else if (n0 <? 0xE0)%N then
      match r0 with
      | b1 :: r1 =>
        match continuation b1 with
        | Some c1 => cons ((n0 - 0xC0) * 64 + c1)%N <$> decode r1
        | None => None
        end
      | _ => None
      end
    else if (n0 <? 0xF0)%N then
      match r0 with
      | b1 :: b2 :: r2 =>
        match continuation b1, continuation b2 with
        | Some c1, Some c2 =>
          let c := ((n0 - 0xE0) * 4096 + c1 * 64 + c2)%N in
          if (c <? 0x800)%N || is_surrogate c then None
          else cons c <$> decode r2
        | _, _ => None
        end
      | _ => None
      end
    else if (n0 <? 0xF5)%N then
      match r0 with
      | b1 :: b2 :: b3 :: r3 =>
        match continuation b1, continuation b2, continuation b3 with
        | Some c1, Some c2, Some c3 =>
          let c := ((n0 - 0xF0) * 262144 + c1 * 4096 + c2 * 64 + c3)%N in
          if (c <? 0x10000)%N || (0x110000 <=? c)%N then None
          else cons c <$> decode r3
        | _, _, _ => None
        end
      | _ => None
      end
    else None
  end.

(** The strings UTF-8 can encode: Unicode scalar values only. *)
Definition encodable (s : text) : Prop :=
  Forall (λ c, (c < 0x110000)%N ∧ is_surrogate c = false) s.

End Utf8.

(** ** Client sockets, as the SOCKS5 handlers see them *)
Module Socks.

(** What a handler does with its client socket and the SSH transport. *)
Inductive event :=
| Sent (data : list byte)
| Closed
| ChannelOpened (host : string) (port : Z)
| PumpStarted.

(** The client's side of one accepted connection: the segments it sends, in
    the pieces [recv] will find them; whether it closes its end after the
    last of them ([hung_up]) or stays connected and silent; and what the
    handler has done so far. *)
Record wire := {
  inbox : list (list byte);
  hung_up : bool;
  events : list event
}.

(** A handler body stops with a value, with [return], or with an
    exception; or it does not stop: no timeout is set on the client
    socket, so a [recv] that finds nothing from a client that stays
    connected never returns. *)
Inductive result (A : Type) :=
| Value (a : A)
| Return
| Raise
| Blocked.
Arguments Value {A} a.
Arguments Return {A}.
Arguments Raise {A}.
Arguments Blocked {A}.

Definition M (A : Type) : Type := wire → result A * wire.

Definition pure {A} (a : A) : M A := λ w, (Value a, w).
Definition bind {A B} (m : M A) (k : A → M B) : M B :=
  λ w, match m w with
       | (Value a, w') => k a w'
       | (Return, w') => (Return, w')
       | (Raise, w') => (Raise, w')
       | (Blocked, w') => (Blocked, w')
       end.
Definition return_ {A} : M A := λ w, (Return, w).
Definition raise {A} : M A := λ w, (Raise, w).

Declare Scope socks_scope.
Delimit Scope socks_scope with socks.
Notation "x <- m ;; k" := (bind m (λ x, k))
  (at level 100, m at next level, right associativity) : socks_scope.
Notation "m ;; k" := (bind m (λ _, k))
  (at level 100, right associativity) : socks_scope.
Open Scope socks_scope.

Definition log (e : event) : M unit :=
  λ w, (Value (),
        {| inbox := inbox w; hung_up := hung_up w;
           events := events w ++ [e] |}).

(** [client_socket.recv(n)] on the blocking socket: at most [n] bytes of
    the first pending segment; when none is pending, the empty bytes if
    the client has closed its end, and no return at all if it has not. *)
Definition recv (n : nat) : M (list byte) :=
  λ w, match inbox w with
       | [] => if hung_up w then (Value [], w) else (Blocked, w)
       | seg :: rest =>
         (Value (take n seg),
          {| inbox := match drop n seg with
                      | [] => rest
                      | seg' => seg' :: rest
                      end;
             hung_up := hung_up w;
             events := events w |})
       end.

Definition sendall (data : list byte) : M unit := log (Sent data).
Definition close : M unit := log Closed.

(** [try: body except Exception: handler]; a body that is blocked stays
    blocked. *)
Definition try_except (body handler : M unit) : M unit :=
  λ w, match body w with
       | (Raise, w') => handler w'
       | r => r
       end.

(** [data[i]] as an [int]; IndexError past the end. *)
Definition index (data : list byte) (i : nat) : M N :=
  match data !! i with
  | Some b => pure (Byte.to_N b)
  | None => raise
  end.

(** [data[i]] where the length was checked just before. *)
Definition at_ (data : list byte) (i : nat) : N :=
  Byte.to_N (nth i data x00).

Definition dotted (b : byte) : string := pretty (Z.of_N (Byte.to_N b)).

(** [socket.inet_ntoa]: OSError unless exactly four bytes are packed. *)
Definition inet_ntoa (data : list byte) : M string :=
  match data with
  | [a; b; c; d] =>
    pure (dotted a +:+ "." +:+ dotted b +:+ "." +:+ dotted c +:+ "."
            +:+ dotted d)
  | _ => raise
  end.

(** [bytes.decode("utf-8")]; a host name is kept as its bytes. *)
Definition decode_utf8 (data : list byte) : M string :=
  match Utf8.decode data with
  | Some _ => pure (String.string_of_list_byte data)
  | None => raise
  end.

(** What [transport.open_channel] answers. *)
Inductive channel_outcome :=
| Opened (chan : handle)
| NoChannel
| OpenFailed.

Definition open_channel (o : channel_outcome) (host : string) (port : Z)
    : M (option handle) :=
  log (ChannelOpened host port) ;;
  match o with
  | Opened chan => pure (Some chan)
  | NoChannel => pure None
  | OpenFailed => raise
  end.

Definition method_reply : list byte := [x05; x00].
Definition reply (code : byte) : list byte :=
  [x05; code; x00; x01; x00; x00; x00; x00; x00; x00].
Definition reply_success : list byte := reply x00.
Definition reply_host_unreachable : list byte := reply x04.
Definition reply_command_not_supported : list byte := reply x07.
Definition reply_address_not_supported : list byte := reply x08.

(** [socket.inet_ntop(socket.AF_INET6, ·)]: ValueError unless sixteen bytes
    are packed; the text itself is the C library's, [format_ipv6]. *)
Definition inet_ntop6 (format_ipv6 : list byte → string) (data : list byte)
    : M string :=
  if (length data =? 16)%nat then pure (format_ipv6 data) else raise.

(** A handler run against a client that sends [segments] and then closes
    its end ([hung_up]) or stays connected without sending more. *)
Definition run (h : M unit) (segments : list (list byte)) (hung_up : bool)
    : result unit * wire :=
  h {| inbox := segments; hung_up := hung_up; events := [] |}.

(** The events of a handler run against what the client sends before it
    closes its end. *)
Definition events_of (h : M unit) (segments : list (list byte))
    : list event :=
  events (run h segments true).2.

(** *** Observations *)

(** Nothing has been closed or handed to the pump so far. *)
Definition live (evs : list event) : Prop :=
  (Closed ∉ evs) ∧ (PumpStarted ∉ evs).

(** The client socket has been closed, or handed to the pump after the
    success reply on a channel that was opened; either happened once, as
    the last thing done. *)
Definition settled (o : channel_outcome) (evs : list event) : Prop :=
  ∃ pre, live pre ∧
    (evs = pre ++ [Closed] ∨
     evs = pre ++ [PumpStarted] ∧ Sent reply_success ∈ pre ∧
     ∃ chan, o = Opened chan).

(** What a handler run has come to: [R] of its events when it has ended,
    [B] of them when it is blocked in a [recv]. *)
Definition outcome (R B : list event → Prop) (r : result unit * wire)
    : Prop :=
  match r.1 with
  | Blocked => B (events r.2)
  | _ => R (events r.2)
  end.

(** What the body of [try: ... except Exception: client_socket.close()]
    owes for the whole to come to [outcome R B]: [R] on a normal end and
    on [return], [R] once the socket is closed on an exception, and [B]
    where it blocks. *)
Definition handler_post (R B : list event → Prop) (r : result unit * wire)
    : Prop :=
  match r.1 with
  | Raise => R (events r.2 ++ [Closed])
  | Blocked => B (events r.2)
  | _ => R (events r.2)
  end.

End Socks.

(** ** src/core/port_forwarder.py *)
Module PortForwarder.

(** The [forwarding_config] dict; an absent key is [None]. *)
Record forwarding_config := {
  local_host : option string;
  local_port : option Z;
  remote_host : option string;
  remote_port : option Z;
  bind_host : option string;
  bind_port : option Z;
  internal_host : option string;
  internal_port : option Z;
  ssh_client : option handle
}.

(** A connection dict, as the accept loops and handlers build it. *)
Record connection := {
  c_socket : handle;
  c_channel : handle;
  c_start_time : Z;
  c_bytes_sent : Z;
  c_bytes_received : Z
}.

(** The [forwarding_info] dict of [add_forwarding]. *)
Record forwarding_info := {
  f_id : string;
  f_type : string;
  f_config : forwarding_config;
  f_active : bool;
  f_thread : option handle;
  f_server_socket : option handle;
  f_connections : list loc;
  f_bytes_sent : Z;
  f_bytes_received : Z;
  f_start_time : Z;
  f_error : option string
}.

(** The manager: [self.forwardings] maps ids to dict objects; the dicts
    themselves are in [objs] (threads keep references to them after the id
    is gone); [effects] is everything done to the outside so far. *)
Record state := {
  forwardings : gmap string loc;
  objs : gmap loc forwarding_info;
  conns : gmap loc connection;
  effects : list effect
}.

Definition init : state :=
  {| forwardings := ∅; objs := ∅; conns := ∅; effects := [] |}.

Definition set_forwardings (m : gmap string loc) (st : state) : state :=
  {| forwardings := m; objs := objs st; conns := conns st;
     effects := effects st |}.
Definition set_objs (m : gmap loc forwarding_info) (st : state) : state :=
  {| forwardings := forwardings st; objs := m; conns := conns st;
     effects := effects st |}.
Definition set_conns (m : gmap loc connection) (st : state) : state :=
  {| forwardings := forwardings st; objs := objs st; conns := m;
     effects := effects st |}.
Definition emit (es : list effect) (st : state) : state :=
  {| forwardings := forwardings st; objs := objs st; conns := conns st;
     effects := effects st ++ es |}.

(** In-place updates of a forwarding dict. *)
Definition with_active (b : bool) (f : forwarding_info) : forwarding_info :=
  {| f_id := f_id f; f_type := f_type f; f_config := f_config f;
     f_active := b; f_thread := f_thread f;
     f_server_socket := f_server_socket f;
     f_connections := f_connections f; f_bytes_sent := f_bytes_sent f;
     f_bytes_received := f_bytes_received f; f_start_time := f_start_time f;
     f_error := f_error f |}.
Definition with_error (e : option string) (f : forwarding_info)
  : forwarding_info :=
  {| f_id := f_id f; f_type := f_type f; f_config := f_config f;
     f_active := f_active f; f_thread := f_thread f;
     f_server_socket := f_server_socket f;
     f_connections := f_connections f; f_bytes_sent := f_bytes_sent f;
     f_bytes_received := f_bytes_received f; f_start_time := f_start_time f;
     f_error := e |}.
Definition with_connections (cs : list loc) (f : forwarding_info)
  : forwarding_info :=
  {| f_id := f_id f; f_type := f_type f; f_config := f_config f;
     f_active := f_active f; f_thread := f_thread f;
     f_server_socket := f_server_socket f;
     f_connections := cs; f_bytes_sent := f_bytes_sent f;
     f_bytes_received := f_bytes_received f; f_start_time := f_start_time f;
     f_error := f_error f |}.
Definition with_counters (s r : Z) (f : forwarding_info) : forwarding_info :=
  {| f_id := f_id f; f_type := f_type f; f_config := f_config f;
     f_active := f_active f; f_thread := f_thread f;
     f_server_socket := f_server_socket f;
     f_connections := f_connections f; f_bytes_sent := s;
     f_bytes_received := r; f_start_time := f_start_time f;
     f_error := f_error f |}.
(** The four assignments of a successful listener start. *)
Definition with_listener (sock : handle) (now : Z) (f : forwarding_info)
  : forwarding_info :=
  {| f_id := f_id f; f_type := f_type f; f_config := f_config f;
     f_active := true; f_thread := f_thread f;
     f_server_socket := Some sock;
     f_connections := f_connections f; f_bytes_sent := f_bytes_sent f;
     f_bytes_received := f_bytes_received f; f_start_time := now;
     f_error := None |}.
Definition with_thread (th : handle) (f : forwarding_info) : forwarding_info :=
  {| f_id := f_id f; f_type := f_type f; f_config := f_config f;
     f_active := f_active f; f_thread := Some th;
     f_server_socket := f_server_socket f;
     f_connections := f_connections f; f_bytes_sent := f_bytes_sent f;
     f_bytes_received := f_bytes_received f; f_start_time := f_start_time f;
     f_error := f_error f |}.
(** The three assignments of a successful remote start. *)
Definition with_started (now : Z) (f : forwarding_info) : forwarding_info :=
  {| f_id := f_id f; f_type := f_type f; f_config := f_config f;
     f_active := true; f_thread := f_thread f;
     f_server_socket := f_server_socket f;
     f_connections := f_connections f; f_bytes_sent := f_bytes_sent f;
     f_bytes_received := f_bytes_received f; f_start_time := now;
     f_error := None |}.

(** Mutation of the dict object at [l]. *)
Definition update (l : loc) (g : forwarding_info → forwarding_info)
    (st : state) : state :=
  set_objs (alter g l (objs st)) st.

(** The first location no dict object occupies. *)
Definition new_loc {A} (m : gmap loc A) : loc := fresh (dom m).

(** *** add_forwarding *)

(** The id computed at the top of [add_forwarding]; [None] for the final
    [else: return None]. *)
Definition forwarding_id_of (forwarding_type : string)
    (cfg : forwarding_config) : option string :=
  if String.eqb forwarding_type "local" then
    Some ("local:" +:+ py_str (local_host cfg) +:+ ":"
            +:+ py_str_int (local_port cfg))
  else if String.eqb forwarding_type "remote" then
    Some ("remote:" +:+ py_str (remote_host cfg) +:+ ":"
            +:+ py_str_int (remote_port cfg))
  else if String.eqb forwarding_type "dynamic" then
    Some ("dynamic:" +:+ py_str (bind_host cfg) +:+ ":"
            +:+ py_str_int (bind_port cfg))
  else if String.eqb forwarding_type "internal" then
    Some ("internal:" +:+ py_str (internal_host cfg) +:+ ":"
            +:+ py_str_int (internal_port cfg))
  else None.

Definition new_forwarding_info (forwarding_id forwarding_type : string)
    (cfg : forwarding_config) : forwarding_info :=
  {| f_id := forwarding_id; f_type := forwarding_type; f_config := cfg;
     f_active := false; f_thread := None; f_server_socket := None;
     f_connections := []; f_bytes_sent := 0; f_bytes_received := 0;
     f_start_time := 0; f_error := None |}.

Definition add_forwarding (forwarding_type : string)
    (cfg : forwarding_config) (st : state) : option string * state :=
  match forwarding_id_of forwarding_type cfg with
  | None => (None, st)
  | Some forwarding_id =>
    match forwardings st !! forwarding_id with
    | Some _ => (None, st)
    | None =>
      let l := new_loc (objs st) in
      (Some forwarding_id,
       set_forwardings (<[forwarding_id := l]> (forwardings st))
         (set_objs
            (<[l := new_forwarding_info forwarding_id forwarding_type cfg]>
               (objs st)) st))
    end
  end.

(** *** The listener each kind binds when it is started *)

(** The address handed to [server_socket.bind] by [_start_local_forwarding],
    [_start_dynamic_forwarding] and [_start_internal_forwarding], and to
    [transport.request_port_forward] by [_start_remote_forwarding], with the
    defaults of their [config.get] calls. *)
Definition listen_address (forwarding_type : string)
    (cfg : forwarding_config) : option (option string * option Z) :=
  if String.eqb forwarding_type "local" then
    Some (Some (default "127.0.0.1" (local_host cfg)),
          Some (default 0 (local_port cfg)))
  else if String.eqb forwarding_type "remote" then
    Some (Some (default "127.0.0.1" (remote_host cfg)),
          Some (default 0 (remote_port cfg)))
  else if String.eqb forwarding_type "dynamic" then
    Some (Some (default "127.0.0.1" (bind_host cfg)),
          Some (default 0 (bind_port cfg)))
  else if String.eqb forwarding_type "internal" then
    Some (Some (default "127.0.0.1" (local_host cfg)), local_port cfg)
  else None.

(** *** start_forwarding *)

(** What the operating system answers when a listener is set up:
    [Listening]: socket bound, accept thread running;
    [ListenFailed]: [socket()], [bind()] or [listen()] raised, before any
    field of the dict was assigned;
    [ThreadFailed]: [thread.start()] raised, after the assignments. *)
Inductive listen_outcome :=
| Listening (sock th : handle) (now : Z)
| ListenFailed (msg : string)
| ThreadFailed (sock th : handle) (now : Z) (msg : string).

(** What the SSH transport answers to [request_port_forward]. *)
Inductive request_outcome :=
| Requested (now : Z)
| RequestFailed (msg : string).

Record start_env := {
  listen_result : listen_outcome;
  request_result : request_outcome
}.

(** The common body of the three listener starts: create, bind, listen,
    record the socket, mark active, start the accept thread, emit. *)
Definition start_listener (host : string) (port : Z) (o : listen_outcome)
    (l : loc) (st : state) : bool * state :=
  match o with
  | Listening sock th now =>
    (true,
     emit [ListenOn sock host port; EmitForwardingStatus l true]
       (update l (λ f, with_thread th (with_listener sock now f)) st))
  | ListenFailed msg => (false, update l (with_error (Some msg)) st)
  | ThreadFailed sock th now msg =>
    (false,
     emit [ListenOn sock host port]
       (update l (λ f, with_error (Some msg)
                         (with_thread th (with_listener sock now f))) st))
  end.

Definition _start_local_forwarding (e : start_env) (l : loc)
    (forwarding : forwarding_info) (st : state) : bool * state :=
  let config := f_config forwarding in
  start_listener (default "127.0.0.1" (local_host config))
    (default 0 (local_port config)) (listen_result e) l st.

Definition _start_dynamic_forwarding (e : start_env) (l : loc)
    (forwarding : forwarding_info) (st : state) : bool * state :=
  let config := f_config forwarding in
  start_listener (default "127.0.0.1" (bind_host config))
    (default 0 (bind_port config)) (listen_result e) l st.

Definition _start_internal_forwarding (e : start_env) (l : loc)
    (forwarding : forwarding_info) (st : state) : bool * state :=
  let config := f_config forwarding in
  if negb (truthy_str (internal_host config))
     || negb (truthy_int (internal_port config))
     || negb (truthy_int (local_port config))
  then (false, update l (with_error (Some "缺少必要的转发配置参数")) st)
  else
    start_listener (default "127.0.0.1" (local_host config))
      (default 0 (local_port config)) (listen_result e) l st.

Definition _start_remote_forwarding (e : start_env) (l : loc)
    (forwarding : forwarding_info) (st : state) : bool * state :=
  let config := f_config forwarding in
  match ssh_client config with
  | None => (false, update l (with_error (Some "SSH客户端未提供")) st)
  | Some _ =>
    match request_result e with
    | Requested now =>
      (true,
       emit [RequestPortForward (default "127.0.0.1" (remote_host config))
                                (default 0 (remote_port config));
             EmitForwardingStatus l true]
         (update l (with_started now) st))
    | RequestFailed msg => (false, update l (with_error (Some msg)) st)
    end
  end.

Definition start_forwarding (e : start_env) (forwarding_id : string)
    (st : state) : bool * state :=
  match forwardings st !! forwarding_id with
  | None => (false, st)
  | Some l =>
    match objs st !! l with
    | None => (false, st)
    | Some forwarding =>
      if f_active forwarding then (true, st)
      else if String.eqb (f_type forwarding) "local" then
        _start_local_forwarding e l forwarding st
      else if String.eqb (f_type forwarding) "remote" then
        _start_remote_forwarding e l forwarding st
      else if String.eqb (f_type forwarding) "dynamic" then
        _start_dynamic_forwarding e l forwarding st
      else if String.eqb (f_type forwarding) "internal" then
        _start_internal_forwarding e l forwarding st
      else (false, st)
    end
  end.

(** *** stop_forwarding, remove_forwarding, get_all_forwardings *)

(** The [for conn in connections] loop: both ends of every live connection. *)
Definition close_connections (st : state) (cs : list loc) : list effect :=
  flat_map (λ c, match conns st !! c with
                 | Some conn => [CloseSocket (c_socket conn);
                                 CloseChannel (c_channel conn)]
                 | None => []
                 end) cs.

Definition close_server_socket (s : option handle) : list effect :=
  match s with Some sock => [CloseServerSocket sock] | None => [] end.

Definition stop_forwarding (forwarding_id : string) (st : state)
    : bool * state :=
  match forwardings st !! forwarding_id with
  | None => (false, st)
  | Some l =>
    match objs st !! l with
    | None => (false, st)
    | Some forwarding =>
      if negb (f_active forwarding) then (true, st)
      else
        (true,
         emit (close_server_socket (f_server_socket forwarding)
                 ++ close_connections st (f_connections forwarding)
                 ++ [EmitForwardingStatus l false])
           (update l (λ f, with_connections [] (with_active false f)) st))
    end
  end.

Definition remove_forwarding (forwarding_id : string) (st : state)
    : bool * state :=
  let st1 := snd (stop_forwarding forwarding_id st) in
  (true, set_forwardings (delete forwarding_id (forwardings st1)) st1).

(** [list(self.forwardings.values())]: the dict objects, as they are now. *)
Definition get_all_forwardings (st : state) : list forwarding_info :=
  omap (λ kl, objs st !! kl.2) (map_to_list (forwardings st)).

(** *** What the worker threads do to the shared dicts *)

(** A handler builds a connection dict and appends it to
    [forwarding["connections"]]. *)
Definition register_connection (l : loc) (conn : connection) (st : state)
    : loc * state :=
  let c := new_loc (conns st) in
  (c, update l (λ f, with_connections (f_connections f ++ [c]) f)
        (set_conns (<[c := conn]> (conns st)) st)).

Definition conn_add_sent (n : Z) (conn : connection) : connection :=
  {| c_socket := c_socket conn; c_channel := c_channel conn;
     c_start_time := c_start_time conn;
     c_bytes_sent := c_bytes_sent conn + n;
     c_bytes_received := c_bytes_received conn |}.
Definition conn_add_received (n : Z) (conn : connection) : connection :=
  {| c_socket := c_socket conn; c_channel := c_channel conn;
     c_start_time := c_start_time conn;
     c_bytes_sent := c_bytes_sent conn;
     c_bytes_received := c_bytes_received conn + n |}.

(** The two accounting blocks of [_handle_forwarding], each with the signal
    that follows it. *)
Definition count_sent (l c : loc) (data : list byte) (st : state) : state :=
  let n := Z.of_nat (length data) in
  emit [EmitTraffic l n 0]
    (update l (λ f, with_counters (f_bytes_sent f + n) (f_bytes_received f) f)
       (set_conns (alter (conn_add_sent n) c (conns st)) st)).

Definition count_received (l c : loc) (data : list byte) (st : state)
    : state :=
  let n := Z.of_nat (length data) in
  emit [EmitTraffic l 0 n]
    (update l (λ f, with_counters (f_bytes_sent f) (f_bytes_received f + n) f)
       (set_conns (alter (conn_add_received n) c (conns st)) st)).

(** One endpoint during one turn of the pump's loop: not readable; readable,
    with what [recv(4096)] returned and whether [sendall] to the other side
    went through; or [recv] raised. *)
Inductive endpoint :=
| Idle
| Readable (data : list byte) (forwarded : bool)
| Broken.

Record pump_round := {
  on_socket : endpoint;
  on_channel : endpoint;
  channel_closed : bool
}.

(** One turn of [while forwarding.get("active", False)]: the flag tells
    whether the loop goes on. *)
Definition pump_iteration (l c : loc) (r : pump_round) (st : state)
    : bool * state :=
  let after_socket :=
    match on_socket r with
    | Idle => (true, st)
    | Readable data forwarded =>
      if (length data =? 0)%nat then (false, st)
      else if forwarded then (true, count_sent l c data st)
      else (false, st)
    | Broken => (false, st)
    end in
  if negb after_socket.1 then after_socket
  else
    let st1 := after_socket.2 in
    match on_channel r with
    | Idle => (negb (channel_closed r), st1)
    | Readable data forwarded =>
      if (length data =? 0)%nat then (false, st1)
      else if forwarded then
        (negb (channel_closed r), count_received l c data st1)
      else (false, st1)
    | Broken => (false, st1)
    end.

(** The [finally] block: close both ends, drop the connection from the list
    if it is (still) there. *)
Fixpoint list_remove (c : loc) (cs : list loc) : list loc :=
  match cs with
  | [] => []
  | x :: cs' => if (x =? c)%nat then cs' else x :: list_remove c cs'
  end.

Definition pump_finish (l c : loc) (st : state) : state :=
  emit (close_connections st [c])
    (update l (λ f, with_connections (list_remove c (f_connections f)) f) st).

Definition is_active (l : loc) (st : state) : bool :=
  match objs st !! l with Some f => f_active f | None => false end.

(** [_handle_forwarding] against a script of what each turn of the loop
    finds; a script that runs out leaves the thread waiting in [select]. *)
Fixpoint _handle_forwarding (l c : loc) (rounds : list pump_round)
    (st : state) : state :=
  if negb (is_active l st) then pump_finish l c st
  else
    match rounds with
    | [] => st
    | r :: rounds' =>
      let res := pump_iteration l c r st in
      if res.1 then _handle_forwarding l c rounds' res.2
      else pump_finish l c res.2
    end.

(** The [except Exception] arm of the three accept threads. *)
Definition thread_failed (l : loc) (msg : string) (st : state) : state :=
  emit [EmitForwardingStatus l false]
    (update l (λ f, with_active false (with_error (Some msg) f)) st).

Section Socks5.
Import Socks.

(** *** _handle_socks_connection *)

(** The handler of one accepted SOCKS client; [o] is what
    [transport.open_channel] answers. When no channel comes back the
    success reply is sent all the same and [_handle_forwarding] gives up at
    once, closing the socket. *)
Definition _handle_socks_connection (o : Socks.channel_outcome)
    : Socks.M unit :=
  try_except
    (data <- recv 2 ;;
     if (length data <? 2)%nat then close ;; return_ else
     let version := at_ data 0 in
     let nmethods := at_ data 1 in
     if negb (version =? 5)%N then close ;; return_ else
     methods <- recv (N.to_nat nmethods) ;;
     sendall method_reply ;;
     data <- recv 4 ;;
     if (length data <? 4)%nat then close ;; return_ else
     let cmd := at_ data 1 in
     let atyp := at_ data 3 in
     if negb (cmd =? 1)%N then close ;; return_ else
     if (atyp =? 1)%N then
       data <- recv 4 ;;
       if (length data <? 4)%nat then close ;; return_ else
       dst_addr <- inet_ntoa data ;;
       data <- recv 2 ;;
       if (length data <? 2)%nat then close ;; return_ else
       let dst_port := Z.of_N (at_ data 0 * 256 + at_ data 1) in
       channel <- open_channel o dst_addr dst_port ;;
       sendall reply_success ;;
       match channel with
       | Some _ => log PumpStarted
       | None => close
       end
     else close ;; return_)
    close.

End Socks5.

(** The thread that [_dynamic_forwarding_thread] starts for one accepted
    client of the forwarding dict at [l]: the negotiation and, when it
    reaches the pump, [_handle_forwarding] on a fresh connection dict that
    is in no connection list. *)
Definition socks_thread (l : loc) (segments : list (list byte))
    (o : Socks.channel_outcome) (sock : handle) (now : Z)
    (rounds : list pump_round) (st : state) : list Socks.event * state :=
  let evs := Socks.events_of (_handle_socks_connection o) segments in
  match o, last evs with
  | Socks.Opened chan, Some Socks.PumpStarted =>
    let c := new_loc (conns st) in
    let connection :=
      {| c_socket := sock; c_channel := chan; c_start_time := now;
         c_bytes_sent := 0; c_bytes_received := 0 |} in
    (evs,
     _handle_forwarding l c rounds
       (set_conns (<[c := connection]> (conns st)) st))
  | _, _ => (evs, st)
  end.

(** *** Executions *)

(** Calls on the manager and steps of its threads, interleaved in any
    order. *)
Inductive op :=
| Add (forwarding_type : string) (cfg : forwarding_config)
| Start (e : start_env) (forwarding_id : string)
| Stop (forwarding_id : string)
| Remove (forwarding_id : string)
| Register (l : loc) (conn : connection)
| Pump (l c : loc) (r : pump_round)
| PumpExit (l c : loc)
| ThreadFailure (l : loc) (msg : string)
| SocksClient (l : loc) (segments : list (list byte))
    (o : Socks.channel_outcome) (sock : handle) (now : Z)
    (rounds : list pump_round).

Definition apply (o : op) (st : state) : state :=
  match o with
  | Add ty cfg => (add_forwarding ty cfg st).2
  | Start e i => (start_forwarding e i st).2
  | Stop i => (stop_forwarding i st).2
  | Remove i => (remove_forwarding i st).2
  | Register l conn => (register_connection l conn st).2
  | Pump l c r => (pump_iteration l c r st).2
  | PumpExit l c => pump_finish l c st
  | ThreadFailure l msg => thread_failed l msg st
  | SocksClient l segments o sock now rounds =>
    (socks_thread l segments o sock now rounds st).2
  end.

Definition run (ops : list op) (st : state) : state :=
  foldl (λ s o, apply o s) st ops.

(** *** Observations *)

(** The effects a call added, given the states before and after it. *)
Definition emitted (before after : state) : list effect :=
  drop (length (effects before)) (effects after).

(** How many times [forwarding_status_changed(forwarding, b)] is among
    some effects, for the forwarding dict at [l]. *)
Definition is_status (l : loc) (b : bool) (e : effect) : bool :=
  match e with
  | EmitForwardingStatus l' b' => (l' =? l)%nat && Bool.eqb b' b
  | _ => false
  end.

Definition status_count (l : loc) (b : bool) (es : list effect) : nat :=
  length (List.filter (is_status l b) es).

(** Every id of the registry refers to a live dict that carries that id. *)
Definition registered (st : state) : Prop :=
  ∀ k l, forwardings st !! k = Some l →
    ∃ f, objs st !! l = Some f ∧ f_id f = k.

(** An in-place update that keeps the id and lowers no counter. *)
Definition gentle (g : forwarding_info → forwarding_info) : Prop :=
  ∀ f, f_id (g f) = f_id f ∧
       f_bytes_sent f ≤ f_bytes_sent (g f) ∧
       f_bytes_received f ≤ f_bytes_received (g f).

(** From [st] to [st'] every dict object is still there, under the same id,
    with counters at least as large. *)
Definition evolves (st st' : state) : Prop :=
  ∀ l f, objs st !! l = Some f →
    ∃ f', objs st' !! l = Some f' ∧ f_id f' = f_id f ∧
          f_bytes_sent f ≤ f_bytes_sent f' ∧
          f_bytes_received f ≤ f_bytes_received f'.

(** *** get_forwarding_status *)

(** The [status] dict; [connections] is a count. *)
Record forwarding_status := {
  s_id : string;
  s_type : string;
  s_active : bool;
  s_connections : nat;
  s_bytes_sent : Z;
  s_bytes_received : Z;
  s_uptime : Z;
  s_error : option string
}.

(** [now] is what [time.time()] reads during the call. *)
Definition get_forwarding_status (now : Z) (forwarding_id : string)
    (st : state) : option forwarding_status :=
  match forwardings st !! forwarding_id with
  | None => None
  | Some l =>
    match objs st !! l with
    | None => None
    | Some forwarding =>
      Some {| s_id := f_id forwarding; s_type := f_type forwarding;
              s_active := f_active forwarding;
              s_connections := length (f_connections forwarding);
              s_bytes_sent := f_bytes_sent forwarding;
              s_bytes_received := f_bytes_received forwarding;
              s_uptime := if f_active forwarding
                          then now - f_start_time forwarding else 0;
              s_error := f_error forwarding |}
    end
  end.

(** *** _handle_remote_connection and _handle_internal_connection *)

(** The handler given to [request_port_forward], for the forwarding dict at
    [l] and an incoming [channel]: [dial] is the socket connected to the
    local target, [None] when [connect] raises. The forwarding's [active]
    flag is first read by the pump. *)
Definition _handle_remote_connection (dial : option handle) (now : Z)
    (l : loc) (channel : handle) (rounds : list pump_round) (st : state)
    : state :=
  match dial with
  | Some local_socket =>
    let connection :=
      {| c_socket := local_socket; c_channel := channel; c_start_time := now;
         c_bytes_sent := 0; c_bytes_received := 0 |} in
    let r := register_connection l connection st in
    _handle_forwarding l r.1 rounds r.2
  | None => emit [CloseChannel channel] st
  end.

(** The thread of one client accepted by an internal forwarder. Without an
    SSH client in the config, or when [open_channel] raises, the [except]
    arm closes the client socket. When [open_channel] returns [None] the
    connection dict is appended, the pump fails on its first use of the
    channel and its [finally] closes the socket and takes the dict off the
    list again. *)
Definition _handle_internal_connection (o : Socks.channel_outcome) (now : Z)
    (l : loc) (client_socket : handle) (rounds : list pump_round)
    (st : state) : state :=
  match objs st !! l with
  | None => st
  | Some forwarding =>
    match ssh_client (f_config forwarding), o with
    | Some _, Socks.Opened channel =>
      let connection :=
        {| c_socket := client_socket; c_channel := channel;
           c_start_time := now; c_bytes_sent := 0; c_bytes_received := 0 |} in
      let r := register_connection l connection st in
      _handle_forwarding l r.1 rounds r.2
    | _, _ => emit [CloseSocket client_socket] st
    end
  end.

(** *** More observations *)

(** The bytes announced by the [forwarding_traffic] signals for the dict at
    [l], in each direction. *)
Definition traffic_sent (l : loc) (es : list effect) : Z :=
  foldr (λ e acc, match e with
                  | EmitTraffic l' sent _ =>
                    if (l' =? l)%nat then sent + acc else acc
                  | _ => acc
                  end) 0 es.

Definition traffic_received (l : loc) (es : list effect) : Z :=
  foldr (λ e acc, match e with
                  | EmitTraffic l' _ received =>
                    if (l' =? l)%nat then received + acc else acc
                  | _ => acc
                  end) 0 es.

(** Every entry of a connection list refers to a connection dict, and no
    list holds an entry twice. *)
Definition connections_known (st : state) : Prop :=
  ∀ l f, objs st !! l = Some f →
    NoDup (f_connections f) ∧
    ∀ c, c ∈ f_connections f → is_Some (conns st !! c).

(** The four kinds [add_forwarding] and [start_forwarding] know. *)
Definition kinds : list string := ["local"; "remote"; "dynamic"; "internal"].

(** The two config keys the id of a kind is printed from. *)
Definition id_fields (forwarding_type : string) (cfg : forwarding_config)
    : option string * option Z :=
  if String.eqb forwarding_type "local" then (local_host cfg, local_port cfg)
  else if String.eqb forwarding_type "remote" then
    (remote_host cfg, remote_port cfg)
  else if String.eqb forwarding_type "dynamic" then
    (bind_host cfg, bind_port cfg)
  else (internal_host cfg, internal_port cfg).

Definition is_traffic (e : effect) : bool :=
  match e with EmitTraffic _ _ _ => true | _ => false end.

(** From [st] to [st'] the counters of the dict at [l] grew by what the
    traffic signals emitted in between announce for it. *)
Definition accounted (l : loc) (st st' : state) : Prop :=
  ∀ f, objs st !! l = Some f →
    ∃ es f', effects st' = effects st ++ es ∧ objs st' !! l = Some f' ∧
      f_bytes_sent f' = f_bytes_sent f + traffic_sent l es ∧
      f_bytes_received f' = f_bytes_received f + traffic_received l es.

End PortForwarder.

(** ** src/core/ssh_manager.py *)
Module SSHManager.

(** *** connect *)

(** A parsed private key ([paramiko.RSAKey]). *)
Definition private_key := nat.

(** The [connect_kwargs] dict handed to [client.connect]. *)
Record connect_kwargs := {
  hostname : string;
  port : Z;
  username : string;
  timeout : Z;
  pkey : option private_key;
  password : option string
}.

Inductive credential :=
| PublicKey (k : private_key)
| Password (p : string).

(** The world outside [connect]: the file system, the key parser, the
    network and the server's authentication decision. [load_key path pw] is
    [RSAKey.from_private_key_file], [None] when it raises. [ambient_keys]
    are the agent and [~/.ssh] keys paramiko finds by itself. *)
Record ssh_env := {
  path_exists : string → bool;
  load_key : string → option string → option private_key;
  reachable : string → Z → bool;
  ambient_keys : list private_key;
  accepts : string → credential → bool
}.

(** [paramiko.SSHClient.connect] is not part of the repository; it is
    modelled by what it is handed: it dials, then offers the explicit key,
    the keys it finds by itself, and the password when one was passed, in
    that order, and raises unless one is accepted. *)
Definition offered (e : ssh_env) (kw : connect_kwargs) : list credential :=
  from_option (λ k, [PublicKey k]) [] (pkey kw)
  ++ (PublicKey <$> ambient_keys e)
  ++ from_option (λ p, [Password p]) [] (password kw).

Definition client_connect (e : ssh_env) (kw : connect_kwargs) : bool :=
  reachable e (hostname kw) (port kw)
  && existsb (accepts e (username kw)) (offered e kw).

(** A forwarding dict of the [start_*_forwarding] methods; keys a kind does
    not set are [None]. *)
Record forwarding := {
  type : string;
  client : handle;
  transport : option handle;
  local_host : option string;
  local_port : option Z;
  remote_host : option string;
  remote_port : option Z;
  bind_host : option string;
  bind_port : option Z;
  active : bool
}.

(** [self.clients], [self.forwardings], the forwarding dicts, the number of
    [SSHClient] objects created so far, and the effects so far. *)
Record state := {
  clients : gmap string handle;
  forwardings : gmap string loc;
  objs : gmap loc forwarding;
  created : nat;
  effects : list effect
}.

Definition init : state :=
  {| clients := ∅; forwardings := ∅; objs := ∅; created := 0;
     effects := [] |}.

Definition set_clients (m : gmap string handle) (st : state) : state :=
  {| clients := m; forwardings := forwardings st; objs := objs st;
     created := created st; effects := effects st |}.
Definition set_forwardings (m : gmap string loc) (st : state) : state :=
  {| clients := clients st; forwardings := m; objs := objs st;
     created := created st; effects := effects st |}.
Definition set_objs (m : gmap loc forwarding) (st : state) : state :=
  {| clients := clients st; forwardings := forwardings st; objs := m;
     created := created st; effects := effects st |}.
Definition new_client (st : state) : state :=
  {| clients := clients st; forwardings := forwardings st; objs := objs st;
     created := S (created st); effects := effects st |}.
Definition emit (es : list effect) (st : state) : state :=
  {| clients := clients st; forwardings := forwardings st; objs := objs st;
     created := created st; effects := effects st ++ es |}.

Definition nonempty (s : string) : bool := negb (String.eqb s "").

(** The [connect_kwargs] that [connect] builds; [None] when the key file
    cannot be parsed (the exception leaves [connect] through its
    [except]). *)
Definition build_kwargs (e : ssh_env) (host : string) (port : Z)
    (username password key_path passphrase : string)
    : option connect_kwargs :=
  if nonempty key_path && path_exists e key_path then
    match load_key e key_path
            (if nonempty passphrase then Some passphrase else None) with
    | Some key =>
      Some {| hostname := host; port := port; username := username;
              timeout := 10; pkey := Some key; password := None |}
    | None => None
    end
  else if nonempty password then
    Some {| hostname := host; port := port; username := username;
            timeout := 10; pkey := None; password := Some password |}
  else
    Some {| hostname := host; port := port; username := username;
            timeout := 10; pkey := None; password := None |}.

Definition client_id_of (host : string) (port : Z) (username : string)
    : string :=
  host +:+ ":" +:+ pretty port +:+ ":" +:+ username.

Definition connect (e : ssh_env) (host : string) (port : Z)
    (username password key_path passphrase : string) (st : state)
    : option handle * state :=
  let client := created st in
  let st := new_client st in
  match build_kwargs e host port username password key_path passphrase with
  | None => (None, st)
  | Some kw =>
    if client_connect e kw then
      let client_id := client_id_of host port username in
      (Some client,
       emit [EmitConnectionStatus client_id true]
         (set_clients (<[client_id := client]> (clients st)) st))
    else (None, st)
  end.

(** *** start_remote_forwarding and stop_forwarding *)

Definition new_loc {A} (m : gmap loc A) : loc := fresh (dom m).

(** [client_transport] is what [client.get_transport()] returns and
    [request_ok] whether [transport.request_port_forward] returned. *)
Definition start_remote_forwarding (client_transport : option handle)
    (request_ok : bool) (client : option handle) (remote_host : string)
    (remote_port : Z) (local_host : string) (local_port : Z) (st : state)
    : option loc * state :=
  match client with
  | None => (None, st)
  | Some cl =>
    if bool_decide (is_Some client_transport) && request_ok then
      let l := new_loc (objs st) in
      let fwd :=
        {| type := "remote"; client := cl; transport := client_transport;
           local_host := Some local_host; local_port := Some local_port;
           remote_host := Some remote_host; remote_port := Some remote_port;
           bind_host := None; bind_port := None; active := true |} in
      let forwarding_id :=
        "remote:" +:+ remote_host +:+ ":" +:+ pretty remote_port in
      (Some l,
       emit [RequestPortForward remote_host remote_port;
             EmitForwardingStatus l true]
         (set_forwardings (<[forwarding_id := l]> (forwardings st))
            (set_objs (<[l := fwd]> (objs st)) st)))
    else (None, st)
  end.

Definition deactivate (f : forwarding) : forwarding :=
  {| type := type f; client := client f; transport := transport f;
     local_host := local_host f; local_port := local_port f;
     remote_host := remote_host f; remote_port := remote_port f;
     bind_host := bind_host f; bind_port := bind_port f; active := false |}.

(** The tail shared by the three arms of [stop_forwarding]: mark inactive,
    compute the id with subscripts (a missing key raises: [None]), drop it
    from [self.forwardings]. *)
Definition drop_forwarding (l : loc) (prefix : string)
    (host : option string) (port : option Z) (st : state) : option state :=
  let st := set_objs (alter deactivate l (objs st)) st in
  match host, port with
  | Some h, Some p =>
    Some (set_forwardings
            (delete (prefix +:+ h +:+ ":" +:+ pretty p) (forwardings st)) st)
  | _, _ => None
  end.

(** [stop_forwarding(forwarding)] on the dict at [l]; [cancel_ok] is whether
    [transport.cancel_port_forward] returned. An exception anywhere leaves
    through the [except] and skips the final signal. *)
Definition stop_forwarding (cancel_ok : bool) (l : loc) (st : state)
    : state :=
  match objs st !! l with
  | None => st
  | Some f =>
    if String.eqb (type f) "local" then
      match drop_forwarding l "local:" (local_host f) (local_port f) st with
      | Some st' => emit [EmitForwardingStatus l false] st'
      | None => set_objs (alter deactivate l (objs st)) st
      end
    else if String.eqb (type f) "remote" then
      match transport f with
      | Some _ =>
        let st1 :=
          emit [CancelPortForward (default "" (remote_host f))
                                  (default 0 (remote_port f))] st in
        if cancel_ok then
          match drop_forwarding l "remote:" (remote_host f) (remote_port f)
                  st1 with
          | Some st' => emit [EmitForwardingStatus l false] st'
          | None => set_objs (alter deactivate l (objs st1)) st1
          end
        else st1
      | None =>
        match drop_forwarding l "remote:" (remote_host f) (remote_port f)
                st with
        | Some st' => emit [EmitForwardingStatus l false] st'
        | None => set_objs (alter deactivate l (objs st)) st
        end
      end
    else if String.eqb (type f) "dynamic" then
      match drop_forwarding l "dynamic:" (bind_host f) (bind_port f) st with
      | Some st' => emit [EmitForwardingStatus l false] st'
      | None => set_objs (alter deactivate l (objs st)) st
      end
    else emit [EmitForwardingStatus l false] st
  end.

Section Socks5.
Import Socks.

(** *** _handle_socks_connection *)

(** The handler of one accepted SOCKS client; [format_ipv6] is the C
    library's IPv6 formatter and [o] what [transport.open_channel]
    answers. *)
Definition _handle_socks_connection (format_ipv6 : list byte → string)
    (o : Socks.channel_outcome) : Socks.M unit :=
  try_except
    (data <- recv 2 ;;
     if (length data <? 2)%nat then close ;; return_ else
     let version := at_ data 0 in
     let nmethods := at_ data 1 in
     if negb (version =? 5)%N then close ;; return_ else
     methods <- recv (N.to_nat nmethods) ;;
     sendall method_reply ;;
     data <- recv 4 ;;
     if (length data <? 4)%nat then close ;; return_ else
     let cmd := at_ data 1 in
     let atyp := at_ data 3 in
     if negb (cmd =? 1)%N then
       sendall reply_command_not_supported ;; close ;; return_
     else
     addr <-
       (if (atyp =? 1)%N then
          addr_bytes <- recv 4 ;; inet_ntoa addr_bytes
        else if (atyp =? 3)%N then
          len_byte <- recv 1 ;;
          addr_len <- index len_byte 0 ;;
          name <- recv (N.to_nat addr_len) ;;
          decode_utf8 name
        else if (atyp =? 4)%N then
          addr_bytes <- recv 16 ;; inet_ntop6 format_ipv6 addr_bytes
        else
          sendall reply_address_not_supported ;; close ;; return_) ;;
     port_bytes <- recv 2 ;;
     hi <- index port_bytes 0 ;;
     lo <- index port_bytes 1 ;;
     let port := Z.shiftl (Z.of_N hi) 8 + Z.of_N lo in
     channel <- open_channel o addr port ;;
     match channel with
     | None => sendall reply_host_unreachable ;; close ;; return_
     | Some _ => sendall reply_success ;; log PumpStarted
     end)
    close.

End Socks5.

(** *** Observations *)

(** Whether the connection attempt inside [connect] goes through. *)
Definition connect_succeeds (e : ssh_env) (host : string) (port : Z)
    (username password key_path passphrase : string) : bool :=
  match build_kwargs e host port username password key_path passphrase with
  | Some kw => client_connect e kw
  | None => false
  end.

Definition emitted (before after : state) : list effect :=
  drop (length (effects before)) (effects after).

(** *** start_local_forwarding and start_dynamic_forwarding *)

(** The dicts the two methods build. *)
Definition local_forwarding (cl : handle) (client_transport : option handle)
    (local_host : string) (local_port : Z) (remote_host : string)
    (remote_port : Z) : forwarding :=
  {| type := "local"; client := cl; transport := client_transport;
     local_host := Some local_host; local_port := Some local_port;
     remote_host := Some remote_host; remote_port := Some remote_port;
     bind_host := None; bind_port := None; active := true |}.

Definition dynamic_forwarding (cl : handle) (client_transport : option handle)
    (bind_host : string) (bind_port : Z) : forwarding :=
  {| type := "dynamic"; client := cl; transport := client_transport;
     local_host := None; local_port := None;
     remote_host := None; remote_port := None;
     bind_host := Some bind_host; bind_port := Some bind_port;
     active := true |}.

(** What a start does once [thread.start()] has returned:
    [self.forwardings[forwarding_id] = forwarding], then
    [self.forwarding_status_changed.emit(forwarding, True)]. *)
Definition store_forwarding (forwarding_id : string) (l : loc) (st : state)
    : state :=
  set_forwardings (<[forwarding_id := l]> (forwardings st)) st.

Definition announce_started (l : loc) (st : state) : state :=
  emit [EmitForwardingStatus l true] st.

(** [client_transport] is what [client.get_transport()] returns and
    [thread_ok] whether [thread.start()] returned. These are the caller's
    own steps, in the caller's order. The thread is started before the
    dict is stored and runs beside the caller; its steps are
    [_local_forwarding_thread] and [_dynamic_forwarding_thread] below. *)
Definition start_local_forwarding (client_transport : option handle)
    (thread_ok : bool) (client : option handle) (local_host : string)
    (local_port : Z) (remote_host : string) (remote_port : Z) (st : state)
    : option loc * state :=
  match client with
  | None => (None, st)
  | Some cl =>
    if thread_ok then
      let l := new_loc (objs st) in
      let fwd :=
        local_forwarding cl client_transport local_host local_port
          remote_host remote_port in
      let forwarding_id :=
        "local:" +:+ local_host +:+ ":" +:+ pretty local_port in
      (Some l,
       announce_started l
         (store_forwarding forwarding_id l
            (set_objs (<[l := fwd]> (objs st)) st)))
    else (None, st)
  end.

Definition start_dynamic_forwarding (client_transport : option handle)
    (thread_ok : bool) (client : option handle) (bind_host : string)
    (bind_port : Z) (st : state) : option loc * state :=
  match client with
  | None => (None, st)
  | Some cl =>
    if thread_ok then
      let l := new_loc (objs st) in
      let fwd := dynamic_forwarding cl client_transport bind_host bind_port in
      let forwarding_id :=
        "dynamic:" +:+ bind_host +:+ ":" +:+ pretty bind_port in
      (Some l,
       announce_started l
         (store_forwarding forwarding_id l
            (set_objs (<[l := fwd]> (objs st)) st)))
    else (None, st)
  end.

(** *** _local_forwarding_thread and _dynamic_forwarding_thread *)

(** The thread of the forwarding dict at [l], up to its accept loop:
    [bound] is the listening socket, [None] when [socket()], [bind()] or
    [listen()] raises and the [except] arm marks the dict inactive. *)
Definition _local_forwarding_thread (bound : option handle) (l : loc)
    (st : state) : state :=
  match objs st !! l with
  | None => st
  | Some forwarding =>
    match bound with
    | Some server_socket =>
      emit [ListenOn server_socket (default "" (local_host forwarding))
              (default 0 (local_port forwarding))] st
    | None => set_objs (alter deactivate l (objs st)) st
    end
  end.

Definition _dynamic_forwarding_thread (bound : option handle) (l : loc)
    (st : state) : state :=
  match objs st !! l with
  | None => st
  | Some forwarding =>
    match bound with
    | Some server_socket =>
      emit [ListenOn server_socket (default "" (bind_host forwarding))
              (default 0 (bind_port forwarding))] st
    | None => set_objs (alter deactivate l (objs st)) st
    end
  end.

(** The steps of a caller and the step of a thread it has started, in one
    of the orders the two may run in: the thread's step comes after the
    first [when] steps of the caller, after all of them when there are
    fewer. *)
Definition interleave (when : nat) (thread : state → state)
    (caller : list (state → state)) (st : state) : state :=
  foldl (λ s step, step s) st (take when caller ++ thread :: drop when caller).

(** [start_local_forwarding] with a client and a thread that starts,
    together with that thread up to its accept loop: the thread binds (or
    fails to) before the dict is stored ([when = 0]), between the store
    and the signal ([when = 1]), or after the signal. *)
Definition local_start_with_thread (when : nat) (bound : option handle)
    (client_transport : option handle) (cl : handle) (local_host : string)
    (local_port : Z) (remote_host : string) (remote_port : Z) (st : state)
    : state :=
  let l := new_loc (objs st) in
  let fwd :=
    local_forwarding cl client_transport local_host local_port remote_host
      remote_port in
  let forwarding_id := "local:" +:+ local_host +:+ ":" +:+ pretty local_port in
  interleave when (_local_forwarding_thread bound l)
    [store_forwarding forwarding_id l; announce_started l]
    (set_objs (<[l := fwd]> (objs st)) st).

Definition dynamic_start_with_thread (when : nat) (bound : option handle)
    (client_transport : option handle) (cl : handle) (bind_host : string)
    (bind_port : Z) (st : state) : state :=
  let l := new_loc (objs st) in
  let fwd := dynamic_forwarding cl client_transport bind_host bind_port in
  let forwarding_id :=
    "dynamic:" +:+ bind_host +:+ ":" +:+ pretty bind_port in
  interleave when (_dynamic_forwarding_thread bound l)
    [store_forwarding forwarding_id l; announce_started l]
    (set_objs (<[l := fwd]> (objs st)) st).

(** *** _remote_forwarding_handler *)

(** The handler given to [request_port_forward], for an incoming
    [channel]; [dial] is the socket connected to the local target, [None]
    when [connect] raises. The result tells whether the local target was
    dialled and the pair was handed to [_forward_data]. *)
Definition _remote_forwarding_handler (dial : option handle)
    (channel : handle) (l : loc) (st : state) : bool * state :=
  match objs st !! l with
  | None => (false, st)
  | Some forwarding =>
    if negb (active forwarding) then (false, emit [CloseChannel channel] st)
    else
      match dial with
      | Some _ => (true, st)
      | None => (false, emit [CloseChannel channel] st)
      end
  end.

(** *** disconnect *)

(** The first id under which [client] is stored, in the order of
    [self.clients.items()]. *)
Definition find_client_id (cl : handle)
    (client_items : list (string * handle)) : option string :=
  fst <$> List.find (λ kv, bool_decide (kv.2 = cl)) client_items.

(** The ids whose forwarding dict refers to [client], in the order of
    [self.forwardings.items()]. *)
Definition forwardings_to_stop (cl : handle)
    (forwarding_items : list (string * loc)) (st : state) : list string :=
  (filter (λ kl, client <$> objs st !! kl.2 = Some cl) forwarding_items).*1.

(** [for fwd_id in forwardings_to_stop:
       self.stop_forwarding(self.forwardings[fwd_id])];
    the flag is false when a subscript raises KeyError. [cancel_ok l]
    tells whether [cancel_port_forward] returns for the dict at [l]. *)
Fixpoint stop_each (cancel_ok : loc → bool) (ids : list string) (st : state)
    : bool * state :=
  match ids with
  | [] => (true, st)
  | fwd_id :: ids' =>
    match forwardings st !! fwd_id with
    | None => (false, st)
    | Some l => stop_each cancel_ok ids' (stop_forwarding (cancel_ok l) l st)
    end
  end.

(** [client_items] and [forwarding_items] are the items of the two dicts
    in the dicts' own order, which the maps do not record. *)
Definition disconnect (client_items : list (string * handle))
    (forwarding_items : list (string * loc)) (cancel_ok : loc → bool)
    (client : option handle) (st : state) : state :=
  match client with
  | None => st
  | Some cl =>
    match find_client_id cl client_items with
    | Some client_id =>
      if nonempty client_id then
        let r :=
          stop_each cancel_ok (forwardings_to_stop cl forwarding_items st)
            st in
        if r.1 then
          emit [EmitConnectionStatus client_id false]
            (set_clients (delete client_id (clients r.2))
               (emit [CloseClient cl] r.2))
        else r.2
      else emit [CloseClient cl] st
    | None => emit [CloseClient cl] st
    end
  end.

(** *** More observations *)

(** The id a forwarding dict is stored and dropped under; [None] for a
    dict of another type or without the keys of its type. *)
Definition forwarding_id (f : forwarding) : option string :=
  if String.eqb (type f) "local" then
    match local_host f, local_port f with
    | Some h, Some p => Some ("local:" +:+ h +:+ ":" +:+ pretty p)
    | _, _ => None
    end
  else if String.eqb (type f) "remote" then
    match remote_host f, remote_port f with
    | Some h, Some p => Some ("remote:" +:+ h +:+ ":" +:+ pretty p)
    | _, _ => None
    end
  else if String.eqb (type f) "dynamic" then
    match bind_host f, bind_port f with
    | Some h, Some p => Some ("dynamic:" +:+ h +:+ ":" +:+ pretty p)
    | _, _ => None
    end
  else None.

(** Every id of the registry refers to a dict that prints that id. *)
Definition keyed (st : state) : Prop :=
  ∀ k l, forwardings st !! k = Some l →
    ∃ f, objs st !! l = Some f ∧ forwarding_id f = Some k.

(** What [stop_forwarding] asks of the transport for the dict [f] (only a
    remote forwarding with a transport is cancelled), and whether it gets
    past that request. *)
Definition cancel_request (f : forwarding) : list effect :=
  if String.eqb (type f) "remote" && bool_decide (is_Some (transport f))
  then [CancelPortForward (default "" (remote_host f))
          (default 0 (remote_port f))]
  else [].

Definition cancels (cancel_ok : bool) (f : forwarding) : bool :=
  negb (String.eqb (type f) "remote" && bool_decide (is_Some (transport f)))
  || cancel_ok.

End SSHManager.

(** ** Base64: Python's [base64.b64encode] and [base64.b64decode] *)
Module Base64.

Definition byte_of := Utf8.byte_of.

(** The standard alphabet, A-Z a-z 0-9 + /. *)
Definition alphabet_char (n : N) : byte :=
  if (n <? 26)%N then byte_of (65 + n)
  else if (n <? 52)%N then byte_of (71 + n)
  else if (n <? 62)%N then byte_of (n - 4)
  else if (n =? 62)%N then x2b
  else x2f.

Definition alphabet_value (b : byte) : option N :=
  let n := Byte.to_N b in
  if (65 <=? n)%N && (n <=? 90)%N then Some (n - 65)%N
  else if (97 <=? n)%N && (n <=? 122)%N then Some (n - 71)%N
  else if (48 <=? n)%N && (n <=? 57)%N then Some (n + 4)%N
  else if (n =? 43)%N then Some 62%N
  else if (n =? 47)%N then Some 63%N
  else None.

Definition pad : byte := x3d.

(** [b64encode]: three bytes to four characters, the tail padded. *)
Fixpoint b64encode (data : list byte) : list byte :=
  match data with
  | [] => []
  | [a] =>
    let a := Byte.to_N a in
    [alphabet_char (N.shiftr a 2);
     alphabet_char (N.shiftl (N.land a 3) 4); pad; pad]
  | [a; b] =>
    let a := Byte.to_N a in
    let b := Byte.to_N b in
    [alphabet_char (N.shiftr a 2);
     alphabet_char (N.lor (N.shiftl (N.land a 3) 4) (N.shiftr b 4));
     alphabet_char (N.shiftl (N.land b 15) 2); pad]
  | a :: b :: c :: rest =>
    let a := Byte.to_N a in
    let b := Byte.to_N b in
    let c := Byte.to_N c in
    [alphabet_char (N.shiftr a 2);
     alphabet_char (N.lor (N.shiftl (N.land a 3) 4) (N.shiftr b 4));
     alphabet_char (N.lor (N.shiftl (N.land b 15) 2) (N.shiftr c 6));
     alphabet_char (N.land c 63)]
    ++ b64encode rest
  end.

(** The decoder of [binascii.a2b_base64] in its default, lenient mode:
    position in the current group of four, bits carried over, padding
    characters seen in a row, bytes produced. *)
Record decoder := {
  quad_pos : N;
  leftchar : N;
  pads : N;
  output : list byte
}.

Definition start : decoder :=
  {| quad_pos := 0; leftchar := 0; pads := 0; output := [] |}.

(** One alphabet character with value [v]. *)
Definition feed (v : N) (d : decoder) : decoder :=
  if (quad_pos d =? 0)%N then
    {| quad_pos := 1; leftchar := v; pads := 0; output := output d |}
  else if (quad_pos d =? 1)%N then
    {| quad_pos := 2; leftchar := N.land v 15; pads := 0;
       output := output d
                 ++ [byte_of (N.lor (N.shiftl (leftchar d) 2) (N.shiftr v 4))]
    |}
  else if (quad_pos d =? 2)%N then
    {| quad_pos := 3; leftchar := N.land v 3; pads := 0;
       output := output d
                 ++ [byte_of (N.lor (N.shiftl (leftchar d) 4) (N.shiftr v 2))]
    |}
  else
    {| quad_pos := 0; leftchar := 0; pads := 0;
       output := output d ++ [byte_of (N.lor (N.shiftl (leftchar d) 6) v)] |}.

(** Characters outside the alphabet are skipped; enough padding after at
    least two characters of a group ends the input; input that stops inside
    a group is [binascii.Error] ([None]). *)
Fixpoint a2b_base64 (data : list byte) (d : decoder) : option (list byte) :=
  match data with
  | [] => if (quad_pos d =? 0)%N then Some (output d) else None
  | this_ch :: rest =>
    if Byte.eqb this_ch pad then
      if (2 <=? quad_pos d)%N then
        if (4 <=? quad_pos d + (pads d + 1))%N then Some (output d)
        else
          a2b_base64 rest
            {| quad_pos := quad_pos d; leftchar := leftchar d;
               pads := pads d + 1; output := output d |}
      else a2b_base64 rest d
    else
      match alphabet_value this_ch with
      | None => a2b_base64 rest d
      | Some v => a2b_base64 rest (feed v d)
      end
  end.

(** [str.encode("ascii")], the first step of [b64decode] on a [str]; [None]
    is the ValueError for a character above 127. *)
Fixpoint ascii_bytes (s : Utf8.text) : option (list byte) :=
  match s with
  | [] => Some []
  | c :: s' =>
    if (c <? 128)%N then cons (byte_of c) <$> ascii_bytes s' else None
  end.

Definition b64decode (s : Utf8.text) : option (list byte) :=
  match ascii_bytes s with
  | Some data => a2b_base64 data start
  | None => None
  end.

(** *** The bit arithmetic, checked over all bytes *)

Definition all_below (k : nat) (P : N → bool) : bool :=
  forallb P (map N.of_nat (seq 0 k)).

(** A six-bit value maps to an alphabet character that is ASCII, is not the
    padding character, and maps back. *)
Definition sextet_ok (v : N) : bool :=
  match alphabet_value (alphabet_char v) with
  | Some v' => (v' =? v)%N
  | None => false
  end
  && negb (Byte.eqb (alphabet_char v) pad)
  && (Byte.to_N (alphabet_char v) <? 128)%N.

(** The first two characters of a group give back its first byte, also when
    the group stops after that byte. *)
Definition head_ok (a b : N) : bool :=
  let s0 := N.shiftr a 2 in
  let s1 := N.lor (N.shiftl (N.land a 3) 4) (N.shiftr b 4) in
  (s0 <? 64)%N && (s1 <? 64)%N
  && (N.lor (N.shiftl s0 2) (N.shiftr s1 4) =? a)%N
  && (N.land s1 15 =? N.shiftr b 4)%N
  && (N.shiftl (N.land a 3) 4 <? 64)%N
  && (N.lor (N.shiftl s0 2) (N.shiftr (N.shiftl (N.land a 3) 4) 4) =? a)%N.

(** The last two characters of a group give back its second and third
    byte, also when the group stops after the second byte. *)
Definition tail_ok (b c : N) : bool :=
  let s2 := N.lor (N.shiftl (N.land b 15) 2) (N.shiftr c 6) in
  let s3 := N.land c 63 in
  (s2 <? 64)%N && (s3 <? 64)%N
  && (N.lor (N.shiftl (N.shiftr b 4) 4) (N.shiftr s2 2) =? b)%N
  && (N.land s2 3 =? N.shiftr c 6)%N
  && (N.lor (N.shiftl (N.shiftr c 6) 6) s3 =? c)%N
  && (N.shiftl (N.land b 15) 2 <? 64)%N
  && (N.lor (N.shiftl (N.shiftr b 4) 4)
        (N.shiftr (N.shiftl (N.land b 15) 2) 2) =? b)%N.

End Base64.

(** ** src/utils/encryption.py *)
Module Encryption.

(** [cryptography.fernet.Fernet], as far as the module relies on it: keys
    are the valid ones (32 url-safe base64-encoded bytes), [nonce] is the
    time stamp and IV that [encrypt] draws, a token decrypts to what was
    encrypted, and a token is never empty (it starts with a version
    byte). *)
Class Fernet := {
  fernet_key : Type;
  nonce : Type;
  fernet_encrypt : fernet_key → nonce → list byte → list byte;
  fernet_decrypt : fernet_key → list byte → option (list byte);
  fernet_decrypt_encrypt :
    ∀ k r m, fernet_decrypt k (fernet_encrypt k r m) = Some m;
  fernet_token_nonempty : ∀ k r m, fernet_encrypt k r m ≠ []
}.

Section Envelope.
Context `{F : Fernet}.

(** [Encryption.encrypt]; [None] when [data.encode("utf-8")] raises. *)
Definition encrypt (data : Utf8.text) (key : fernet_key) (r : nonce)
    : option (list byte) :=
  match data with
  | [] => Some []
  | _ => fernet_encrypt key r <$> Utf8.encode data
  end.

(** [Encryption.decrypt]: every failure is turned into the empty string. *)
Definition decrypt (encrypted_data : list byte) (key : fernet_key)
    : Utf8.text :=
  match encrypted_data with
  | [] => []
  | _ =>
    match fernet_decrypt key encrypted_data with
    | Some decrypted => default [] (Utf8.decode decrypted)
    | None => []
    end
  end.

Definition encrypt_to_string (data : Utf8.text) (key : fernet_key)
    (r : nonce) : option Utf8.text :=
  match encrypt data key r with
  | None => None
  | Some [] => Some []
  | Some encrypted => Utf8.decode (Base64.b64encode encrypted)
  end.

Definition decrypt_from_string (encrypted_string : Utf8.text)
    (key : fernet_key) : Utf8.text :=
  match encrypted_string with
  | [] => []
  | _ =>
    match Base64.b64decode encrypted_string with
    | Some encrypted_data => decrypt encrypted_data key
    | None => []
    end
  end.

End Envelope.

(** A stand-in cipher for running the envelope on concrete strings: the
    token is a version byte, the nonce byte and the plaintext reversed. *)
Definition unseal (token : list byte) : option (list byte) :=
  match token with
  | v :: _ :: body => if Byte.eqb v x80 then Some (rev body) else None
  | _ => None
  end.

#[refine] Instance reversing_fernet : Fernet := {
  fernet_key := unit;
  nonce := byte;
  fernet_encrypt := λ _ r m, x80 :: r :: rev m;
  fernet_decrypt := λ _ token, unseal token
}.
Proof.
  - intros k r m. simpl. by rewrite rev_involutive.
  - intros k r m. discriminate.
Defined.

End Encryption.

(** ** src/utils/config_manager.py: the cipher of the stored secrets *)
Module ConfigManager.

Section Cipher.
Context `{F : Encryption.Fernet}.

(** [self._encrypt(data)] under [self.encryption_key]; [r] is the nonce
    that [Fernet.encrypt] draws; [None] when [data.encode("utf-8")]
    raises, which nothing here catches. *)
Definition _encrypt (encryption_key : Encryption.fernet_key)
    (r : Encryption.nonce) (data : Utf8.text) : option Utf8.text :=
  match data with
  | [] => Some []
  | _ =>
    match Utf8.encode data with
    | Some plain =>
      Utf8.decode
        (Base64.b64encode (Encryption.fernet_encrypt encryption_key r plain))
    | None => None
    end
  end.

(** [self._decrypt(encrypted_data)]: the bare [except] turns every failure
    into the empty string. *)
Definition _decrypt (encryption_key : Encryption.fernet_key)
    (encrypted_data : Utf8.text) : Utf8.text :=
  match encrypted_data with
  | [] => []
  | _ =>
    match Base64.b64decode encrypted_data with
    | Some token =>
      match Encryption.fernet_decrypt encryption_key token with
      | Some decrypted => default [] (Utf8.decode decrypted)
      | None => []
      end
    | None => []
    end
  end.

End Cipher.

End ConfigManager.

(** ** src/gui: what the dialogs and the main window hand to the managers *)
Module Gui.

(** *** forwarding_dialog.py *)

(** A rule dict, as the three [add_*] methods build it. *)
Inductive rule :=
| LocalRule (local_host : string) (local_port : Z) (remote_host : string)
    (remote_port : Z) (active : bool)
| RemoteRule (remote_host : string) (remote_port : Z) (local_host : string)
    (local_port : Z) (active : bool)
| DynamicRule (bind_host : string) (bind_port : Z) (active : bool).

(** [QSpinBox.setValue] on a box with [setRange(1, 65535)]. *)
Definition spin_set (v : Z) : Z := Z.max 1 (Z.min 65535 v).

(** The three tests "a rule of this type on this host and port is there
    already". *)
Definition same_local (host : string) (port : Z) (r : rule) : bool :=
  match r with
  | LocalRule h p _ _ _ => String.eqb h host && (p =? port)
  | _ => false
  end.
Definition same_remote (host : string) (port : Z) (r : rule) : bool :=
  match r with
  | RemoteRule h p _ _ _ => String.eqb h host && (p =? port)
  | _ => false
  end.
Definition same_dynamic (host : string) (port : Z) (r : rule) : bool :=
  match r with
  | DynamicRule h p _ => String.eqb h host && (p =? port)
  | _ => false
  end.

(** [add_local_forwarding]: the texts and values of the four inputs, the
    rule list before; the rule list and the value of the local port box
    after. A warning leaves both as they are. *)
Definition add_local_forwarding (local_host_edit : string)
    (local_port_spin : Z) (remote_host_edit : string) (remote_port_spin : Z)
    (forwarding_rules : list rule) : list rule * Z :=
  if String.eqb local_host_edit "" || String.eqb remote_host_edit "" then
    (forwarding_rules, local_port_spin)
  else if existsb (same_local local_host_edit local_port_spin)
            forwarding_rules then
    (forwarding_rules, local_port_spin)
  else
    (forwarding_rules
       ++ [LocalRule local_host_edit local_port_spin remote_host_edit
             remote_port_spin false],
     spin_set (local_port_spin + 1)).

Definition add_remote_forwarding (remote_bind_host_edit : string)
    (remote_bind_port_spin : Z) (local_dest_host_edit : string)
    (local_dest_port_spin : Z) (forwarding_rules : list rule)
    : list rule * Z :=
  if String.eqb remote_bind_host_edit ""
     || String.eqb local_dest_host_edit "" then
    (forwarding_rules, remote_bind_port_spin)
  else if existsb (same_remote remote_bind_host_edit remote_bind_port_spin)
            forwarding_rules then
    (forwarding_rules, remote_bind_port_spin)
  else
    (forwarding_rules
       ++ [RemoteRule remote_bind_host_edit remote_bind_port_spin
             local_dest_host_edit local_dest_port_spin false],
     spin_set (remote_bind_port_spin + 1)).

Definition add_dynamic_forwarding (dynamic_host_edit : string)
    (dynamic_port_spin : Z) (forwarding_rules : list rule) : list rule * Z :=
  if String.eqb dynamic_host_edit "" then
    (forwarding_rules, dynamic_port_spin)
  else if existsb (same_dynamic dynamic_host_edit dynamic_port_spin)
            forwarding_rules then
    (forwarding_rules, dynamic_port_spin)
  else
    (forwarding_rules ++ [DynamicRule dynamic_host_edit dynamic_port_spin
                            false],
     spin_set (dynamic_port_spin + 1)).

(** The call [toggle_forwarding] makes to start the rule it has found;
    the first two arguments are what the manager's start needs of the
    outside. *)
Definition start_rule (client_transport : option handle) (ok : bool)
    (client : option handle) (r : rule) (st : SSHManager.state)
    : option loc * SSHManager.state :=
  match r with
  | LocalRule local_host local_port remote_host remote_port _ =>
    SSHManager.start_local_forwarding client_transport ok client local_host
      local_port remote_host remote_port st
  | RemoteRule remote_host remote_port local_host local_port _ =>
    SSHManager.start_remote_forwarding client_transport ok client
      remote_host remote_port local_host local_port st
  | DynamicRule bind_host bind_port _ =>
    SSHManager.start_dynamic_forwarding client_transport ok client bind_host
      bind_port st
  end.

(** *** connection_dialog.py *)

(** The connection dict of [get_connection_data]; the keys an
    authentication choice leaves out are [None]. *)
Record connection := {
  name : string;
  host : string;
  port : Z;
  username : string;
  connected : bool;
  client : option handle;
  forwarding_rules : list rule;
  password : option string;
  key_path : option string;
  passphrase : option string;
  keep_alive : bool;
  compression : bool
}.

(** What the widgets of the dialog hold when a button is pressed. *)
Record widgets := {
  name_edit : string;
  host_edit : string;
  port_spin : Z;
  username_edit : string;
  auth_combo : Z;
  password_edit : string;
  key_path_edit : string;
  passphrase_edit : string;
  keep_alive_check : bool;
  compression_check : bool
}.

(** [connection_data] is the dict the dialog was opened on, if any. *)
Definition get_connection_data (connection_data : option connection)
    (w : widgets) : connection :=
  let auth_index := auth_combo w in
  {| name := name_edit w; host := host_edit w; port := port_spin w;
     username := username_edit w; connected := false; client := None;
     forwarding_rules := from_option forwarding_rules [] connection_data;
     password := if (auth_index =? 0) || (auth_index =? 2)
                 then Some (password_edit w) else None;
     key_path := if (auth_index =? 1) || (auth_index =? 2)
                 then Some (key_path_edit w) else None;
     passphrase := if (auth_index =? 1) || (auth_index =? 2)
                   then Some (passphrase_edit w) else None;
     keep_alive := keep_alive_check w;
     compression := compression_check w |}.

(** [accept]: whether the dialog closes as accepted (no warning). *)
Definition accept (w : widgets) : bool :=
  let auth_index := auth_combo w in
  if String.eqb (name_edit w) "" then false
  else if String.eqb (host_edit w) "" then false
  else if String.eqb (username_edit w) "" then false
  else if (auth_index =? 0) && String.eqb (password_edit w) "" then false
  else if (auth_index =? 1) && String.eqb (key_path_edit w) "" then false
  else if auth_index =? 2 then
    if String.eqb (password_edit w) "" then false
    else if String.eqb (key_path_edit w) "" then false
    else true
  else true.

(** *** main_window.py *)

Definition set_session (up : bool) (cl : option handle) (c : connection)
    : connection :=
  {| name := name c; host := host c; port := port c; username := username c;
     connected := up; client := cl; forwarding_rules := forwarding_rules c;
     password := password c; key_path := key_path c;
     passphrase := passphrase c; keep_alive := keep_alive c;
     compression := compression c |}.

(** [connect_ssh] on the connection dict of the selected row. *)
Definition connect_ssh (e : SSHManager.ssh_env) (c : connection)
    (st : SSHManager.state) : connection * SSHManager.state :=
  let r :=
    SSHManager.connect e (host c) (port c) (username c)
      (default "" (password c)) (default "" (key_path c))
      (default "" (passphrase c)) st in
  match r.1 with
  | Some result => (set_session true (Some result) c, r.2)
  | None => (c, r.2)
  end.

(** [disconnect_ssh]; the first three arguments are what
    [SSHManager.disconnect] needs of the outside. *)
Definition disconnect_ssh (client_items : list (string * handle))
    (forwarding_items : list (string * loc)) (cancel_ok : loc → bool)
    (c : connection) (st : SSHManager.state)
    : connection * SSHManager.state :=
  (set_session false None c,
   SSHManager.disconnect client_items forwarding_items cancel_ok (client c)
     st).

(** *** Observations *)

(** Type, host and port of the listener a rule asks for. *)
Definition address (r : rule) : string * string * Z :=
  match r with
  | LocalRule h p _ _ _ => ("local", h, p)
  | RemoteRule h p _ _ _ => ("remote", h, p)
  | DynamicRule h p _ => ("dynamic", h, p)
  end.

(** The id under which the manager registers a rule that is started. *)
Definition rule_id (r : rule) : string :=
  (address r).1.1 +:+ ":" +:+ (address r).1.2 +:+ ":" +:+ pretty (address r).2.

End Gui.

(** * Concrete rules and sessions used by the examples below *)
Module Scenarios.
Import PortForwarder.

Definition no_config : forwarding_config :=
  {| local_host := None; local_port := None; remote_host := None;
     remote_port := None; bind_host := None; bind_port := None;
     internal_host := None; internal_port := None; ssh_client := None |}.

(** local rule 127.0.0.1:18000 -> 127.0.0.1:19000 over SSH client 1. *)
Definition local_rule : forwarding_config :=
  {| local_host := Some "127.0.0.1"; local_port := Some 18000;
     remote_host := Some "127.0.0.1"; remote_port := Some 19000;
     bind_host := None; bind_port := None;
     internal_host := None; internal_port := None; ssh_client := Some 1%nat |}.

(** internal rule: listen on 127.0.0.1:8080, target 10.0.0.5:80. *)
Definition internal_rule : forwarding_config :=
  {| local_host := Some "127.0.0.1"; local_port := Some 8080;
     remote_host := None; remote_port := None;
     bind_host := None; bind_port := None;
     internal_host := Some "10.0.0.5"; internal_port := Some 80;
     ssh_client := Some 1%nat |}.

(** remote rule 0.0.0.0:8080 -> 127.0.0.1:19000 over SSH client 1. *)
Definition remote_rule : forwarding_config :=
  {| local_host := Some "127.0.0.1"; local_port := Some 19000;
     remote_host := Some "0.0.0.0"; remote_port := Some 8080;
     bind_host := None; bind_port := None;
     internal_host := None; internal_port := None; ssh_client := Some 1%nat |}.

(** The same remote rule handed over without its SSH client. *)
Definition remote_rule_no_client : forwarding_config :=
  {| local_host := Some "127.0.0.1"; local_port := Some 19000;
     remote_host := Some "0.0.0.0"; remote_port := Some 8080;
     bind_host := None; bind_port := None;
     internal_host := None; internal_port := None; ssh_client := None |}.

(** An environment in which every start succeeds at time 100. *)
Definition fair_weather : start_env :=
  {| listen_result := Listening 5%nat 6%nat 100;
     request_result := Requested 100 |}.

(** An environment in which the port is taken. *)
Definition port_taken : start_env :=
  {| listen_result := ListenFailed "Address already in use";
     request_result := RequestFailed "TCP forwarding request denied" |}.

Definition a_connection : connection :=
  {| c_socket := 11%nat; c_channel := 12%nat; c_start_time := 101;
     c_bytes_sent := 0; c_bytes_received := 0 |}.

(** The SSH server of the specification's scenarios: 127.0.0.1:2222, user
    t with password t; no key file on disk, no agent. *)
Definition password_server : SSHManager.ssh_env :=
  {| SSHManager.path_exists := λ _, false;
     SSHManager.load_key := λ _ _, None;
     SSHManager.reachable := λ h p, String.eqb h "127.0.0.1" && (p =? 2222);
     SSHManager.ambient_keys := [];
     SSHManager.accepts := λ u c,
       match c with
       | SSHManager.Password p => String.eqb u "t" && String.eqb p "t"
       | SSHManager.PublicKey _ => false
       end |}.

(** The same server, reached from a machine that has a key file id_rsa
    (parsed as key 7) which the server does not know. *)
Definition stale_key_server : SSHManager.ssh_env :=
  {| SSHManager.path_exists := λ path, String.eqb path "id_rsa";
     SSHManager.load_key := λ _ _, Some 7%nat;
     SSHManager.reachable := λ h p, String.eqb h "127.0.0.1" && (p =? 2222);
     SSHManager.ambient_keys := [];
     SSHManager.accepts := λ u c,
       match c with
       | SSHManager.Password p => String.eqb u "t" && String.eqb p "t"
       | SSHManager.PublicKey _ => false
       end |}.

(** A session manager in which t is already connected to 127.0.0.1:2222. *)
Definition one_session : SSHManager.state :=
  (SSHManager.connect password_server "127.0.0.1" 2222 "t" "t" "" ""
     SSHManager.init).2.

(** A session manager with the remote forwarding 0.0.0.0:8080 ->
    127.0.0.1:19000 started on client 0 (transport 9). *)
Definition one_remote_forwarding : SSHManager.state :=
  (SSHManager.start_remote_forwarding (Some 9%nat) true (Some 0%nat)
     "0.0.0.0" 8080 "127.0.0.1" 19000 one_session).2.

(** A forwarder registry with the remote rule added, started, and one live
    connection on it. *)
Definition remote_rule_in_use : state :=
  run [Add "remote" remote_rule;
       Start fair_weather "remote:0.0.0.0:8080";
       Register 0%nat a_connection] init.

(** Scenarios 4 and 5 of the specification, byte for byte: the greeting
    05 01 00; a CONNECT to 127.0.0.1:19000; a BIND to the same address; and
    a CONNECT to the host name a.b on port 80. *)
Definition greeting : list byte := [x05; x01; x00].
Definition connect_request : list byte :=
  [x05; x01; x00; x01; x7f; x00; x00; x01; x4a; x38].
Definition bind_request : list byte :=
  [x05; x02; x00; x01; x7f; x00; x00; x01; x4a; x38].
Definition domain_request : list byte :=
  [x05; x01; x00; x03; x03; x61; x2e; x62; x00; x50].

(** A stand-in for the C library's IPv6 formatter. *)
Definition any_ipv6_format (addr : list byte) : string := "::".

(** A forwarder registry with the local rule added, started at time 100,
    and one live connection on it; and the rule's dict as it is then. *)
Definition local_rule_in_use : state :=
  run [Add "local" local_rule;
       Start fair_weather "local:127.0.0.1:18000";
       Register 0%nat a_connection] init.

Definition local_rule_dict : forwarding_info :=
  with_connections [0%nat]
    (with_thread 6%nat
       (with_listener 5%nat 100
          (new_forwarding_info "local:127.0.0.1:18000" "local" local_rule))).

(** One turn of the pump in which hello goes each way. *)
Definition hello_round : pump_round :=
  {| on_socket := Readable [x68; x65; x6c; x6c; x6f] true;
     on_channel := Readable [x68; x65; x6c; x6c; x6f] true;
     channel_closed := false |}.

(** The local rule with another target behind the same listening
    address. *)
Definition local_rule_other_target : forwarding_config :=
  {| local_host := Some "127.0.0.1"; local_port := Some 18000;
     remote_host := Some "10.0.0.7"; remote_port := Some 22;
     bind_host := None; bind_port := None;
     internal_host := None; internal_port := None; ssh_client := Some 2%nat |}.

(** The dict of the remote forwarding in [one_remote_forwarding]. *)
Definition remote_forwarding_dict : SSHManager.forwarding :=
  {| SSHManager.type := "remote"; SSHManager.client := 0%nat;
     SSHManager.transport := Some 9%nat;
     SSHManager.local_host := Some "127.0.0.1";
     SSHManager.local_port := Some 19000;
     SSHManager.remote_host := Some "0.0.0.0";
     SSHManager.remote_port := Some 8080;
     SSHManager.bind_host := None; SSHManager.bind_port := None;
     SSHManager.active := true |}.

(** The turn of the pump in which the client has closed its end. *)
Definition eof_round : pump_round :=
  {| on_socket := Readable [] true; on_channel := Idle;
     channel_closed := false |}.

(** An internal rule that names no target host. *)
Definition internal_rule_no_target : forwarding_config :=
  {| local_host := Some "127.0.0.1"; local_port := Some 8080;
     remote_host := None; remote_port := None;
     bind_host := None; bind_port := None;
     internal_host := None; internal_port := Some 80;
     ssh_client := Some 1%nat |}.

(** The connection dialog filled in for t@127.0.0.1:2222 with password
    authentication. *)
Definition password_form : Gui.widgets :=
  {| Gui.name_edit := "test server"; Gui.host_edit := "127.0.0.1";
     Gui.port_spin := 2222; Gui.username_edit := "t"; Gui.auth_combo := 0;
     Gui.password_edit := "t"; Gui.key_path_edit := "";
     Gui.passphrase_edit := ""; Gui.keep_alive_check := true;
     Gui.compression_check := false |}.

(** Two rules as the forwarding dialog lists them. *)
Definition listed_rules : list Gui.rule :=
  [Gui.LocalRule "127.0.0.1" 8080 "10.0.0.5" 80 false;
   Gui.DynamicRule "127.0.0.1" 1080 false].

End Scenarios.

(** * Properties of the forwarder registry (port_forwarder.py) *)
Section PortForwarderFacts.
Import PortForwarder.

Example local_rule_id :
  (add_forwarding "local" Scenarios.local_rule init).1
  = Some "local:127.0.0.1:18000".
Proof. reflexivity. Qed.

Example internal_rule_id :
  (add_forwarding "internal" Scenarios.internal_rule init).1
  = Some "internal:10.0.0.5:80".
Proof. reflexivity. Qed.

Example internal_rule_listener :
  listen_address "internal" Scenarios.internal_rule
  = Some (Some "127.0.0.1", Some 8080).
Proof. reflexivity. Qed.

(** C1, counterexample: an internal rule that listens on 127.0.0.1:8080 for
    the target 10.0.0.5:80 is registered successfully, and its id is not
    internal:host:port for the host and port its listener binds. *)
Lemma internal_identity_is_not_listener_bind :
  ¬ ∃ host port,
      listen_address "internal" Scenarios.internal_rule
      = Some (Some host, Some port) ∧
      (add_forwarding "internal" Scenarios.internal_rule init).1
      = Some ("internal" +:+ ":" +:+ host +:+ ":" +:+ pretty port).
Proof.
  intros (host & port & Ha & Hid).
  vm_compute in Ha. injection Ha as <- <-. vm_compute in Hid. discriminate.
Qed.

Lemma add_forwarding_inv forwarding_type cfg st forwarding_id st' :
  add_forwarding forwarding_type cfg st = (Some forwarding_id, st') →
  forwarding_id_of forwarding_type cfg = Some forwarding_id ∧
  forwardings st !! forwarding_id = None ∧
  forwardings st' = <[forwarding_id := new_loc (objs st)]> (forwardings st) ∧
  objs st'
  = <[new_loc (objs st) :=
        new_forwarding_info forwarding_id forwarding_type cfg]> (objs st) ∧
  effects st' = effects st.
Proof.
  unfold add_forwarding. intros H.
  destruct (forwarding_id_of forwarding_type cfg) as [i|]; [|by inversion H].
  destruct (forwardings st !! i) eqn:Hl; inversion H; subst.
  by repeat split.
Qed.

Lemma forwarding_id_of_cases forwarding_type cfg forwarding_id :
  forwarding_id_of forwarding_type cfg = Some forwarding_id →
  (forwarding_type = "local" ∧
   forwarding_id = "local:" +:+ py_str (local_host cfg) +:+ ":"
                     +:+ py_str_int (local_port cfg)) ∨
  (forwarding_type = "remote" ∧
   forwarding_id = "remote:" +:+ py_str (remote_host cfg) +:+ ":"
                     +:+ py_str_int (remote_port cfg)) ∨
  (forwarding_type = "dynamic" ∧
   forwarding_id = "dynamic:" +:+ py_str (bind_host cfg) +:+ ":"
                     +:+ py_str_int (bind_port cfg)) ∨
  (forwarding_type = "internal" ∧
   forwarding_id = "internal:" +:+ py_str (internal_host cfg) +:+ ":"
                     +:+ py_str_int (internal_port cfg)).
Proof.
  unfold forwarding_id_of. intros H.
  destruct (String.eqb_spec forwarding_type "local") as [->|_];
    [left; split; congruence|].
  destruct (String.eqb_spec forwarding_type "remote") as [->|_];
    [right; left; split; congruence|].
  destruct (String.eqb_spec forwarding_type "dynamic") as [->|_];
    [right; right; left; split; congruence|].
  destruct (String.eqb_spec forwarding_type "internal") as [->|_];
    [right; right; right; split; congruence|].
  discriminate.
Qed.

(** C1, amended: a successful [add_forwarding] returns the key under which
    the new record is registered; for local, remote and dynamic rules that
    carry their bind host and port the id is type:bind_host:bind_port of the
    listener the rule will bind (the local listener for local and dynamic,
    the server-side one for remote); for internal rules the id is made of
    the target internal_host:internal_port, not of the listener's
    local_host:local_port. *)
Theorem add_forwarding_identity forwarding_type cfg st forwarding_id st' :
  add_forwarding forwarding_type cfg st = (Some forwarding_id, st') →
  (∃ l, forwardings st' !! forwarding_id = Some l ∧
        f_id <$> objs st' !! l = Some forwarding_id) ∧
  (forwarding_type = "local" →
   ∀ host port, local_host cfg = Some host → local_port cfg = Some port →
     listen_address forwarding_type cfg = Some (Some host, Some port) ∧
     forwarding_id = "local:" +:+ host +:+ ":" +:+ pretty port) ∧
  (forwarding_type = "remote" →
   ∀ host port, remote_host cfg = Some host → remote_port cfg = Some port →
     listen_address forwarding_type cfg = Some (Some host, Some port) ∧
     forwarding_id = "remote:" +:+ host +:+ ":" +:+ pretty port) ∧
  (forwarding_type = "dynamic" →
   ∀ host port, bind_host cfg = Some host → bind_port cfg = Some port →
     listen_address forwarding_type cfg = Some (Some host, Some port) ∧
     forwarding_id = "dynamic:" +:+ host +:+ ":" +:+ pretty port) ∧
  (forwarding_type = "internal" →
   forwarding_id = "internal:" +:+ py_str (internal_host cfg) +:+ ":"
                     +:+ py_str_int (internal_port cfg)) ∧
  forwarding_type ∈ ["local"; "remote"; "dynamic"; "internal"].
Proof.
  intros H. apply add_forwarding_inv in H as (Hid & _ & Hf & Ho & _).
  split.
  { exists (new_loc (objs st)). rewrite Hf, Ho, !lookup_insert_eq. done. }
  apply forwarding_id_of_cases in Hid
    as [[-> ->]|[[-> ->]|[[-> ->]|[-> ->]]]];
    repeat match goal with |- _ ∧ _ => split end;
    intros; try discriminate; try done;
    try (unfold listen_address, py_str, py_str_int; simpl;
         repeat match goal with H : _ cfg = Some _ |- _ => rewrite H end;
         done);
    repeat constructor.
Qed.

(** The amended C1 at work: a local rule is keyed by its listener. *)
Lemma add_forwarding_identity_witness :
  ∃ l, forwardings (add_forwarding "local" Scenarios.local_rule init).2
         !! "local:127.0.0.1:18000" = Some l.
Proof.
  destruct (add_forwarding_identity "local" Scenarios.local_rule init
              "local:127.0.0.1:18000"
              (add_forwarding "local" Scenarios.local_rule init).2 eq_refl)
    as [(l & Hl & _) _].
  exists l. exact Hl.
Defined.

(** ** The object store only grows, ids stay, counters never go down *)

Lemma new_loc_fresh {A} (m : gmap loc A) : m !! new_loc m = None.
Proof. apply not_elem_of_dom, is_fresh. Qed.

Lemma evolves_refl st : evolves st st.
Proof. intros l f H. exists f. repeat split; [done|lia..]. Qed.

Lemma evolves_trans st1 st2 st3 :
  evolves st1 st2 → evolves st2 st3 → evolves st1 st3.
Proof.
  intros H12 H23 l f Hf.
  destruct (H12 l f Hf) as (f2 & Hf2 & Hi2 & Hs2 & Hr2).
  destruct (H23 l f2 Hf2) as (f3 & Hf3 & Hi3 & Hs3 & Hr3).
  exists f3. repeat split; [done|congruence|lia..].
Qed.

Lemma evolves_same_objs st st' : objs st' = objs st → evolves st st'.
Proof. intros E l f H. exists f. rewrite E. repeat split; [done|lia..]. Qed.

Lemma evolves_alter g l st st' :
  gentle g → objs st' = alter g l (objs st) → evolves st st'.
Proof.
  intros Hg E l' f H. rewrite E.
  destruct (decide (l = l')) as [->|Hne].
  - exists (g f). rewrite lookup_alter_eq, H.
    destruct (Hg f) as (? & ? & ?). done.
  - exists f. rewrite lookup_alter_ne by done. repeat split; [done|lia..].
Qed.

Lemma evolves_alloc l f0 st st' :
  objs st !! l = None → objs st' = <[l := f0]> (objs st) → evolves st st'.
Proof.
  intros Hn E l' f H. exists f. rewrite E.
  rewrite lookup_insert_ne by congruence. repeat split; [done|lia..].
Qed.

Ltac gentle_update :=
  intros ?; cbn; repeat split; lia.

Ltac evolves_step :=
  first
    [ apply evolves_refl
    | apply evolves_same_objs; reflexivity
    | eapply evolves_alter; [|reflexivity]; gentle_update ].

Lemma add_forwarding_evolves ty cfg st :
  evolves st (add_forwarding ty cfg st).2.
Proof.
  unfold add_forwarding.
  destruct (forwarding_id_of ty cfg) as [i|]; [|apply evolves_refl].
  destruct (forwardings st !! i); [apply evolves_refl|].
  eapply evolves_alloc; [apply new_loc_fresh|reflexivity].
Qed.

Lemma start_listener_evolves host port o l st :
  evolves st (start_listener host port o l st).2.
Proof. destruct o; evolves_step. Qed.

Lemma start_forwarding_evolves e i st :
  evolves st (start_forwarding e i st).2.
Proof.
  unfold start_forwarding.
  destruct (forwardings st !! i) as [l|]; [|apply evolves_refl].
  destruct (objs st !! l) as [f|]; [|apply evolves_refl].
  destruct (f_active f); [apply evolves_refl|].
  unfold _start_local_forwarding, _start_remote_forwarding,
    _start_dynamic_forwarding, _start_internal_forwarding.
  repeat case_match; try apply start_listener_evolves; evolves_step.
Qed.

Lemma stop_forwarding_evolves i st : evolves st (stop_forwarding i st).2.
Proof.
  unfold stop_forwarding. repeat case_match; evolves_step.
Qed.

Lemma remove_forwarding_evolves i st :
  evolves st (remove_forwarding i st).2.
Proof.
  unfold remove_forwarding. cbn.
  eapply evolves_trans; [apply stop_forwarding_evolves|].
  by apply evolves_same_objs.
Qed.

Lemma count_sent_evolves l c data st : evolves st (count_sent l c data st).
Proof. evolves_step. Qed.

Lemma count_received_evolves l c data st :
  evolves st (count_received l c data st).
Proof. evolves_step. Qed.

Lemma pump_iteration_evolves l c r st :
  evolves st (pump_iteration l c r st).2.
Proof.
  unfold pump_iteration.
  destruct (on_socket r) as [|d1 ok1|]; cbn;
    repeat (case_match; cbn);
    try apply evolves_refl;
    try apply count_sent_evolves;
    try apply count_received_evolves;
    (eapply evolves_trans;
       [apply count_sent_evolves|apply count_received_evolves]).
Qed.

Lemma pump_finish_evolves l c st : evolves st (pump_finish l c st).
Proof. evolves_step. Qed.

(** A whole run of the pump thread, whatever it reads and however long it
    lives. *)
Lemma handle_forwarding_evolves l c rounds st :
  evolves st (_handle_forwarding l c rounds st).
Proof.
  revert st. induction rounds as [|r rounds IH]; intros st; cbn.
  - destruct (is_active l st); cbn;
      [apply evolves_refl|apply pump_finish_evolves].
  - destruct (is_active l st); cbn; [|apply pump_finish_evolves].
    destruct (pump_iteration l c r st).1 eqn:Hgo.
    + eapply evolves_trans; [apply pump_iteration_evolves|apply IH].
    + eapply evolves_trans;
        [apply pump_iteration_evolves|apply pump_finish_evolves].
Qed.

Lemma socks_thread_evolves l segments o sock now rounds st :
  evolves st (socks_thread l segments o sock now rounds st).2.
Proof.
  unfold socks_thread.
  destruct o; try apply evolves_refl.
  destruct (last _) as [[]|]; try apply evolves_refl. cbn.
  eapply evolves_trans; [|apply handle_forwarding_evolves].
  by apply evolves_same_objs.
Qed.

Lemma apply_evolves o st : evolves st (apply o st).
Proof.
  destruct o; cbn.
  - apply add_forwarding_evolves.
  - apply start_forwarding_evolves.
  - apply stop_forwarding_evolves.
  - apply remove_forwarding_evolves.
  - evolves_step.
  - apply pump_iteration_evolves.
  - evolves_step.
  - evolves_step.
  - apply socks_thread_evolves.
Qed.

Lemma run_evolves ops st : evolves st (run ops st).
Proof.
  revert st. induction ops as [|o ops IH]; intros st; cbn.
  - apply evolves_refl.
  - eapply evolves_trans; [apply apply_evolves|apply IH].
Qed.

(** C9: from any state on, whatever the manager is asked to do (add, start,
    stop, remove) and whatever its threads do (register connections, pump
    bytes, leave, fail, serve SOCKS clients), the dict a registry id refers
    to stays in the object store and its [bytes_sent] and [bytes_received]
    never decrease; the pump's accounting blocks add exactly the length of
    the chunk, which is not negative. *)
Theorem counters_monotone st ops forwarding_id l f :
  forwardings st !! forwarding_id = Some l →
  objs st !! l = Some f →
  (∃ f', objs (run ops st) !! l = Some f' ∧
         f_bytes_sent f ≤ f_bytes_sent f' ∧
         f_bytes_received f ≤ f_bytes_received f') ∧
  (∀ c data,
     f_bytes_sent <$> objs (count_sent l c data st) !! l
     = Some (f_bytes_sent f + Z.of_nat (length data)) ∧
     f_bytes_received <$> objs (count_received l c data st) !! l
     = Some (f_bytes_received f + Z.of_nat (length data)) ∧
     0 ≤ Z.of_nat (length data)).
Proof.
  intros _ Hf. split.
  - destruct (run_evolves ops st l f Hf) as (f' & Hf' & _ & Hs & Hr).
    by exists f'.
  - intros c data. cbn. rewrite !lookup_alter_eq, Hf. cbn.
    repeat split. lia.
Qed.

(** One connection of a started local rule pumps five bytes each way; the
    rule is then stopped, removed and added again. *)
Lemma counters_monotone_witness :
  ∃ f', objs (run [Pump 0%nat 0%nat
                     {| on_socket := Readable [x68; x65; x6c; x6c; x6f] true;
                        on_channel := Readable [x68; x65; x6c; x6c; x6f] true;
                        channel_closed := false |};
                   Stop "local:127.0.0.1:18000";
                   Remove "local:127.0.0.1:18000";
                   Add "local" Scenarios.local_rule]
                (run [Add "local" Scenarios.local_rule;
                      Start Scenarios.fair_weather "local:127.0.0.1:18000";
                      Register 0%nat Scenarios.a_connection] init))
          !! 0%nat = Some f' ∧
        0 ≤ f_bytes_sent f' ∧ 0 ≤ f_bytes_received f'.
Proof.
  refine (proj1 (counters_monotone
            (run [Add "local" Scenarios.local_rule;
                  Start Scenarios.fair_weather "local:127.0.0.1:18000";
                  Register 0%nat Scenarios.a_connection] init)
            _ "local:127.0.0.1:18000" 0%nat
            (with_connections [0%nat]
               (with_thread 6%nat
                  (with_listener 5%nat 100
                     (new_forwarding_info "local:127.0.0.1:18000" "local"
                        Scenarios.local_rule))))
            _ _)); vm_compute; reflexivity.
Defined.

(** ** Registry ids and the dicts they refer to *)

Lemma registered_init : registered init.
Proof. intros k l H. cbn in H. by rewrite lookup_empty in H. Qed.

Lemma registered_step st st' :
  registered st → evolves st st' →
  (∀ k l, forwardings st' !! k = Some l → forwardings st !! k = Some l) →
  registered st'.
Proof.
  intros Hr He Hsub k l Hk.
  destruct (Hr k l (Hsub k l Hk)) as (f & Hf & Hid).
  destruct (He l f Hf) as (f' & Hf' & Hid' & _).
  exists f'. split; [done|congruence].
Qed.

Lemma add_forwarding_registered ty cfg st :
  registered st → registered (add_forwarding ty cfg st).2.
Proof.
  intros Hr. unfold add_forwarding.
  destruct (forwarding_id_of ty cfg) as [i|]; [|done].
  destruct (forwardings st !! i) eqn:Hi; [done|]. cbn.
  intros k l Hk. cbn in Hk. destruct (decide (i = k)) as [->|Hne].
  - rewrite lookup_insert_eq in Hk. injection Hk as <-.
    eexists. cbn. by rewrite lookup_insert_eq.
  - rewrite lookup_insert_ne in Hk by done.
    destruct (Hr k l Hk) as (f & Hf & Hid). exists f. split; [|done].
    cbn. rewrite lookup_insert_ne; [done|].
    intros <-. by rewrite new_loc_fresh in Hf.
Qed.

Lemma start_listener_forwardings host port o l st :
  forwardings (start_listener host port o l st).2 = forwardings st.
Proof. by destruct o. Qed.

Lemma start_forwarding_forwardings e i st :
  forwardings (start_forwarding e i st).2 = forwardings st.
Proof.
  unfold start_forwarding, _start_local_forwarding, _start_remote_forwarding,
    _start_dynamic_forwarding, _start_internal_forwarding.
  repeat case_match; try apply start_listener_forwardings; reflexivity.
Qed.

Lemma stop_forwarding_forwardings i st :
  forwardings (stop_forwarding i st).2 = forwardings st.
Proof. unfold stop_forwarding. by repeat case_match. Qed.

Lemma pump_iteration_forwardings l c r st :
  forwardings (pump_iteration l c r st).2 = forwardings st.
Proof.
  unfold pump_iteration.
  destruct (on_socket r); cbn; repeat (case_match; cbn); reflexivity.
Qed.

Lemma handle_forwarding_forwardings l c rounds st :
  forwardings (_handle_forwarding l c rounds st) = forwardings st.
Proof.
  revert st. induction rounds as [|r rounds IH]; intros st; cbn.
  - by destruct (is_active l st).
  - destruct (is_active l st); cbn; [|done].
    destruct (pump_iteration l c r st).1 eqn:Hgo; cbn.
    + by rewrite IH, pump_iteration_forwardings.
    + by rewrite pump_iteration_forwardings.
Qed.

Lemma socks_thread_forwardings l segments o sock now rounds st :
  forwardings (socks_thread l segments o sock now rounds st).2
  = forwardings st.
Proof.
  unfold socks_thread. destruct o; try done.
  destruct (last _) as [[]|]; try done. cbn.
  by rewrite handle_forwarding_forwardings.
Qed.

Lemma apply_registered o st : registered st → registered (apply o st).
Proof.
  intros Hr.
  destruct o as [ty cfg|e i|i|i|l conn|l c r|l c|l msg
                |l segments o sock now rounds].
  - by apply add_forwarding_registered.
  - apply (registered_step st); [done|apply (apply_evolves (Start e i))|].
    cbn. by rewrite start_forwarding_forwardings.
  - apply (registered_step st); [done|apply (apply_evolves (Stop i))|].
    cbn. by rewrite stop_forwarding_forwardings.
  - apply (registered_step st); [done|apply (apply_evolves (Remove i))|].
    cbn. intros k l Hk. apply lookup_delete_Some in Hk as [_ Hk].
    by rewrite stop_forwarding_forwardings in Hk.
  - by apply (registered_step st);
      [done|apply (apply_evolves (Register l conn))|].
  - apply (registered_step st); [done|apply (apply_evolves (Pump l c r))|].
    cbn. by rewrite pump_iteration_forwardings.
  - by apply (registered_step st);
      [done|apply (apply_evolves (PumpExit l c))|].
  - by apply (registered_step st);
      [done|apply (apply_evolves (ThreadFailure l msg))|].
  - apply (registered_step st);
      [done|apply (apply_evolves (SocksClient l segments o sock now rounds))|].
    cbn. by rewrite socks_thread_forwardings.
Qed.

Lemma run_registered ops st : registered st → registered (run ops st).
Proof.
  revert st. induction ops as [|o ops IH]; intros st Hr; [done|].
  cbn. by apply IH, apply_registered.
Qed.

(** Listing counts an id as often as it is a key. *)
Lemma listed_under_id st i (L : list (string * loc)) :
  registered st →
  Forall (λ kl, forwardings st !! kl.1 = Some kl.2) L →
  length (filter (λ f, f_id f = i) (omap (λ kl, objs st !! kl.2) L))
  = length (filter (λ kl : string * loc, kl.1 = i) L).
Proof.
  intros Hr. induction 1 as [|[k l] L Hk HL IH]; [done|].
  destruct (Hr k l Hk) as (f & Hf & Hid). cbn in *. rewrite Hf.
  rewrite !filter_cons. cbn. rewrite Hid.
  destruct (decide (k = i)); cbn; by rewrite IH.
Qed.

Lemma filter_none {A} (P : A → Prop) `{∀ x, Decision (P x)} (l : list A) :
  Forall (λ x, ¬ P x) l → filter P l = [].
Proof.
  induction 1 as [|x l Hx _ IH]; [done|].
  rewrite filter_cons. by destruct (decide (P x)).
Qed.

Lemma one_key (i : string) (L : list (string * loc)) :
  NoDup L.*1 → i ∈ L.*1 →
  length (filter (λ kl : string * loc, kl.1 = i) L) = 1%nat.
Proof.
  induction L as [|[k l] L IH]; intros Hnd Hin.
  - by apply elem_of_nil in Hin.
  - rewrite fmap_cons in Hnd, Hin. cbn in Hnd, Hin.
    apply NoDup_cons in Hnd as [Hk Hnd]. rewrite filter_cons. cbn.
    destruct (decide (k = i)) as [->|Hne]; cbn.
    + f_equal. apply length_zero_iff_nil.
      apply filter_none. apply Forall_forall. intros [k' l'] Hin' Heq.
      cbn in Heq. subst. apply Hk. apply list_elem_of_fmap.
      by exists (i, l').
    + apply IH; [done|]. apply elem_of_cons in Hin as [?|?]; congruence.
Qed.

Lemma listed_once st i :
  registered st → is_Some (forwardings st !! i) →
  length (filter (λ f, f_id f = i) (get_all_forwardings st)) = 1%nat.
Proof.
  intros Hr [l Hl]. unfold get_all_forwardings.
  rewrite listed_under_id; [|done|].
  - apply one_key; [apply NoDup_fst_map_to_list|].
    apply list_elem_of_fmap. exists (i, l). split; [done|].
    by apply elem_of_map_to_list.
  - apply Forall_forall. intros [k l'] Hin.
    by apply elem_of_map_to_list in Hin.
Qed.

(** C3: in every state the manager can reach, an [add_forwarding] whose id
    is already registered returns no id and leaves the whole state as it
    was (records, connections, effects), and the list returned by
    [get_all_forwardings] afterwards has exactly one record under that
    id. *)
Theorem duplicate_add_rejected ops forwarding_type cfg forwarding_id :
  forwarding_id_of forwarding_type cfg = Some forwarding_id →
  is_Some (forwardings (run ops init) !! forwarding_id) →
  add_forwarding forwarding_type cfg (run ops init) = (None, run ops init) ∧
  length (filter (λ f, f_id f = forwarding_id)
            (get_all_forwardings
               (add_forwarding forwarding_type cfg (run ops init)).2))
  = 1%nat.
Proof.
  intros Hid [l Hl].
  assert (add_forwarding forwarding_type cfg (run ops init)
          = (None, run ops init)) as E.
  { unfold add_forwarding. by rewrite Hid, Hl. }
  split; [done|]. rewrite E. cbn.
  apply listed_once; [|by exists l].
  apply run_registered, registered_init.
Qed.

(** Scenario 2 of the specification: the same local rule added twice. *)
Lemma duplicate_add_rejected_witness :
  add_forwarding "local" Scenarios.local_rule
    (run [Add "local" Scenarios.local_rule] init)
  = (None, run [Add "local" Scenarios.local_rule] init) ∧
  length (filter (λ f, f_id f = "local:127.0.0.1:18000")
            (get_all_forwardings
               (add_forwarding "local" Scenarios.local_rule
                  (run [Add "local" Scenarios.local_rule] init)).2))
  = 1%nat.
Proof.
  apply (duplicate_add_rejected [Add "local" Scenarios.local_rule]
           "local" Scenarios.local_rule "local:127.0.0.1:18000").
  - reflexivity.
  - vm_compute. eexists. reflexivity.
Defined.

(** ** Start and stop *)

Lemma emitted_app st st' es :
  effects st' = effects st ++ es → emitted st st' = es.
Proof. intros E. unfold emitted. rewrite E. apply drop_app_length. Qed.

Lemma emitted_same st : emitted st st = [].
Proof. apply emitted_app. by rewrite app_nil_r. Qed.

Lemma status_count_here l b :
  status_count l b [EmitForwardingStatus l b] = 1%nat.
Proof.
  unfold status_count. cbn. rewrite Nat.eqb_refl, Bool.eqb_reflx. done.
Qed.

(** What a call of [start_forwarding] on a registered, inactive forwarder
    comes to: on success the dict is active and the last effect is the one
    [True] signal; on failure no status signal is emitted at all. *)
Lemma start_forwarding_inactive e i st l f :
  forwardings st !! i = Some l → objs st !! l = Some f →
  f_active f = false →
  let r := start_forwarding e i st in
  (r.1 = true →
   (∃ f1, objs r.2 !! l = Some f1 ∧ f_active f1 = true) ∧
   ∃ es, effects r.2 = effects st ++ es ++ [EmitForwardingStatus l true] ∧
         status_count l true es = 0%nat) ∧
  (r.1 = false →
   ∃ es, effects r.2 = effects st ++ es ∧ status_count l true es = 0%nat ∧
         status_count l false es = 0%nat).
Proof.
  intros Hi Hl Ha. unfold start_forwarding. rewrite Hi, Hl, Ha.
  unfold _start_local_forwarding, _start_remote_forwarding,
    _start_dynamic_forwarding, _start_internal_forwarding, start_listener.
  repeat case_match; cbn; (split; [intros Hr|intros Hr]); try discriminate;
    try (split;
         [eexists; rewrite lookup_alter_eq, Hl; cbn; split; reflexivity
         |eexists [_]; split; [reflexivity|reflexivity]]);
    try (exists []; by rewrite app_nil_r);
    try (eexists [_]; split; [reflexivity|split; reflexivity]).
Qed.

(** A start that succeeds binds, or asks the server to bind, exactly the
    address that [listen_address] gives for the rule. *)
Lemma start_binds_listen_address e i st l f :
  forwardings st !! i = Some l → objs st !! l = Some f →
  f_active f = false →
  (start_forwarding e i st).1 = true →
  ∃ host port,
    listen_address (f_type f) (f_config f) = Some (Some host, Some port) ∧
    ((∃ sock,
        ListenOn sock host port ∈ emitted st (start_forwarding e i st).2) ∨
     RequestPortForward host port ∈ emitted st (start_forwarding e i st).2).
Proof.
  intros Hi Hl Ha. unfold start_forwarding, listen_address.
  rewrite Hi, Hl, Ha.
  unfold _start_local_forwarding, _start_remote_forwarding,
    _start_dynamic_forwarding, _start_internal_forwarding, start_listener.
  destruct (String.eqb (f_type f) "local");
    [|destruct (String.eqb (f_type f) "remote");
      [|destruct (String.eqb (f_type f) "dynamic");
        [|destruct (String.eqb (f_type f) "internal")]]].
  - destruct (listen_result e); cbn; intros Hr; try discriminate.
    eexists _, _. split; [reflexivity|]. left. exists sock.
    erewrite emitted_app by reflexivity. repeat constructor.
  - destruct (ssh_client (f_config f)); [|discriminate].
    destruct (request_result e); cbn; intros Hr; try discriminate.
    eexists _, _. split; [reflexivity|]. right.
    erewrite emitted_app by reflexivity. repeat constructor.
  - destruct (listen_result e); cbn; intros Hr; try discriminate.
    eexists _, _. split; [reflexivity|]. left. exists sock.
    erewrite emitted_app by reflexivity. repeat constructor.
  - destruct (local_port (f_config f)) as [p|] eqn:Hp;
      [|by rewrite !orb_true_r].
    destruct (_ || _); [discriminate|].
    destruct (listen_result e); cbn; intros Hr; try discriminate.
    eexists _, _. split; [reflexivity|]. left. exists sock.
    erewrite emitted_app by reflexivity. repeat constructor.
  - discriminate.
Qed.

Lemma start_forwarding_active e i st l f :
  forwardings st !! i = Some l → objs st !! l = Some f →
  f_active f = true → start_forwarding e i st = (true, st).
Proof. intros Hi Hl Ha. unfold start_forwarding. by rewrite Hi, Hl, Ha. Qed.

Lemma stop_forwarding_inactive i st l f :
  forwardings st !! i = Some l → objs st !! l = Some f →
  f_active f = false → stop_forwarding i st = (true, st).
Proof. intros Hi Hl Ha. unfold stop_forwarding. by rewrite Hi, Hl, Ha. Qed.

Lemma stop_forwarding_stops i st l f :
  forwardings st !! i = Some l → objs st !! l = Some f →
  (stop_forwarding i st).1 = true ∧
  forwardings (stop_forwarding i st).2 !! i = Some l ∧
  ∃ f', objs (stop_forwarding i st).2 !! l = Some f' ∧ f_active f' = false.
Proof.
  intros Hi Hl. unfold stop_forwarding. rewrite Hi, Hl.
  destruct (f_active f) eqn:Ha; cbn.
  - repeat split; [done|]. eexists. rewrite lookup_alter_eq, Hl. done.
  - repeat split; [done|]. by exists f.
Qed.

(** C8, counterexample: a registered remote rule that was handed over
    without its SSH client is refused by both of two consecutive
    [start_forwarding] calls, whatever the network would answer; the two
    calls end in the state of one call, but the [True] signal is emitted
    zero times, not once. *)
Lemma two_failing_starts_emit_nothing :
  let st := run [Add "remote" Scenarios.remote_rule_no_client] init in
  let st1 :=
    (start_forwarding Scenarios.fair_weather "remote:0.0.0.0:8080" st).2 in
  let st2 :=
    (start_forwarding Scenarios.fair_weather "remote:0.0.0.0:8080" st1).2 in
  forwardings st !! "remote:0.0.0.0:8080" = Some 0%nat ∧
  ¬ (st2 = st1 ∧ status_count 0%nat true (emitted st st2) = 1%nat).
Proof.
  cbv zeta. split; [reflexivity|].
  intros [_ Hc]. vm_compute in Hc. discriminate.
Qed.

(** C8, amended: for a registered forwarder, once a [start_forwarding] call
    has succeeded, the next call (whatever the system would answer) returns
    success and changes and emits nothing; starting from inactive, the two
    calls together emit the [True] signal exactly once; a call that fails
    emits no status signal; [start_forwarding] on an active forwarder and
    [stop_forwarding] on an inactive one return success and leave the state,
    effects included, as it was, and so does a second consecutive
    [stop_forwarding]. *)
Theorem start_stop_idempotent e e' forwarding_id st l f :
  forwardings st !! forwarding_id = Some l →
  objs st !! l = Some f →
  let first := start_forwarding e forwarding_id st in
  let second := start_forwarding e' forwarding_id first.2 in
  (first.1 = true → second = (true, first.2)) ∧
  (f_active f = false → first.1 = true →
   status_count l true (emitted st second.2) = 1%nat) ∧
  (first.1 = false → status_count l true (emitted st first.2) = 0%nat) ∧
  (f_active f = true → first = (true, st)) ∧
  (f_active f = false → stop_forwarding forwarding_id st = (true, st)) ∧
  stop_forwarding forwarding_id (stop_forwarding forwarding_id st).2
  = (true, (stop_forwarding forwarding_id st).2).
Proof.
  intros Hi Hl. cbv zeta.
  assert ((start_forwarding e forwarding_id st).1 = true →
          start_forwarding e' forwarding_id
            (start_forwarding e forwarding_id st).2
          = (true, (start_forwarding e forwarding_id st).2)) as Hsecond.
  { intros Hok. destruct (f_active f) eqn:Ha.
    - rewrite (start_forwarding_active e _ _ _ _ Hi Hl Ha).
      by apply (start_forwarding_active e' _ _ l f).
    - destruct (start_forwarding_inactive e _ _ _ _ Hi Hl Ha) as [Hs _].
      destruct (Hs Hok) as [(f1 & Hf1 & Ha1) _].
      apply (start_forwarding_active e' _ _ l f1); [|done..].
      by rewrite start_forwarding_forwardings. }
  repeat split.
  - done.
  - intros Ha Hok. rewrite (Hsecond Hok). cbn.
    destruct (start_forwarding_inactive e _ _ _ _ Hi Hl Ha) as [Hs _].
    destruct (Hs Hok) as [_ (es & He & Hc)].
    rewrite (emitted_app _ _ _ He). unfold status_count in *.
    rewrite List.filter_app, length_app, Hc.
    apply status_count_here.
  - intros Hfail. destruct (f_active f) eqn:Ha.
    + by rewrite (start_forwarding_active e _ _ _ _ Hi Hl Ha) in Hfail.
    + destruct (start_forwarding_inactive e _ _ _ _ Hi Hl Ha) as [_ Hs].
      destruct (Hs Hfail) as (es & He & Hc & _).
      by rewrite (emitted_app _ _ _ He).
  - intros Ha. by apply (start_forwarding_active e _ _ l f).
  - intros Ha. by apply (stop_forwarding_inactive _ _ l f).
  - destruct (stop_forwarding_stops _ _ _ _ Hi Hl)
      as (_ & Hi' & f' & Hl' & Ha').
    by apply (stop_forwarding_inactive _ _ l f').
Qed.

(** Scenario 1 of the specification, started twice. *)
Lemma start_stop_idempotent_witness :
  let st := run [Add "local" Scenarios.local_rule] init in
  let first :=
    start_forwarding Scenarios.fair_weather "local:127.0.0.1:18000" st in
  let second :=
    start_forwarding Scenarios.port_taken "local:127.0.0.1:18000" first.2 in
  second = (true, first.2) ∧
  status_count 0%nat true (emitted st second.2) = 1%nat.
Proof.
  intros st first second.
  destruct (start_stop_idempotent Scenarios.fair_weather Scenarios.port_taken
              "local:127.0.0.1:18000" st 0%nat
              (new_forwarding_info "local:127.0.0.1:18000" "local"
                 Scenarios.local_rule) eq_refl eq_refl)
    as (H1 & H2 & _).
  split; [apply H1; reflexivity|apply H2; reflexivity].
Defined.

(** [stop_forwarding] closes sockets and channels and emits one signal;
    it never talks to the SSH transport. *)
Lemma stop_forwarding_effects i st l f :
  forwardings st !! i = Some l → objs st !! l = Some f →
  f_active f = true →
  emitted st (stop_forwarding i st).2
  = close_server_socket (f_server_socket f)
    ++ close_connections st (f_connections f)
    ++ [EmitForwardingStatus l false].
Proof.
  intros Hi Hl Ha. unfold stop_forwarding. rewrite Hi, Hl, Ha. cbn.
  by apply emitted_app.
Qed.

Lemma stop_forwarding_never_cancels i st host port :
  CancelPortForward host port ∉ emitted st (stop_forwarding i st).2.
Proof.
  unfold stop_forwarding.
  destruct (forwardings st !! i) as [l|] eqn:Hi;
    [|rewrite emitted_same; apply not_elem_of_nil].
  destruct (objs st !! l) as [f|] eqn:Hl;
    [|rewrite emitted_same; apply not_elem_of_nil].
  destruct (f_active f) eqn:Ha; cbn;
    [|rewrite emitted_same; apply not_elem_of_nil].
  erewrite emitted_app by reflexivity.
  rewrite !elem_of_app. intros [H|[H|H]].
  - destruct (f_server_socket f); cbn in H; [|by apply elem_of_nil in H].
    apply list_elem_of_singleton in H. discriminate.
  - unfold close_connections in H. apply list_elem_of_In, in_flat_map in H.
    destruct H as (c & _ & H). destruct (conns st !! c); cbn in H; [|done].
    destruct H as [H|[H|[]]]; discriminate.
  - apply list_elem_of_singleton in H. discriminate.
Qed.

(** C7, the code at the failing input: stopping a started remote rule with
    one live connection through [PortForwarder.stop_forwarding] closes the
    connection's socket and channel and emits the signal, and never calls
    [cancel_port_forward]; the sibling [SSHManager.stop_forwarding] does
    call it first for the same rule. *)
Theorem remote_stop_skips_cancel :
  let st := Scenarios.remote_rule_in_use in
  is_active 0%nat st = true ∧
  RequestPortForward "0.0.0.0" 8080 ∈ effects st ∧
  (stop_forwarding "remote:0.0.0.0:8080" st).1 = true ∧
  emitted st (stop_forwarding "remote:0.0.0.0:8080" st).2
  = [CloseSocket 11%nat; CloseChannel 12%nat; EmitForwardingStatus 0%nat false]
  ∧
  SSHManager.emitted Scenarios.one_remote_forwarding
    (SSHManager.stop_forwarding true 0%nat Scenarios.one_remote_forwarding)
  = [CancelPortForward "0.0.0.0" 8080; EmitForwardingStatus 0%nat false].
Proof.
  cbv zeta. split; [reflexivity|]. split.
  { vm_compute. repeat constructor. }
  split; [reflexivity|]. split; reflexivity.
Qed.

End PortForwarderFacts.

(** * Properties of the session manager (ssh_manager.py) *)
Section SSHManagerFacts.
Import SSHManager.

Lemma connect_success e host port username password key_path passphrase st :
  connect_succeeds e host port username password key_path passphrase = true →
  connect e host port username password key_path passphrase st
  = (Some (created st),
     emit [EmitConnectionStatus (client_id_of host port username) true]
       (set_clients
          (<[client_id_of host port username := created st]> (clients st))
          (new_client st))).
Proof.
  unfold connect_succeeds, connect. intros H.
  destruct (build_kwargs _ _ _ _ _ _ _) as [kw|]; [|done]. by rewrite H.
Qed.

Lemma connect_failure e host port username password key_path passphrase st :
  connect_succeeds e host port username password key_path passphrase = false →
  connect e host port username password key_path passphrase st
  = (None, new_client st).
Proof.
  unfold connect_succeeds, connect. intros H.
  destruct (build_kwargs _ _ _ _ _ _ _) as [kw|]; [|done]. by rewrite H.
Qed.

Example first_session :
  clients Scenarios.one_session !! "127.0.0.1:2222:t" = Some 0%nat.
Proof. reflexivity. Qed.

(** C2, counterexample: t is connected to 127.0.0.1:2222 as client 0;
    connecting again with the same host, port and user does not fail and
    does not leave the entry alone: it returns the new client 1 and puts it
    in the registry in place of client 0. *)
Lemma connect_replaces_existing :
  let st := Scenarios.one_session in
  let r := connect Scenarios.password_server "127.0.0.1" 2222 "t" "t" "" ""
             st in
  clients st !! "127.0.0.1:2222:t" = Some 0%nat ∧
  ¬ (r.1 = None ∧
     clients r.2 !! "127.0.0.1:2222:t" = clients st !! "127.0.0.1:2222:t").
Proof.
  cbv zeta. split; [reflexivity|].
  intros [H _]. vm_compute in H. discriminate.
Qed.

(** C2, amended: [connect] never looks the identity up. On an identity that
    is already registered, a connection attempt that goes through returns
    the new client, registers it under the identity in place of the old one
    (other identities keep their clients) and emits the status signal; an
    attempt that fails (unreadable key, network, authentication) returns
    [None] and leaves registry and effects as they were. *)
Theorem connect_on_existing_identity e host port username password key_path
    passphrase st old :
  clients st !! client_id_of host port username = Some old →
  let r := connect e host port username password key_path passphrase st in
  (connect_succeeds e host port username password key_path passphrase = true →
   r.1 = Some (created st) ∧
   clients r.2 !! client_id_of host port username = Some (created st) ∧
   (∀ other, other ≠ client_id_of host port username →
      clients r.2 !! other = clients st !! other) ∧
   emitted st r.2
   = [EmitConnectionStatus (client_id_of host port username) true]) ∧
  (connect_succeeds e host port username password key_path passphrase = false →
   r.1 = None ∧ clients r.2 = clients st ∧ effects r.2 = effects st).
Proof.
  intros Hold. cbv zeta. split; intros H.
  - rewrite connect_success by done. cbn. repeat split.
    + by rewrite lookup_insert_eq.
    + intros other Hne. by rewrite lookup_insert_ne.
    + unfold emitted. cbn. apply drop_app_length.
  - by rewrite connect_failure.
Qed.

Lemma connect_on_existing_identity_witness :
  (connect Scenarios.password_server "127.0.0.1" 2222 "t" "t" "" ""
     Scenarios.one_session).1 = Some 1%nat ∧
  clients (connect Scenarios.password_server "127.0.0.1" 2222 "t" "t" "" ""
             Scenarios.one_session).2 !! "127.0.0.1:2222:t" = Some 1%nat.
Proof.
  destruct (connect_on_existing_identity Scenarios.password_server
              "127.0.0.1" 2222 "t" "t" "" "" Scenarios.one_session 0%nat
              eq_refl) as [H _].
  destruct (H eq_refl) as (H1 & H2 & _). split; [exact H1|exact H2].
Defined.

(** What [connect] hands the SSH client, for every call: one of the two
    credentials, never both. When [key_path] is non-empty and the file
    exists, the key is parsed (with the passphrase when one is given) and
    passed alone: the password is not passed, a key file that does not
    parse makes [connect] fail, and [connect] succeeds only if the server
    accepts a key. Otherwise the password is passed when it is non-empty.
    The explicit key is the first credential offered. *)
Theorem connect_credentials e host port username password key_path
    passphrase :
  let key_found := nonempty key_path && path_exists e key_path in
  let parsed :=
    load_key e key_path
      (if nonempty passphrase then Some passphrase else None) in
  let kwargs :=
    build_kwargs e host port username password key_path passphrase in
  (key_found = true →
   ∀ kw, kwargs = Some kw →
     ∃ key, parsed = Some key ∧ pkey kw = Some key ∧
            SSHManager.password kw = None ∧
            offered e kw = PublicKey key :: (PublicKey <$> ambient_keys e)) ∧
  (key_found = true → parsed = None →
   kwargs = None ∧
   ∀ st, (connect e host port username password key_path passphrase st).1
         = None) ∧
  (key_found = true →
   ∀ st client,
     (connect e host port username password key_path passphrase st).1
     = Some client →
     ∃ key, (parsed = Some key ∨ key ∈ ambient_keys e) ∧
            accepts e username (PublicKey key) = true) ∧
  (key_found = false →
   ∃ kw, kwargs = Some kw ∧ pkey kw = None ∧
         SSHManager.password kw
         = (if nonempty password then Some password else None) ∧
         offered e kw
         = (PublicKey <$> ambient_keys e)
           ++ (if nonempty password then [Password password] else [])).
Proof.
  cbv zeta. split; [|split; [|split]].
  - unfold build_kwargs. intros Hk kw. rewrite Hk.
    destruct (load_key _ _ _) as [key|]; [|done].
    intros [= <-]. exists key. unfold offered. cbn.
    by rewrite app_nil_r.
  - unfold build_kwargs. intros Hk Hparse. split; [by rewrite Hk, Hparse|].
    intros st. unfold connect, build_kwargs. by rewrite Hk, Hparse.
  - intros Hk st cl. unfold connect, build_kwargs. rewrite Hk.
    destruct (load_key _ _ _) as [key|]; [|done].
    unfold client_connect, offered. cbn. rewrite app_nil_r.
    destruct (reachable e host port); [|done]. cbn.
    destruct (accepts e username (PublicKey key)) eqn:Hacc; cbn.
    { intros _. exists key. split; [by left|done]. }
    destruct (existsb _ _) eqn:Hex; [|done]. intros _.
    apply existsb_exists in Hex as (cred & Hin & Hacc').
    apply list_elem_of_In, list_elem_of_fmap in Hin as (k & -> & Hk').
    exists k. split; [by right|done].
  - unfold build_kwargs. intros Hk. rewrite Hk. unfold offered.
    destruct (nonempty password); eexists; cbn; repeat split; done.
Qed.

(** C6, the code against the claim: a call of [connect] with a key file
    that exists and parses and with a password, as the "password and key"
    choice of the connection dialog makes it. The [elif] hands the SSH
    client the key alone. So when the server refuses that key, and every
    key the client finds by itself, but accepts the password, [connect]
    fails: password authentication is not attempted after the key has
    failed, although the same call without the key path succeeds. *)
Theorem key_found_blocks_password e host port username password key_path
    passphrase key st :
  nonempty key_path = true → path_exists e key_path = true →
  load_key e key_path (if nonempty passphrase then Some passphrase else None)
  = Some key →
  nonempty password = true →
  reachable e host port = true →
  accepts e username (Password password) = true →
  accepts e username (PublicKey key) = false →
  Forall (λ k, accepts e username (PublicKey k) = false) (ambient_keys e) →
  (∃ kw,
     build_kwargs e host port username password key_path passphrase
     = Some kw ∧
     pkey kw = Some key ∧ SSHManager.password kw = None ∧
     Password password ∉ offered e kw) ∧
  (connect e host port username password key_path passphrase st).1 = None ∧
  (connect e host port username password "" passphrase st).1
  = Some (created st).
Proof.
  intros Hpath Hfile Hkey Hpw Hreach Hpass Hrefused Hambient.
  assert (existsb (accepts e username) (PublicKey <$> ambient_keys e)
          = false) as Hnone.
  { induction Hambient as [|k ks Hk _ IH]; [done|]. cbn. by rewrite Hk. }
  split; [|split].
  - unfold build_kwargs. rewrite Hpath, Hfile, Hkey. cbn.
    eexists. repeat split. unfold offered. cbn.
    rewrite app_nil_r, elem_of_cons, list_elem_of_fmap.
    intros [?|(k & ? & _)]; discriminate.
  - unfold connect, build_kwargs. rewrite Hpath, Hfile, Hkey. cbn.
    unfold client_connect, offered. cbn.
    by rewrite Hreach, Hrefused, app_nil_r, Hnone.
  - unfold connect, build_kwargs. cbn. rewrite Hpw.
    unfold client_connect, offered. cbn.
    by rewrite Hreach, existsb_app, Hnone; cbn; rewrite Hpass.
Qed.

(** The server of the scenarios, which knows the password t and not the
    key in id_rsa. *)
Lemma key_found_blocks_password_witness :
  (connect Scenarios.stale_key_server "127.0.0.1" 2222 "t" "t" "id_rsa" ""
     init).1 = None ∧
  (connect Scenarios.stale_key_server "127.0.0.1" 2222 "t" "t" "" ""
     init).1 = Some 0%nat.
Proof.
  exact (proj2 (key_found_blocks_password Scenarios.stale_key_server
                  "127.0.0.1" 2222 "t" "t" "id_rsa" "" 7%nat init
                  eq_refl eq_refl eq_refl eq_refl eq_refl eq_refl eq_refl
                  (Forall_nil_2 _))).
Defined.

End SSHManagerFacts.

(** * Properties of the SOCKS5 handlers *)
Section SocksFacts.
Import Socks.

Variable format_ipv6 : list byte → string.

Ltac socks_unfold :=
  unfold events_of, run, SSHManager._handle_socks_connection,
    PortForwarder._handle_socks_connection, try_except, bind, recv, sendall,
    close, log, return_, raise, pure, at_, index, open_channel, inet_ntop6,
    inet_ntoa, decode_utf8.

Ltac socks_compute :=
  cbn -[Utf8.decode String.string_of_list_byte].

(** Both handlers read the greeting the same way: version and count, then
    the methods, then they answer "no authentication". *)
Ltac socks_greeting Hn methods :=
  socks_unfold; socks_compute; rewrite Hn;
  destruct methods as [|? ?]; socks_compute;
  rewrite ?firstn_all, ?skipn_all; socks_compute.

Example connect_scenario :
  events_of (PortForwarder._handle_socks_connection (Opened 7%nat))
    [Scenarios.greeting; Scenarios.connect_request]
  = [Sent method_reply; ChannelOpened "127.0.0.1" 19000; Sent reply_success;
     PumpStarted] ∧
  events_of (SSHManager._handle_socks_connection format_ipv6 (Opened 7%nat))
    [Scenarios.greeting; Scenarios.connect_request]
  = [Sent method_reply; ChannelOpened "127.0.0.1" 19000; Sent reply_success;
     PumpStarted].
Proof. split; reflexivity. Qed.

(** C4, the two handlers on a request whose command is not CONNECT, after
    any well-formed greeting: [SSHManager._handle_socks_connection] answers
    05 07 00 01 00 00 00 00 00 00 and closes;
    [PortForwarder._handle_socks_connection] closes without the reply. The
    forwarder is left as it was: such a client changes nothing in the
    manager's state. *)
Theorem unsupported_command_reply o (methods : list byte)
    (n cmd rsv atyp : byte) (rest : list byte) :
  N.to_nat (Byte.to_N n) = length methods →
  Byte.to_N cmd ≠ 1%N →
  let segments := [[x05; n] ++ methods; [x05; cmd; rsv; atyp] ++ rest] in
  events_of (SSHManager._handle_socks_connection format_ipv6 o) segments
  = [Sent method_reply;
     Sent [x05; x07; x00; x01; x00; x00; x00; x00; x00; x00]; Closed] ∧
  events_of (PortForwarder._handle_socks_connection o) segments
  = [Sent method_reply; Closed] ∧
  ∀ l sock now rounds st,
    PortForwarder.socks_thread l segments o sock now rounds st
    = ([Sent method_reply; Closed], st).
Proof.
  intros Hn Hcmd. cbv zeta. apply N.eqb_neq in Hcmd.
  assert (events_of (PortForwarder._handle_socks_connection o)
            [[x05; n] ++ methods; [x05; cmd; rsv; atyp] ++ rest]
          = [Sent method_reply; Closed]) as Hpf.
  { socks_greeting Hn methods; rewrite Hcmd; reflexivity. }
  split; [|split; [exact Hpf|]].
  - socks_greeting Hn methods; rewrite Hcmd; reflexivity.
  - intros l sock now rounds st. unfold PortForwarder.socks_thread.
    rewrite Hpf. by destruct o.
Qed.

(** C5, the two handlers on a CONNECT request, by address type, after any
    well-formed greeting. [SSHManager._handle_socks_connection] reads a
    length byte and that many bytes of UTF-8 host name for type 3, sixteen
    bytes for type 4, four bytes for type 1, opens the channel in each case,
    and answers 05 08 00 01 00 00 00 00 00 00 to any other type.
    [PortForwarder._handle_socks_connection] serves type 1 only: for every
    other type, 3 and 4 included, it closes without reading an address,
    without opening a channel and without a reply. *)
Theorem address_types (methods : list byte) (n rsv : byte) :
  N.to_nat (Byte.to_N n) = length methods →
  let greeting := [x05; n] ++ methods in
  let port_of (hi lo : byte) :=
    Z.shiftl (Z.of_N (Byte.to_N hi)) 8 + Z.of_N (Byte.to_N lo) in
  (∀ chan len name hi lo,
     N.to_nat (Byte.to_N len) = length name →
     is_Some (Utf8.decode name) →
     events_of (SSHManager._handle_socks_connection format_ipv6 (Opened chan))
       [greeting; [x05; x01; rsv; x03; len] ++ name ++ [hi; lo]]
     = [Sent method_reply;
        ChannelOpened (String.string_of_list_byte name) (port_of hi lo);
        Sent reply_success; PumpStarted]) ∧
  (∀ chan addr hi lo,
     length addr = 16%nat →
     events_of (SSHManager._handle_socks_connection format_ipv6 (Opened chan))
       [greeting; [x05; x01; rsv; x04] ++ addr ++ [hi; lo]]
     = [Sent method_reply; ChannelOpened (format_ipv6 addr) (port_of hi lo);
        Sent reply_success; PumpStarted]) ∧
  (∀ chan a b c d hi lo,
     events_of (SSHManager._handle_socks_connection format_ipv6 (Opened chan))
       [greeting; [x05; x01; rsv; x01; a; b; c; d; hi; lo]]
     = [Sent method_reply;
        ChannelOpened
          (dotted a +:+ "." +:+ dotted b +:+ "." +:+ dotted c +:+ "."
             +:+ dotted d) (port_of hi lo);
        Sent reply_success; PumpStarted]) ∧
  (∀ o atyp rest,
     Byte.to_N atyp ≠ 1%N → Byte.to_N atyp ≠ 3%N → Byte.to_N atyp ≠ 4%N →
     events_of (SSHManager._handle_socks_connection format_ipv6 o)
       [greeting; [x05; x01; rsv; atyp] ++ rest]
     = [Sent method_reply;
        Sent [x05; x08; x00; x01; x00; x00; x00; x00; x00; x00]; Closed]) ∧
  (∀ chan a b c d hi lo,
     events_of (PortForwarder._handle_socks_connection (Opened chan))
       [greeting; [x05; x01; rsv; x01; a; b; c; d; hi; lo]]
     = [Sent method_reply;
        ChannelOpened
          (dotted a +:+ "." +:+ dotted b +:+ "." +:+ dotted c +:+ "."
             +:+ dotted d)
          (Z.of_N (Byte.to_N hi * 256 + Byte.to_N lo));
        Sent reply_success; PumpStarted]) ∧
  (∀ o atyp rest,
     Byte.to_N atyp ≠ 1%N →
     events_of (PortForwarder._handle_socks_connection o)
       [greeting; [x05; x01; rsv; atyp] ++ rest]
     = [Sent method_reply; Closed]).
Proof.
  intros Hn. cbv zeta. repeat split.
  - intros chan len name hi lo Hlen [s Hs].
    socks_greeting Hn methods; rewrite drop_0;
      (destruct (name ++ [hi; lo]) as [|b0 l0] eqn:E; [by destruct name|]);
      rewrite <- E, Hlen, take_app_length, drop_app_length;
      socks_compute; rewrite Hs; reflexivity.
  - intros chan addr hi lo Hlen.
    do 17 (destruct addr as [|? addr]; try discriminate Hlen).
    socks_greeting Hn methods; reflexivity.
  - intros chan a b c d hi lo.
    socks_greeting Hn methods; reflexivity.
  - intros o atyp rest H1 H3 H4. apply N.eqb_neq in H1, H3, H4.
    socks_greeting Hn methods; rewrite H1, H3, H4; reflexivity.
  - intros chan a b c d hi lo.
    socks_greeting Hn methods; reflexivity.
  - intros o atyp rest H1. apply N.eqb_neq in H1.
    socks_greeting Hn methods; rewrite H1; reflexivity.
Qed.

End SocksFacts.

(** Scenario 5 of the specification (BIND after the greeting 05 01 00),
    against both handlers. *)
Lemma unsupported_command_reply_witness :
  Socks.events_of
    (SSHManager._handle_socks_connection Scenarios.any_ipv6_format
       (Socks.Opened 7%nat))
    [Scenarios.greeting; Scenarios.bind_request]
  = [Socks.Sent Socks.method_reply;
     Socks.Sent [x05; x07; x00; x01; x00; x00; x00; x00; x00; x00];
     Socks.Closed] ∧
  Socks.events_of (PortForwarder._handle_socks_connection (Socks.Opened 7%nat))
    [Scenarios.greeting; Scenarios.bind_request]
  = [Socks.Sent Socks.method_reply; Socks.Closed].
Proof.
  destruct (unsupported_command_reply Scenarios.any_ipv6_format
              (Socks.Opened 7%nat) [x00] x01 x02 x00 x01
              [x7f; x00; x00; x01; x4a; x38]) as (Hssh & Hpf & _).
  - reflexivity.
  - discriminate.
  - split; [exact Hssh|exact Hpf].
Defined.

(** A CONNECT to the host name a.b, port 80, against both handlers. *)
Lemma address_types_witness :
  Socks.events_of
    (SSHManager._handle_socks_connection Scenarios.any_ipv6_format
       (Socks.Opened 7%nat))
    [Scenarios.greeting; Scenarios.domain_request]
  = [Socks.Sent Socks.method_reply; Socks.ChannelOpened "a.b" 80;
     Socks.Sent Socks.reply_success; Socks.PumpStarted] ∧
  Socks.events_of (PortForwarder._handle_socks_connection (Socks.Opened 7%nat))
    [Scenarios.greeting; Scenarios.domain_request]
  = [Socks.Sent Socks.method_reply; Socks.Closed].
Proof.
  destruct (address_types Scenarios.any_ipv6_format [x00] x01 x00 eq_refl)
    as (Hdomain & _ & _ & _ & _ & Hpf).
  split.
  - apply (Hdomain 7%nat x03 [x61; x2e; x62] x00 x50 eq_refl).
    vm_compute. eexists. reflexivity.
  - apply (Hpf (Socks.Opened 7%nat) x03 [x03; x61; x2e; x62; x00; x50]).
    discriminate.
Defined.

(** * Properties of the codecs and of the encryption envelope *)

Ltac Zify.zify_post_hook ::= Z.div_mod_to_equations.

Section CodecFacts.

Lemma to_N_byte_of (n : N) : (n < 256)%N → Byte.to_N (Utf8.byte_of n) = n.
Proof.
  intros H. unfold Utf8.byte_of.
  destruct (Byte.of_N n) as [b|] eqn:E.
  - by apply Byte.to_of_N.
  - apply Byte.of_N_None_iff in E. lia.
Qed.

Lemma byte_of_to_N (b : byte) : Utf8.byte_of (Byte.to_N b) = b.
Proof. unfold Utf8.byte_of. by rewrite Byte.of_to_N. Qed.

Lemma to_N_below (b : byte) : (Byte.to_N b < 256)%N.
Proof. pose proof (Byte.to_N_bounded b). lia. Qed.

Ltac decide_tests :=
  repeat match goal with
  | |- context [(?a <? ?b)%N] =>
    destruct (N.ltb_spec a b); [try lia|try lia]
  | |- context [(?a <=? ?b)%N] =>
    destruct (N.leb_spec a b); [try lia|try lia]
  end.

(** ** UTF-8 *)

Lemma continuation_byte_of (r : N) :
  (r < 64)%N → Utf8.continuation (Utf8.byte_of (0x80 + r)) = Some r.
Proof.
  intros H. unfold Utf8.continuation. rewrite to_N_byte_of by lia.
  decide_tests. cbn. f_equal. lia.
Qed.

Lemma decode_encode_point c bs rest :
  Utf8.encode_point c = Some bs →
  Utf8.decode (bs ++ rest) = cons c <$> Utf8.decode rest.
Proof.
  unfold Utf8.encode_point, Utf8.is_surrogate.
  repeat case_match; intros [= <-]; cbn [app Utf8.decode];
    rewrite to_N_byte_of by lia; rewrite ?continuation_byte_of by lia;
    cbv zeta; unfold Utf8.is_surrogate; decide_tests; cbn [orb andb];
    do 2 f_equal; lia.
Qed.

Lemma decode_encode s bs : Utf8.encode s = Some bs → Utf8.decode bs = Some s.
Proof.
  revert bs. induction s as [|c s IH]; intros bs; cbn.
  - by intros [= <-].
  - destruct (Utf8.encode_point c) as [b1|] eqn:E1; [|done].
    destruct (Utf8.encode s) as [b2|] eqn:E2; [|done].
    intros [= <-].
    by rewrite (decode_encode_point _ _ _ E1), (IH _ eq_refl).
Qed.

Lemma encode_encodable s : Utf8.encodable s → is_Some (Utf8.encode s).
Proof.
  induction 1 as [|c s [Hc Hs] _ [bs IH]]; cbn; [by eexists|].
  rewrite IH. unfold Utf8.encode_point. rewrite Hs.
  repeat case_match; try by eexists. lia.
Qed.

Lemma encode_point_nonempty c bs : Utf8.encode_point c = Some bs → bs ≠ [].
Proof.
  unfold Utf8.encode_point. repeat case_match; intros [= <-]; discriminate.
Qed.

Lemma encode_nonempty c s bs : Utf8.encode (c :: s) = Some bs → bs ≠ [].
Proof.
  cbn. destruct (Utf8.encode_point c) as [b1|] eqn:E1; [|done].
  destruct (Utf8.encode s) as [b2|]; [|done]. intros [= <-].
  apply encode_point_nonempty in E1. by destruct b1.
Qed.

Lemma decode_ascii bs :
  Forall (λ b, (Byte.to_N b < 128)%N) bs →
  Utf8.decode bs = Some (Byte.to_N <$> bs).
Proof.
  induction 1 as [|b bs Hb _ IH]; [done|].
  cbn [Utf8.decode]. decide_tests. by rewrite IH.
Qed.

(** ** Base64 *)

Import Base64.

Lemma all_below_spec k P n :
  all_below k P = true → (n < N.of_nat k)%N → P n = true.
Proof.
  unfold all_below. rewrite forallb_forall. intros H Hn. apply H.
  apply in_map_iff. exists (N.to_nat n). split; [lia|]. apply in_seq. lia.
Qed.

Lemma sextets_ok : all_below 64 sextet_ok = true.
Proof. vm_compute. reflexivity. Qed.

Lemma heads_ok : all_below 256 (λ a, all_below 256 (head_ok a)) = true.
Proof. vm_compute. reflexivity. Qed.

Lemma tails_ok : all_below 256 (λ b, all_below 256 (tail_ok b)) = true.
Proof. vm_compute. reflexivity. Qed.

Lemma alphabet_value_char v :
  (v < 64)%N →
  alphabet_value (alphabet_char v) = Some v ∧
  Byte.eqb (alphabet_char v) pad = false ∧
  (Byte.to_N (alphabet_char v) < 128)%N.
Proof.
  intros Hv. pose proof (all_below_spec _ _ v sextets_ok Hv) as H.
  unfold sextet_ok in H.
  destruct (alphabet_value (alphabet_char v)) as [v'|]; [|done].
  destruct (Byte.eqb (alphabet_char v) pad); [by rewrite andb_false_r in H|].
  cbn in H. repeat split; [f_equal|]; lia.
Qed.

Lemma head_facts (a b : byte) : head_ok (Byte.to_N a) (Byte.to_N b) = true.
Proof.
  apply (all_below_spec 256); [|apply to_N_below].
  apply (all_below_spec 256 _ _ heads_ok), to_N_below.
Qed.

Lemma tail_facts (b c : byte) : tail_ok (Byte.to_N b) (Byte.to_N c) = true.
Proof.
  apply (all_below_spec 256); [|apply to_N_below].
  apply (all_below_spec 256 _ _ tails_ok), to_N_below.
Qed.

Ltac bool_facts H :=
  cbv zeta in H;
  repeat (let H' := fresh "F" in apply andb_prop in H as [H H']);
  repeat match goal with
  | F : (_ <? _)%N = true |- _ => apply N.ltb_lt in F
  | F : (_ =? _)%N = true |- _ => apply N.eqb_eq in F
  end.

Ltac use_facts :=
  unfold byte_of;
  repeat match goal with
  | F : @eq N ?l _ |- context [?l] => rewrite F
  | |- context [Utf8.byte_of (Byte.to_N ?b)] => rewrite (byte_of_to_N b)
  end.

(** Lists three elements at a time, the way [b64encode] reads them. *)
Lemma list_ind3 {A} (P : list A → Prop) :
  P [] → (∀ a, P [a]) → (∀ a b, P [a; b]) →
  (∀ a b c rest, P rest → P (a :: b :: c :: rest)) →
  ∀ l, P l.
Proof.
  intros H0 H1 H2 H3. fix IH 1.
  intros [|a [|b [|c rest]]]; [done|done|done|]. apply H3, IH.
Qed.

Lemma a2b_char v rest d :
  (v < 64)%N →
  a2b_base64 (alphabet_char v :: rest) d = a2b_base64 rest (feed v d).
Proof.
  intros Hv. destruct (alphabet_value_char v Hv) as (Hval & Hpad & _).
  cbn [a2b_base64]. by rewrite Hpad, Hval.
Qed.

(** The lenient decoder reads back what [b64encode] wrote, from any state
    that stands between two groups. *)
Lemma a2b_b64encode data :
  ∀ d, quad_pos d = 0%N →
       a2b_base64 (b64encode data) d = Some (output d ++ data).
Proof.
  induction data as [|a|a b|a b c rest IH] using list_ind3; intros d Hq.
  - cbn. rewrite Hq. cbn. by rewrite app_nil_r.
  - pose proof (head_facts a x00) as H. unfold head_ok in H. bool_facts H.
    cbn [b64encode]. rewrite !a2b_char by done.
    unfold feed. rewrite Hq. cbn. use_facts. done.
  - pose proof (head_facts a b) as H. unfold head_ok in H. bool_facts H.
    pose proof (tail_facts b x00) as H'. unfold tail_ok in H'. bool_facts H'.
    cbn [b64encode]. rewrite !a2b_char by done.
    unfold feed. rewrite Hq. cbn. use_facts. by rewrite <- app_assoc.
  - pose proof (head_facts a b) as H. unfold head_ok in H. bool_facts H.
    pose proof (tail_facts b c) as H'. unfold tail_ok in H'. bool_facts H'.
    cbn [b64encode app]. rewrite !a2b_char by done.
    rewrite IH.
    + unfold feed. rewrite Hq. cbn. use_facts. by rewrite <- !app_assoc.
    + unfold feed. by rewrite Hq.
Qed.

Lemma b64encode_ascii data :
  Forall (λ b, (Byte.to_N b < 128)%N) (b64encode data).
Proof.
  induction data as [|a|a b|a b c rest IH] using list_ind3.
  - constructor.
  - pose proof (head_facts a x00) as H. unfold head_ok in H. bool_facts H.
    cbn [b64encode].
    repeat constructor; try (by apply alphabet_value_char); by vm_compute.
  - pose proof (head_facts a b) as H. unfold head_ok in H. bool_facts H.
    pose proof (tail_facts b x00) as H'. unfold tail_ok in H'. bool_facts H'.
    cbn [b64encode].
    repeat constructor; try (by apply alphabet_value_char); by vm_compute.
  - pose proof (head_facts a b) as H. unfold head_ok in H. bool_facts H.
    pose proof (tail_facts b c) as H'. unfold tail_ok in H'. bool_facts H'.
    cbn [b64encode app].
    repeat (constructor; [by apply alphabet_value_char|]). done.
Qed.

Lemma b64encode_nonempty data : data ≠ [] → b64encode data ≠ [].
Proof. by destruct data as [|a [|b [|c rest]]]. Qed.

Lemma ascii_bytes_to_N bs :
  Forall (λ b, (Byte.to_N b < 128)%N) bs →
  ascii_bytes (Byte.to_N <$> bs) = Some bs.
Proof.
  induction 1 as [|b bs Hb _ IH]; [done|].
  cbn. decide_tests. unfold byte_of. by rewrite IH, byte_of_to_N.
Qed.

(** [b64decode(b64encode(data).decode("utf-8"))] is [data]. *)
Lemma b64decode_b64encode data :
  ∃ c, Utf8.decode (b64encode data) = Some c ∧
       b64decode c = Some data ∧ (c = [] ↔ data = []).
Proof.
  exists (Byte.to_N <$> b64encode data). split; [|split].
  - apply decode_ascii, b64encode_ascii.
  - unfold b64decode. rewrite ascii_bytes_to_N by apply b64encode_ascii.
    by rewrite a2b_b64encode.
  - split.
    + intros E. apply fmap_nil_inv in E.
      destruct data; [done|]. by apply b64encode_nonempty in E.
    + by intros ->.
Qed.

(** ** The envelope *)

Import Encryption.
Context `{F : Fernet}.

(** Whenever [encrypt_to_string] returns, [decrypt_from_string] gives the
    string back. *)
Lemma decrypt_encrypted key r s c :
  encrypt_to_string s key r = Some c → decrypt_from_string c key = s.
Proof.
  unfold encrypt_to_string, encrypt.
  destruct s as [|p s]; [by intros [= <-]|].
  destruct (Utf8.encode (p :: s)) as [bs|] eqn:Hbs; [|done]. cbn.
  pose proof (fernet_token_nonempty key r bs) as Htoken.
  destruct (fernet_encrypt key r bs) as [|t token] eqn:Het; [done|].
  destruct (b64decode_b64encode (t :: token)) as (c' & Hc' & Hd & Hne).
  rewrite Hc'. intros [= <-].
  unfold decrypt_from_string.
  destruct c' as [|q c'];
    [by destruct Hne as [Hne _]; specialize (Hne eq_refl)|].
  rewrite Hd. unfold decrypt. rewrite <- Het, fernet_decrypt_encrypt.
  by rewrite (decode_encode _ _ Hbs).
Qed.

Lemma encode_surrogate s :
  Exists (λ c, Utf8.is_surrogate c = true) s → Utf8.encode s = None.
Proof.
  induction 1 as [c s Hc|c s _ IH]; cbn.
  - assert (Utf8.encode_point c = None) as ->; [|done].
    unfold Utf8.encode_point. rewrite Hc. unfold Utf8.is_surrogate in Hc.
    decide_tests; done.
  - rewrite IH. by destruct (Utf8.encode_point c).
Qed.

(** C10, amended: for every Fernet key, every nonce and every string that
    UTF-8 can encode (no lone surrogate), [encrypt_to_string] returns a
    string from which [decrypt_from_string] gives the original back; the
    empty string is sent to the empty string and back by the empty-input
    branches, and only the empty string is. On a string with a lone
    surrogate [encrypt_to_string] raises. *)
Theorem envelope_round_trip key r s :
  (Utf8.encodable s →
   ∃ c, encrypt_to_string s key r = Some c ∧
        decrypt_from_string c key = s ∧
        (c = [] ↔ s = [])) ∧
  (Exists (λ c, Utf8.is_surrogate c = true) s →
   encrypt_to_string s key r = None) ∧
  encrypt_to_string [] key r = Some [] ∧
  decrypt_from_string [] key = [].
Proof.
  split; [|split; [|done]].
  - intros Hs. destruct (encode_encodable s Hs) as [bs Hbs].
    assert (∃ c, encrypt_to_string s key r = Some c ∧ (c = [] ↔ s = []))
      as (c & Hc & Hne).
    { unfold encrypt_to_string, encrypt.
      destruct s as [|p s]; [by exists []|].
      rewrite Hbs. cbn.
      pose proof (fernet_token_nonempty key r bs) as Htoken.
      destruct (fernet_encrypt key r bs) as [|t token]; [done|].
      destruct (b64decode_b64encode (t :: token)) as (c & Hc & _ & Hne).
      exists c. split; [done|]. split; [|done].
      intros E. by apply Hne in E. }
    exists c. split; [done|]. split; [|done].
    by apply (decrypt_encrypted key r).
  - intros Hs. unfold encrypt_to_string, encrypt.
    rewrite (encode_surrogate s Hs).
    destruct s; [by apply Exists_nil in Hs|done].
Qed.

End CodecFacts.

(** The password p中w (with a CJK character) through the envelope. *)
Lemma envelope_round_trip_witness :
  ∃ c, Encryption.encrypt_to_string (F := Encryption.reversing_fernet)
         [0x70; 0x4E2D; 0x77]%N tt x11 = Some c ∧
       Encryption.decrypt_from_string (F := Encryption.reversing_fernet)
         c tt = [0x70; 0x4E2D; 0x77]%N.
Proof.
  destruct (envelope_round_trip (F := Encryption.reversing_fernet) tt x11
              [0x70; 0x4E2D; 0x77]%N) as [H _].
  destruct H as (c & Hc & Hd & _).
  - repeat constructor.
  - exists c. split; [exact Hc|exact Hd].
Defined.

(** A string with a lone surrogate never leaves [encrypt_to_string]:
    [data.encode("utf-8")] raises, whatever the cipher. *)
Lemma lone_surrogate_not_encrypted `{F : Encryption.Fernet} key r :
  Encryption.encrypt_to_string [0xD800%N] key r = None.
Proof. reflexivity. Qed.

(** C10, counterexample: the one-character string U+D800 is a Python
    string, and the envelope does not round-trip it: [encrypt_to_string]
    raises UnicodeEncodeError instead of returning a string that decrypts
    to it. *)
Lemma lone_surrogate_does_not_round_trip :
  ¬ ∃ c,
      Encryption.encrypt_to_string (F := Encryption.reversing_fernet)
        [0xD800%N] tt x11 = Some c ∧
      Encryption.decrypt_from_string (F := Encryption.reversing_fernet) c tt
      = [0xD800%N].
Proof. intros (c & Hc & _). discriminate Hc. Qed.

(** * More of the forwarder registry (port_forwarder.py) *)
Section RegistryFacts.
Import PortForwarder.

(** In a registry whose ids refer to dicts carrying them, the listing shows
    the ids of the registry, in the registry's order. *)
Lemma listed_ids st :
  registered st →
  f_id <$> get_all_forwardings st = (map_to_list (forwardings st)).*1.
Proof.
  intros Hreg. unfold get_all_forwardings.
  assert (Forall (λ kl, forwardings st !! kl.1 = Some kl.2)
            (map_to_list (forwardings st))) as Hall.
  { apply Forall_forall. intros [k l] Hin. by apply elem_of_map_to_list. }
  induction Hall as [|[k l] L Hkl _ IH]; [done|].
  cbn in *. destruct (Hreg k l Hkl) as (f & -> & <-). cbn. by rewrite IH.
Qed.

(** X1, [get_all_forwardings] after any sequence of calls and thread steps
    on a fresh manager: the list names every registered id once, names no
    other id, and is as long as the registry is large. *)
Theorem listing_matches_registry ops :
  let st := run ops init in
  NoDup (f_id <$> get_all_forwardings st) ∧
  (∀ i, i ∈ f_id <$> get_all_forwardings st ↔ is_Some (forwardings st !! i)) ∧
  length (get_all_forwardings st) = size (forwardings st).
Proof.
  cbv zeta. pose proof (run_registered ops init registered_init) as Hreg.
  pose proof (listed_ids _ Hreg) as Hids. split; [|split].
  - rewrite Hids. apply NoDup_fst_map_to_list.
  - intros i. rewrite Hids, list_elem_of_fmap. split.
    + intros ([k l] & -> & Hin). apply elem_of_map_to_list in Hin. by exists l.
    + intros [l Hl]. exists (i, l). split; [done|].
      by apply elem_of_map_to_list.
  - rewrite <- (length_fmap f_id), Hids, length_fmap.
    apply length_map_to_list.
Qed.

Lemma stop_forwarding_object i st l f :
  forwardings st !! i = Some l → objs st !! l = Some f →
  objs (stop_forwarding i st).2 !! l
  = Some (if f_active f then with_connections [] (with_active false f)
          else f).
Proof.
  intros Hi Hl. unfold stop_forwarding. rewrite Hi, Hl.
  destruct (f_active f); cbn; [|done].
  by rewrite lookup_alter_eq, Hl.
Qed.

(** X2, [remove_forwarding] on any id, registered or not: it answers True;
    the id is gone from the registry and nothing else is; no status can be
    asked for the id any more; what happens to the dict and to the outside
    is what [stop_forwarding] does, so the dict itself stays (its threads
    hold it), stopped, under its id; and the listing no longer shows it. *)
Theorem remove_forwarding_unregisters now i st :
  let r := remove_forwarding i st in
  r.1 = true ∧
  forwardings r.2 = delete i (forwardings st) ∧
  get_forwarding_status now i r.2 = None ∧
  objs r.2 = objs (stop_forwarding i st).2 ∧
  effects r.2 = effects (stop_forwarding i st).2 ∧
  (∀ l f, forwardings st !! i = Some l → objs st !! l = Some f →
     ∃ f', objs r.2 !! l = Some f' ∧ f_id f' = f_id f ∧ f_active f' = false) ∧
  (registered st →
   registered r.2 ∧ i ∉ f_id <$> get_all_forwardings r.2).
Proof.
  cbv zeta. unfold remove_forwarding. cbn.
  rewrite stop_forwarding_forwardings.
  split; [done|]. split; [done|]. split.
  { unfold get_forwarding_status. cbn. by rewrite lookup_delete_eq. }
  split; [done|]. split; [done|]. split.
  - intros l f Hi Hl. rewrite (stop_forwarding_object i st l f Hi Hl).
    destruct (f_active f) eqn:Ha; eexists; (split; [done|]); by cbn.
  - intros Hreg.
    assert (registered
              (set_forwardings (delete i (forwardings st))
                 (stop_forwarding i st).2)) as Hreg'.
    { apply (registered_step st); [done| |].
      - intros l f Hl.
        destruct (stop_forwarding_evolves i st l f Hl)
          as (f' & ? & ? & ? & ?).
        by exists f'.
      - intros k l. cbn. intros Hk.
        by apply lookup_delete_Some in Hk as [_ ?]. }
    split; [done|]. rewrite (listed_ids _ Hreg'). cbn.
    rewrite list_elem_of_fmap. intros ([k l] & -> & Hin).
    apply elem_of_map_to_list in Hin. cbn in Hin.
    by rewrite lookup_delete_eq in Hin.
Qed.

(** X3, removing a rule and adding it again: the add is accepted under the
    same id, and the id then refers to a new dict (at a location no dict
    had before), inactive, with no connection, no error and both counters
    at zero. The counters of the removed dict are not carried over. *)
Theorem remove_then_add_is_fresh ty cfg i st :
  forwarding_id_of ty cfg = Some i →
  let r := add_forwarding ty cfg (remove_forwarding i st).2 in
  r.1 = Some i ∧
  ∃ l, forwardings r.2 !! i = Some l ∧
       objs st !! l = None ∧
       objs r.2 !! l = Some (new_forwarding_info i ty cfg) ∧
       ∀ now, get_forwarding_status now i r.2
              = Some {| s_id := i; s_type := ty; s_active := false;
                        s_connections := 0; s_bytes_sent := 0;
                        s_bytes_received := 0; s_uptime := 0;
                        s_error := None |}.
Proof.
  intros Hid. cbv zeta. unfold add_forwarding. rewrite Hid.
  unfold remove_forwarding. cbn [snd forwardings set_forwardings].
  rewrite lookup_delete_eq. cbn.
  split; [done|]. exists (new_loc (objs (stop_forwarding i st).2)).
  rewrite lookup_insert_eq. split; [done|]. split.
  { destruct (objs st !! new_loc _) as [f|] eqn:Hf; [|done].
    destruct (stop_forwarding_evolves i st _ f Hf) as (f' & Hf' & _).
    by rewrite new_loc_fresh in Hf'. }
  rewrite lookup_insert_eq. split; [done|].
  intros now. unfold get_forwarding_status. cbn.
  by rewrite !lookup_insert_eq.
Qed.

(** X4, [get_forwarding_status] after [stop_forwarding] on a registered
    rule: the rule is reported inactive with uptime 0; its id, type, error
    and both byte counters are what they were before the stop; and no
    connection is counted if the rule was running (a rule that was already
    stopped keeps the list it had). *)
Theorem status_after_stop now i st l f :
  forwardings st !! i = Some l → objs st !! l = Some f →
  get_forwarding_status now i (stop_forwarding i st).2
  = Some {| s_id := f_id f; s_type := f_type f; s_active := false;
            s_connections :=
              if f_active f then 0%nat else length (f_connections f);
            s_bytes_sent := f_bytes_sent f;
            s_bytes_received := f_bytes_received f;
            s_uptime := 0; s_error := f_error f |}.
Proof.
  intros Hi Hl. unfold get_forwarding_status.
  rewrite stop_forwarding_forwardings, Hi,
    (stop_forwarding_object i st l f Hi Hl).
  destruct (f_active f) eqn:Ha; cbn; [done|]. by rewrite Ha.
Qed.

End RegistryFacts.

(** The internal rule of the scenarios, added, removed and added again. *)
Lemma remove_then_add_is_fresh_witness :
  (PortForwarder.add_forwarding "internal" Scenarios.internal_rule
     (PortForwarder.remove_forwarding "internal:10.0.0.5:80"
        (PortForwarder.run
           [PortForwarder.Add "internal" Scenarios.internal_rule;
            PortForwarder.Start Scenarios.fair_weather
              "internal:10.0.0.5:80"]
           PortForwarder.init)).2).1
  = Some "internal:10.0.0.5:80".
Proof.
  exact (proj1 (remove_then_add_is_fresh "internal" Scenarios.internal_rule
                  "internal:10.0.0.5:80" _ eq_refl)).
Defined.

(** The local rule in use, five bytes pumped each way, then stopped at
    time 160. *)
Lemma status_after_stop_witness :
  PortForwarder.get_forwarding_status 160 "local:127.0.0.1:18000"
    (PortForwarder.stop_forwarding "local:127.0.0.1:18000"
       (PortForwarder.run
          [PortForwarder.Pump 0%nat 0%nat Scenarios.hello_round]
          Scenarios.local_rule_in_use)).2
  = Some {| PortForwarder.s_id := "local:127.0.0.1:18000";
            PortForwarder.s_type := "local";
            PortForwarder.s_active := false;
            PortForwarder.s_connections := 0;
            PortForwarder.s_bytes_sent := 5;
            PortForwarder.s_bytes_received := 5;
            PortForwarder.s_uptime := 0;
            PortForwarder.s_error := None |}.
Proof.
  exact (status_after_stop 160 "local:127.0.0.1:18000"
           (PortForwarder.run
              [PortForwarder.Pump 0%nat 0%nat Scenarios.hello_round]
              Scenarios.local_rule_in_use)
           0%nat
           (PortForwarder.with_counters 5 5 Scenarios.local_rule_dict)
           eq_refl eq_refl).
Defined.

(** * The byte counters and the traffic signals *)
Section AccountingFacts.
Import PortForwarder.

Lemma traffic_app l es1 es2 :
  traffic_sent l (es1 ++ es2) = traffic_sent l es1 + traffic_sent l es2 ∧
  traffic_received l (es1 ++ es2)
  = traffic_received l es1 + traffic_received l es2.
Proof.
  induction es1 as [|e es1 [IHs IHr]]; [done|].
  unfold traffic_sent, traffic_received in *. cbn.
  destruct e; try done. case_match; lia.
Qed.

Lemma traffic_quiet l es :
  forallb (λ e, negb (is_traffic e)) es = true →
  traffic_sent l es = 0 ∧ traffic_received l es = 0.
Proof.
  induction es as [|e es IH]; [done|]. cbn.
  intros [He Hes]%andb_true_iff. destruct (IH Hes) as [IHs IHr].
  unfold traffic_sent, traffic_received in *. cbn.
  by destruct e.
Qed.

Lemma close_connections_quiet st cs :
  forallb (λ e, negb (is_traffic e)) (close_connections st cs) = true.
Proof.
  induction cs as [|c cs IH]; [done|]. unfold close_connections in *. cbn.
  rewrite forallb_app, IH. by destruct (conns st !! c).
Qed.

Lemma accounted_refl l st : accounted l st st.
Proof.
  intros f Hf. exists [], f. rewrite app_nil_r. cbn.
  repeat split; [done|lia..].
Qed.

Lemma accounted_trans l st1 st2 st3 :
  accounted l st1 st2 → accounted l st2 st3 → accounted l st1 st3.
Proof.
  intros H12 H23 f Hf.
  destruct (H12 f Hf) as (es & f2 & He & Hf2 & Hs & Hr).
  destruct (H23 f2 Hf2) as (es' & f3 & He' & Hf3 & Hs' & Hr').
  exists (es ++ es'), f3. destruct (traffic_app l es es') as [-> ->].
  rewrite He', He, app_assoc. repeat split; [done|lia..].
Qed.

(** A step that alters the dict at [l0] and adds the effects [es]. *)
Lemma accounted_update g l0 es l st st' :
  objs st' = alter g l0 (objs st) → effects st' = effects st ++ es →
  (l0 = l → ∀ f,
     f_bytes_sent (g f) = f_bytes_sent f + traffic_sent l es ∧
     f_bytes_received (g f) = f_bytes_received f + traffic_received l es) →
  (l0 ≠ l → traffic_sent l es = 0 ∧ traffic_received l es = 0) →
  accounted l st st'.
Proof.
  intros Ho He Hsame Hother f Hf. rewrite Ho, He.
  destruct (decide (l0 = l)) as [->|Hne].
  - exists es, (g f). rewrite lookup_alter_eq, Hf.
    destruct (Hsame eq_refl f). done.
  - exists es, f. rewrite lookup_alter_ne by done.
    destruct (Hother Hne) as [-> ->]. repeat split; [done|lia..].
Qed.

Lemma accounted_quiet l st st' :
  objs st' = objs st → effects st' = effects st → accounted l st st'.
Proof.
  intros Ho He f Hf. exists [], f. rewrite Ho, He, app_nil_r. cbn.
  repeat split; [done|lia..].
Qed.

Lemma add_forwarding_accounted l ty cfg st :
  accounted l st (add_forwarding ty cfg st).2.
Proof.
  unfold add_forwarding.
  destruct (forwarding_id_of ty cfg) as [i|]; [|apply accounted_refl].
  destruct (forwardings st !! i); [apply accounted_refl|].
  intros f Hf. exists [], f. cbn. rewrite app_nil_r.
  rewrite lookup_insert_ne.
  - repeat split; [done|lia..].
  - intros <-. by rewrite new_loc_fresh in Hf.
Qed.

Lemma start_forwarding_accounted l e i st :
  accounted l st (start_forwarding e i st).2.
Proof.
  unfold start_forwarding.
  destruct (forwardings st !! i) as [l0|]; [|apply accounted_refl].
  destruct (objs st !! l0) as [f|]; [|apply accounted_refl].
  destruct (f_active f); [apply accounted_refl|].
  unfold _start_local_forwarding, _start_remote_forwarding,
    _start_dynamic_forwarding, _start_internal_forwarding, start_listener.
  repeat case_match; cbn; try apply accounted_refl;
    try (eapply (accounted_update _ l0 []);
           [reflexivity|by rewrite app_nil_r|intros _ ?; cbn; lia|done]);
    (eapply accounted_update;
       [reflexivity|reflexivity|intros _ ?; cbn; lia|done]).
Qed.

Lemma stop_forwarding_accounted l i st :
  accounted l st (stop_forwarding i st).2.
Proof.
  unfold stop_forwarding.
  destruct (forwardings st !! i) as [l0|]; [|apply accounted_refl].
  destruct (objs st !! l0) as [f|]; [|apply accounted_refl].
  destruct (f_active f); cbn; [|apply accounted_refl].
  assert (traffic_sent l
            (close_server_socket (f_server_socket f)
               ++ close_connections st (f_connections f)
               ++ [EmitForwardingStatus l0 false]) = 0 ∧
          traffic_received l
            (close_server_socket (f_server_socket f)
               ++ close_connections st (f_connections f)
               ++ [EmitForwardingStatus l0 false]) = 0) as [Hs Hr].
  { apply traffic_quiet. rewrite !forallb_app, close_connections_quiet.
    by destruct (f_server_socket f). }
  eapply accounted_update; [reflexivity|reflexivity| |done].
  intros _ f0. cbn. lia.
Qed.

Lemma count_sent_accounted l l0 c data st :
  accounted l st (count_sent l0 c data st).
Proof.
  eapply accounted_update; [reflexivity|reflexivity| |].
  - intros -> f. unfold traffic_sent, traffic_received. cbn.
    rewrite Nat.eqb_refl. lia.
  - intros Hne. unfold traffic_sent, traffic_received. cbn.
    by apply Nat.eqb_neq in Hne as ->.
Qed.

Lemma count_received_accounted l l0 c data st :
  accounted l st (count_received l0 c data st).
Proof.
  eapply accounted_update; [reflexivity|reflexivity| |].
  - intros -> f. unfold traffic_sent, traffic_received. cbn.
    rewrite Nat.eqb_refl. lia.
  - intros Hne. unfold traffic_sent, traffic_received. cbn.
    by apply Nat.eqb_neq in Hne as ->.
Qed.

Lemma pump_iteration_accounted l l0 c r st :
  accounted l st (pump_iteration l0 c r st).2.
Proof.
  unfold pump_iteration.
  destruct (on_socket r) as [|d1 ok1|]; cbn;
    repeat (case_match; cbn);
    try apply accounted_refl;
    try apply count_sent_accounted;
    try apply count_received_accounted;
    (eapply accounted_trans;
       [apply count_sent_accounted|apply count_received_accounted]).
Qed.

Lemma pump_finish_accounted l l0 c st : accounted l st (pump_finish l0 c st).
Proof.
  eapply accounted_update; [reflexivity|reflexivity| |].
  - intros _ f. destruct (traffic_quiet l _ (close_connections_quiet st [c]))
      as [-> ->]. cbn. lia.
  - intros _. apply traffic_quiet, close_connections_quiet.
Qed.

Lemma handle_forwarding_accounted l l0 c rounds st :
  accounted l st (_handle_forwarding l0 c rounds st).
Proof.
  revert st. induction rounds as [|r rounds IH]; intros st; cbn.
  - destruct (is_active l0 st); cbn;
      [apply accounted_refl|apply pump_finish_accounted].
  - destruct (is_active l0 st); cbn; [|apply pump_finish_accounted].
    destruct (pump_iteration l0 c r st).1 eqn:Hgo.
    + eapply accounted_trans; [apply pump_iteration_accounted|apply IH].
    + eapply accounted_trans;
        [apply pump_iteration_accounted|apply pump_finish_accounted].
Qed.

Lemma socks_thread_accounted l l0 segments o sock now rounds st :
  accounted l st (socks_thread l0 segments o sock now rounds st).2.
Proof.
  unfold socks_thread.
  destruct o; try apply accounted_refl.
  destruct (last _) as [[]|]; try apply accounted_refl. cbn.
  eapply accounted_trans; [|apply handle_forwarding_accounted].
  by apply accounted_quiet.
Qed.

Lemma register_connection_accounted l l0 conn st :
  accounted l st (register_connection l0 conn st).2.
Proof.
  eapply (accounted_update _ l0 []);
    [reflexivity|by rewrite app_nil_r|intros _ ?; cbn; lia|done].
Qed.

Lemma apply_accounted l o st : accounted l st (apply o st).
Proof.
  destruct o; cbn.
  - apply add_forwarding_accounted.
  - apply start_forwarding_accounted.
  - apply stop_forwarding_accounted.
  - unfold remove_forwarding. cbn.
    eapply accounted_trans; [apply stop_forwarding_accounted|].
    by apply accounted_quiet.
  - apply register_connection_accounted.
  - apply pump_iteration_accounted.
  - apply pump_finish_accounted.
  - eapply accounted_update;
      [reflexivity|reflexivity|intros _ ?; cbn; lia|done].
  - apply socks_thread_accounted.
Qed.

Lemma run_accounted l ops st : accounted l st (run ops st).
Proof.
  revert st. induction ops as [|o ops IH]; intros st; cbn.
  - apply accounted_refl.
  - eapply accounted_trans; [apply apply_accounted|apply IH].
Qed.

(** X5, the byte counters against the traffic signals: over any sequence of
    calls and thread steps, each counter of a dict grows by exactly the sum
    of what the [forwarding_traffic] signals emitted for that dict
    announce in its direction. Starting, stopping and removing a rule
    never reset or change a counter. *)
Theorem traffic_accounting ops st l f :
  objs st !! l = Some f →
  ∃ f', objs (run ops st) !! l = Some f' ∧
    f_bytes_sent f'
    = f_bytes_sent f + traffic_sent l (emitted st (run ops st)) ∧
    f_bytes_received f'
    = f_bytes_received f + traffic_received l (emitted st (run ops st)).
Proof.
  intros Hf.
  destruct (run_accounted l ops st f Hf) as (es & f' & He & ? & ? & ?).
  exists f'. by rewrite (emitted_app _ _ _ He).
Qed.

End AccountingFacts.

(** The local rule in use: hello pumped each way, the rule stopped, removed
    and added again. The old dict has counted five bytes each way. *)
Lemma traffic_accounting_witness :
  ∃ f', PortForwarder.objs
          (PortForwarder.run
             [PortForwarder.Pump 0%nat 0%nat Scenarios.hello_round;
              PortForwarder.Stop "local:127.0.0.1:18000";
              PortForwarder.Remove "local:127.0.0.1:18000";
              PortForwarder.Add "local" Scenarios.local_rule]
             Scenarios.local_rule_in_use) !! 0%nat = Some f' ∧
        PortForwarder.f_bytes_sent f' = 5 ∧
        PortForwarder.f_bytes_received f' = 5.
Proof.
  destruct (traffic_accounting
              [PortForwarder.Pump 0%nat 0%nat Scenarios.hello_round;
               PortForwarder.Stop "local:127.0.0.1:18000";
               PortForwarder.Remove "local:127.0.0.1:18000";
               PortForwarder.Add "local" Scenarios.local_rule]
              Scenarios.local_rule_in_use 0%nat Scenarios.local_rule_dict
              eq_refl) as (f' & Hf & Hs & Hr).
  exists f'. split; [exact Hf|]. split; [rewrite Hs|rewrite Hr]; reflexivity.
Defined.

(** * Starts that fail *)
Section StartFacts.
Import PortForwarder.

(** X6, starting an internal rule whose config lacks the target host, the
    target port or the listening port (absent, empty or 0): the start
    fails whatever the operating system would answer, nothing is bound or
    emitted, the registry is as before, and the dict is the old one with
    the error message recorded. *)
Theorem internal_start_needs_target e i st l f :
  forwardings st !! i = Some l → objs st !! l = Some f →
  f_active f = false → f_type f = "internal" →
  truthy_str (internal_host (f_config f)) = false
  ∨ truthy_int (internal_port (f_config f)) = false
  ∨ truthy_int (local_port (f_config f)) = false →
  let r := start_forwarding e i st in
  r.1 = false ∧ emitted st r.2 = [] ∧
  forwardings r.2 = forwardings st ∧
  objs r.2 !! l = Some (with_error (Some "缺少必要的转发配置参数") f).
Proof.
  intros Hi Hl Ha Hty Hmiss. cbv zeta. unfold start_forwarding.
  rewrite Hi, Hl, Ha, Hty. cbn. unfold _start_internal_forwarding.
  assert (negb (truthy_str (internal_host (f_config f)))
          || negb (truthy_int (internal_port (f_config f)))
          || negb (truthy_int (local_port (f_config f))) = true) as ->.
  { destruct Hmiss as [-> | [-> | ->]]; cbn;
      rewrite ?orb_true_r; reflexivity. }
  cbn. rewrite lookup_alter_eq, Hl. cbn.
  split; [done|]. split; [apply (emitted_same st)|done].
Qed.

(** X7, a start that answers False on a registered, stopped rule of one of
    the four kinds: the registry is unchanged; the dict has an error
    recorded and the counters and connection list it had. It is left
    inactive with nothing done to the outside, except when the listener
    was set up and only the accept thread could not be started: then the
    dict is left marked active, holding the bound socket, although the
    start answered False. *)
Theorem failed_start_leaves_rule e i st l f :
  forwardings st !! i = Some l → objs st !! l = Some f →
  f_active f = false → f_type f ∈ kinds →
  (start_forwarding e i st).1 = false →
  let st' := (start_forwarding e i st).2 in
  forwardings st' = forwardings st ∧
  ∃ f', objs st' !! l = Some f' ∧
        is_Some (f_error f') ∧
        f_bytes_sent f' = f_bytes_sent f ∧
        f_bytes_received f' = f_bytes_received f ∧
        f_connections f' = f_connections f ∧
        (f_active f' = true →
         f_type f ≠ "remote" ∧
         ∃ sock th now msg,
           listen_result e = ThreadFailed sock th now msg ∧
           f_server_socket f' = Some sock) ∧
        (f_active f' = false → emitted st st' = []).
Proof.
  intros Hi Hl Ha Hty. cbv zeta.
  rewrite start_forwarding_forwardings. unfold start_forwarding.
  rewrite Hi, Hl, Ha.
  unfold _start_local_forwarding, _start_remote_forwarding,
    _start_dynamic_forwarding, _start_internal_forwarding, start_listener.
  unfold kinds in Hty.
  repeat (apply elem_of_cons in Hty as [->|Hty]);
    [| | | |by apply elem_of_nil in Hty];
    cbn; repeat case_match; cbn; try discriminate; intros _;
    (split; [done|]); rewrite lookup_alter_eq, Hl; cbn;
    eexists; (split; [reflexivity|]); cbn;
    repeat split; try done; try (intros; by apply (emitted_same st));
    try congruence; try (by eexists _, _, _, _).
Qed.

End StartFacts.

(** An internal rule without target host, started in fair weather. *)
Lemma internal_start_needs_target_witness :
  (PortForwarder.start_forwarding Scenarios.fair_weather "internal:None:80"
     (PortForwarder.run
        [PortForwarder.Add "internal" Scenarios.internal_rule_no_target]
        PortForwarder.init)).1 = false.
Proof.
  refine (proj1 (internal_start_needs_target Scenarios.fair_weather
                   "internal:None:80"
                   (PortForwarder.run
                      [PortForwarder.Add "internal"
                         Scenarios.internal_rule_no_target]
                      PortForwarder.init) 0%nat
                   (PortForwarder.new_forwarding_info "internal:None:80"
                      "internal" Scenarios.internal_rule_no_target)
                   eq_refl eq_refl eq_refl eq_refl _)).
  left. reflexivity.
Defined.

(** The local rule started while its port is taken. *)
Lemma failed_start_leaves_rule_witness :
  PortForwarder.forwardings
    (PortForwarder.start_forwarding Scenarios.port_taken
       "local:127.0.0.1:18000"
       (PortForwarder.run [PortForwarder.Add "local" Scenarios.local_rule]
          PortForwarder.init)).2
  = PortForwarder.forwardings
      (PortForwarder.run [PortForwarder.Add "local" Scenarios.local_rule]
         PortForwarder.init).
Proof.
  refine (proj1 (failed_start_leaves_rule Scenarios.port_taken
                   "local:127.0.0.1:18000"
                   (PortForwarder.run
                      [PortForwarder.Add "local" Scenarios.local_rule]
                      PortForwarder.init) 0%nat
                   (PortForwarder.new_forwarding_info
                      "local:127.0.0.1:18000" "local" Scenarios.local_rule)
                   eq_refl eq_refl eq_refl _ eq_refl)).
  apply list_elem_of_In. left. reflexivity.
Defined.

(** * Which configs share an id *)
Section IdentityFacts.
Import PortForwarder.

Lemma all_chars_app P s1 s2 :
  all_chars P (s1 +:+ s2) = all_chars P s1 && all_chars P s2.
Proof.
  induction s1 as [|c s1 IH]; [done|]. simpl. by rewrite IH, andb_assoc.
Qed.

Lemma all_chars_pretty_N_go P x s :
  (∀ n, P (pretty_N_char n) = true) → all_chars P s = true →
  all_chars P (pretty_N_go x s) = true.
Proof.
  intros HP. revert s.
  induction (N.lt_wf_0 x) as [x _ IH]. intros s Hs.
  destruct (decide (0 < x)%N) as [Hx|Hx].
  - rewrite pretty_N_go_step by done. apply IH.
    + by apply N.div_lt.
    + cbn. by rewrite HP.
  - assert (x = 0%N) as -> by lia. by rewrite pretty_N_go_0.
Qed.

Lemma all_chars_pretty_Z P (z : Z) :
  (∀ n, P (pretty_N_char n) = true) → P "-"%char = true →
  all_chars P (pretty z) = true.
Proof.
  intros HP Hd.
  assert (all_chars P "0" = true) as H0.
  { pose proof (HP 0%N) as H. cbn in *. by rewrite H. }
  assert (∀ n : N, all_chars P (pretty n) = true) as HN.
  { intros n. unfold pretty, pretty_N. case_decide; [done|].
    by apply all_chars_pretty_N_go. }
  destruct z as [|p|p]; [done|apply (HN (N.pos p))|].
  change (pretty (Z.neg p)) with ("-" +:+ pretty (N.pos p)).
  rewrite all_chars_app, (HN (N.pos p)). cbn. by rewrite Hd.
Qed.

Lemma digit_chars n : digit_or_dash (pretty_N_char n) = true.
Proof. unfold pretty_N_char. by repeat case_match. Qed.

Lemma py_str_int_colon_free v : all_chars not_colon (py_str_int v) = true.
Proof.
  destruct v as [z|]; [|done]. cbn. apply all_chars_pretty_Z; [|done].
  intros n. unfold pretty_N_char. by repeat case_match.
Qed.

Lemma py_str_int_inj v1 v2 : py_str_int v1 = py_str_int v2 → v1 = v2.
Proof.
  assert (∀ z : Z, pretty z ≠ "None") as Hne.
  { intros z E.
    pose proof (all_chars_pretty_Z digit_or_dash z digit_chars eq_refl) as H.
    by rewrite E in H. }
  destruct v1 as [z1|], v2 as [z2|]; cbn; intros E.
  - f_equal. by apply (inj pretty).
  - by apply Hne in E.
  - symmetry in E. by apply Hne in E.
  - done.
Qed.

(** A string is cut at its last colon in one way only. *)
Lemma cut_at_last_colon h1 h2 d1 d2 :
  all_chars not_colon d1 = true → all_chars not_colon d2 = true →
  h1 +:+ ":" +:+ d1 = h2 +:+ ":" +:+ d2 → h1 = h2 ∧ d1 = d2.
Proof.
  intros H1 H2. revert h2.
  assert (∀ h d d', all_chars not_colon d' = true →
            d' ≠ h +:+ ":" +:+ d) as Hno.
  { intros h d d' Hd' ->. rewrite all_chars_app in Hd'. cbn in Hd'.
    by rewrite andb_false_r in Hd'. }
  induction h1 as [|c h1 IH]; intros [|c2 h2] E; cbn in E.
  - by injection E.
  - injection E as <- E. by apply Hno in E.
  - injection E as -> E. symmetry in E. by apply Hno in E.
  - injection E as -> E. destruct (IH h2 E) as [-> ->]. done.
Qed.

(** X8, when two configs get the same id from [add_forwarding]: exactly
    when they are of the same kind, their ports under the kind's port key
    are the same (or both absent), and their hosts under the kind's host
    key print the same (equal, or one absent and the other the word
    None). So an add is turned down as a duplicate only for a rule of the
    same kind on the same address. *)
Theorem forwarding_id_injective ty1 cfg1 ty2 cfg2 i :
  forwarding_id_of ty1 cfg1 = Some i →
  forwarding_id_of ty2 cfg2 = Some i ↔
  ty2 = ty1 ∧
  py_str (id_fields ty2 cfg2).1 = py_str (id_fields ty1 cfg1).1 ∧
  (id_fields ty2 cfg2).2 = (id_fields ty1 cfg1).2.
Proof.
  intros H1. split.
  - intros H2.
    apply forwarding_id_of_cases in H1
      as [[-> E1]|[[-> E1]|[[-> E1]|[-> E1]]]];
    apply forwarding_id_of_cases in H2
      as [[-> E2]|[[-> E2]|[[-> E2]|[-> E2]]]];
      rewrite E1 in E2; cbn in E2; try discriminate E2;
      (split; [done|]); cbn;
      repeat (injection E2 as E2);
      apply cut_at_last_colon in E2 as [Hh Hp];
        try apply py_str_int_colon_free;
      apply py_str_int_inj in Hp; done.
  - intros (-> & Hh & Hp). rewrite <- H1.
    apply forwarding_id_of_cases in H1 as [[-> _]|[[-> _]|[[-> _]|[-> _]]]];
      cbn in *; unfold py_str in *; by rewrite Hh, Hp.
Qed.

End IdentityFacts.

(** Two local rules on 127.0.0.1:18000 with different targets. *)
Lemma forwarding_id_injective_witness :
  PortForwarder.forwarding_id_of "local" Scenarios.local_rule_other_target
  = Some "local:127.0.0.1:18000".
Proof.
  apply (proj2 (forwarding_id_injective "local" Scenarios.local_rule "local"
                  Scenarios.local_rule_other_target "local:127.0.0.1:18000"
                  eq_refl)).
  repeat split; reflexivity.
Defined.

(** * The SOCKS5 handlers on every input *)
Section HandlerFacts.
Import Socks.

Variable format_ipv6 : list byte → string.

Lemma live_nil : live [].
Proof. split; apply not_elem_of_nil. Qed.

Lemma live_snoc evs e :
  live evs → e ≠ Closed → e ≠ PumpStarted → live (evs ++ [e]).
Proof.
  intros [Hc Hp] ? ?.
  split; rewrite elem_of_app, list_elem_of_singleton;
    (intros [?|?]; [done|congruence]).
Qed.

Lemma closed_settles o evs : live evs → settled o (evs ++ [Closed]).
Proof. intros H. exists evs. split; [done|]. by left. Qed.

(** One step of a handler, for any property [Q] of where it ends. *)
Lemma exec_recv {B} n (k : list byte → M B) w (Q : result B * wire → Prop) :
  (∀ data w', events w' = events w → hung_up w' = hung_up w →
     Q (k data w')) →
  (hung_up w = false → Q (Blocked, w)) →
  Q (bind (recv n) k w).
Proof.
  intros H Hb. unfold bind, recv. destruct (inbox w).
  - destruct (hung_up w) eqn:G; [by apply H|by apply Hb].
  - by apply H.
Qed.

Lemma exec_log {B} e (k : unit → M B) w (Q : result B * wire → Prop) :
  (∀ w', events w' = events w ++ [e] → hung_up w' = hung_up w →
     Q (k tt w')) →
  Q (bind (log e) k w).
Proof. intros H. unfold bind, log. cbn. by apply H. Qed.

Lemma exec_index {B} data i (k : N → M B) w (Q : result B * wire → Prop) :
  (∀ a, Q (k a w)) → Q (Raise, w) → Q (bind (index data i) k w).
Proof.
  intros Hv Hr. unfold bind, index, pure, raise. by destruct (data !! i).
Qed.

Lemma exec_inet_ntoa {B} data (k : string → M B) w
    (Q : result B * wire → Prop) :
  (∀ a, Q (k a w)) → Q (Raise, w) → Q (bind (inet_ntoa data) k w).
Proof.
  intros Hv Hr. unfold bind, inet_ntoa, pure, raise.
  destruct data as [|? [|? [|? [|? [|]]]]]; done.
Qed.

Lemma exec_decode_utf8 {B} data (k : string → M B) w
    (Q : result B * wire → Prop) :
  (∀ a, Q (k a w)) → Q (Raise, w) → Q (bind (decode_utf8 data) k w).
Proof.
  intros Hv Hr. unfold bind, decode_utf8, pure, raise.
  by destruct (Utf8.decode data).
Qed.

Lemma exec_inet_ntop6 {B} data (k : string → M B) w
    (Q : result B * wire → Prop) :
  (∀ a, Q (k a w)) → Q (Raise, w) →
  Q (bind (inet_ntop6 format_ipv6 data) k w).
Proof.
  intros Hv Hr. unfold bind, inet_ntop6, pure, raise.
  by destruct (length data =? 16)%nat.
Qed.

Lemma exec_open_channel {B} o host port (k : option handle → M B) w
    (Q : result B * wire → Prop) :
  (∀ w', events w' = events w ++ [ChannelOpened host port] →
     hung_up w' = hung_up w →
     (∀ chan, o = Opened chan → Q (k (Some chan) w')) ∧
     (o = NoChannel → Q (k None w')) ∧
     (o = OpenFailed → Q (Raise, w'))) →
  Q (bind (open_channel o host port) k w).
Proof.
  intros H. unfold open_channel.
  destruct (H {| inbox := inbox w; hung_up := hung_up w;
                 events := events w ++ [ChannelOpened host port] |}
              eq_refl eq_refl)
    as (Hs & Hn & Hf).
  unfold bind, log, pure, raise. destruct o; cbn; auto.
Qed.

Lemma bind_assoc {A B C} (m : M A) (f : A → M B) (g : B → M C) w :
  bind (bind m f) g w = bind m (λ x, bind (f x) g) w.
Proof. unfold bind. by destruct (m w) as [[] ?]. Qed.

Lemma try_except_close R B body segments gone :
  handler_post R B
    (body {| inbox := segments; hung_up := gone; events := [] |}) →
  outcome R B (run (try_except body close) segments gone).
Proof.
  unfold handler_post, outcome, run, try_except.
  by destruct (body _) as [[] w'].
Qed.

Lemma outcome_same R r : outcome R R r → R (events r.2).
Proof. unfold outcome. by destruct r.1. Qed.

Lemma outcome_hung_up R B h segments :
  outcome R (λ evs, true = false ∧ B evs) (run h segments true) →
  R (events_of h segments).
Proof.
  unfold outcome, events_of. destruct (run h segments true).1; try done.
  by intros [? _].
Qed.

Ltac exec_step :=
  match goal with
  | |- handler_post _ _ (bind (bind _ _) _ _) => rewrite bind_assoc
  | |- handler_post _ _ (bind (recv _) _ _) =>
    apply exec_recv;
    [ let data := fresh "data" in let w := fresh "w" in
      let E := fresh "E" in let G := fresh "G" in intros data w E G
    | let G := fresh "G" in intros G ]
  | |- handler_post _ _ (bind (log _) _ _) =>
    apply exec_log; let w := fresh "w" in let E := fresh "E" in
    let G := fresh "G" in intros w E G
  | |- handler_post _ _ (bind (index _ _) _ _) =>
    apply exec_index; [intros ?|]
  | |- handler_post _ _ (bind (inet_ntoa _) _ _) =>
    apply exec_inet_ntoa; [intros ?|]
  | |- handler_post _ _ (bind (decode_utf8 _) _ _) =>
    apply exec_decode_utf8; [intros ?|]
  | |- handler_post _ _ (bind (inet_ntop6 _ _) _ _) =>
    apply exec_inet_ntop6; [intros ?|]
  | |- handler_post _ _ (bind (open_channel _ _ _) _ _) =>
    apply exec_open_channel; let w := fresh "w" in let E := fresh "E" in
    let G := fresh "G" in
    intros w E G; split; [intros ? ->|split; [intros ->|intros ->]]
  | |- handler_post _ _ (bind (if ?c then _ else _) _ _) => destruct c
  | |- handler_post _ _ ((if ?c then _ else _) _) => destruct c
  | |- handler_post _ _ (bind return_ _ _) => unfold bind, return_; cbn
  end.

(** Every path through a handler, with the events of each. *)
Ltac exec_paths :=
  apply try_except_close;
  match goal with
  | |- handler_post _ _ (_ ?w) =>
    let w0 := fresh "w" in let E := fresh "E" in let G := fresh "G" in
    let gone := eval cbn in (hung_up w) in
    set (w0 := w); assert (events w0 = []) as E by done;
    assert (hung_up w0 = gone) as G by done; clearbody w0
  end;
  unfold sendall, close; cbv zeta;
  repeat exec_step;
  unfold handler_post, bind, return_, raise, log; cbn;
  repeat match goal with E : events _ = _ |- _ => rewrite E; clear E end.

Ltac live_solve :=
  repeat (apply live_snoc; [|discriminate|discriminate]); apply live_nil.

Ltac settle :=
  first
    [ split; [congruence|live_solve]
    | apply closed_settles; live_solve
    | eexists; split;
      [|right; split; [reflexivity|split; [|by eexists]];
        rewrite !elem_of_app, !list_elem_of_singleton; tauto];
      live_solve ].

Ltac members H :=
  repeat (apply elem_of_app in H as [H|H]);
  first [ by apply elem_of_nil in H | apply list_elem_of_singleton in H ].

(** X9, [PortForwarder._handle_socks_connection] on anything a client may
    send, cut into segments in any way, and whatever [open_channel]
    answers. If the client closes its end after what it sends, the handler
    ends with the client socket closed or handed to the pump, once and as
    the last thing done, and it is handed to the pump only after the
    success reply on a channel that was opened. If the client stays
    connected, the handler may also never end: it is then blocked in a
    [recv] with the socket neither closed nor handed over, as it is from
    the start for a client that sends nothing. Either way the handler
    never sends anything but the method reply 05 00 and the success reply:
    no failure is ever reported to the client. *)
Theorem port_forwarder_socks_settles o segments gone :
  let handler := PortForwarder._handle_socks_connection o in
  let r := run handler segments gone in
  outcome (settled o) (λ evs, gone = false ∧ live evs) r ∧
  settled o (events_of handler segments) ∧
  (∀ data, Sent data ∈ events r.2 →
           data = method_reply ∨ data = reply_success) ∧
  run handler [] false
  = (Blocked, {| inbox := []; hung_up := false; events := [] |}).
Proof.
  cbv zeta. unfold PortForwarder._handle_socks_connection.
  split; [|split; [|split; [|reflexivity]]].
  - exec_paths; settle.
  - apply (outcome_hung_up _ live). exec_paths; settle.
  - intros sent. apply outcome_same.
    exec_paths; intros H; members H; try discriminate H;
      injection H as ->; auto.
Qed.

(** X10, [SSHManager._handle_socks_connection] on anything a client may
    send, and whatever [open_channel] answers. If the client closes its
    end after what it sends, the handler ends with the client socket
    closed or handed to [_forward_data], once and as the last thing done.
    If the client stays connected, the handler may also never end: it is
    then blocked in a [recv] with the socket neither closed nor handed
    over, as it is from the start for a client that sends nothing. Either
    way the success reply is sent only when a channel was opened, and the
    reply 05 04 (host unreachable) only when [open_channel] returned
    None. *)
Theorem ssh_manager_socks_settles o segments gone :
  let handler := SSHManager._handle_socks_connection format_ipv6 o in
  let r := run handler segments gone in
  outcome (settled o) (λ evs, gone = false ∧ live evs) r ∧
  settled o (events_of handler segments) ∧
  (Sent reply_success ∈ events r.2 → ∃ chan, o = Opened chan) ∧
  (Sent reply_host_unreachable ∈ events r.2 → o = NoChannel) ∧
  run handler [] false
  = (Blocked, {| inbox := []; hung_up := false; events := [] |}).
Proof.
  cbv zeta. unfold SSHManager._handle_socks_connection.
  split; [|split; [|split; [|split; [|reflexivity]]]].
  - exec_paths; settle.
  - apply (outcome_hung_up _ live). exec_paths; settle.
  - apply (outcome_same (λ evs, Sent reply_success ∈ evs → _)).
    exec_paths; intros H; members H; try discriminate H; by eexists.
  - apply (outcome_same (λ evs, Sent reply_host_unreachable ∈ evs → _)).
    exec_paths; intros H; members H; try discriminate H; done.
Qed.

Ltac run_handlers :=
  unfold events_of, run, SSHManager._handle_socks_connection,
    PortForwarder._handle_socks_connection, try_except, bind, recv, sendall,
    close, log, return_, raise, pure, at_, index, open_channel, inet_ntop6,
    inet_ntoa, decode_utf8;
  cbn -[Utf8.decode String.string_of_list_byte].

(** X11, what is not a SOCKS5 greeting, for both handlers: a first segment
    of two bytes or more whose version byte is not 5, a first segment of a
    single byte (the second byte of the greeting is not waited for), and
    an empty stream are all answered by closing the socket, with nothing
    sent. *)
Theorem greeting_refusals o :
  let ssh := SSHManager._handle_socks_connection format_ipv6 o in
  let pf := PortForwarder._handle_socks_connection o in
  (∀ v n rest more,
     Byte.to_N v ≠ 5%N →
     events_of ssh ((v :: n :: rest) :: more) = [Closed] ∧
     events_of pf ((v :: n :: rest) :: more) = [Closed]) ∧
  (∀ b more,
     events_of ssh ([b] :: more) = [Closed] ∧
     events_of pf ([b] :: more) = [Closed]) ∧
  events_of ssh [] = [Closed] ∧ events_of pf [] = [Closed].
Proof.
  cbv zeta. split; [|split; [|split]]; try reflexivity.
  - intros v n rest more Hv. apply N.eqb_neq in Hv.
    split; run_handlers; rewrite Hv; reflexivity.
  - intros b more. split; reflexivity.
Qed.

(** X12, a CONNECT to an IPv4 address whose channel cannot be opened, after
    any well-formed greeting. When [open_channel] returns None,
    [SSHManager._handle_socks_connection] answers 05 04 and closes, while
    [PortForwarder._handle_socks_connection] sends the success reply and
    then closes. When [open_channel] raises, both close without any
    reply. *)
Theorem channel_failure_replies (methods : list byte)
    (n rsv a b c d hi lo : byte) :
  N.to_nat (Byte.to_N n) = length methods →
  let segments :=
    [[x05; n] ++ methods; [x05; x01; rsv; x01; a; b; c; d; hi; lo]] in
  let host :=
    dotted a +:+ "." +:+ dotted b +:+ "." +:+ dotted c +:+ "." +:+ dotted d in
  let port := Z.shiftl (Z.of_N (Byte.to_N hi)) 8 + Z.of_N (Byte.to_N lo) in
  let port' := Z.of_N (Byte.to_N hi * 256 + Byte.to_N lo) in
  events_of (SSHManager._handle_socks_connection format_ipv6 NoChannel)
    segments
  = [Sent method_reply; ChannelOpened host port;
     Sent reply_host_unreachable; Closed] ∧
  events_of (SSHManager._handle_socks_connection format_ipv6 OpenFailed)
    segments
  = [Sent method_reply; ChannelOpened host port; Closed] ∧
  events_of (PortForwarder._handle_socks_connection NoChannel) segments
  = [Sent method_reply; ChannelOpened host port'; Sent reply_success;
     Closed] ∧
  events_of (PortForwarder._handle_socks_connection OpenFailed) segments
  = [Sent method_reply; ChannelOpened host port'; Closed].
Proof.
  intros Hn. cbv zeta.
  repeat split; run_handlers; rewrite Hn;
    destruct methods as [|? ?];
    cbn -[Utf8.decode String.string_of_list_byte];
    rewrite ?firstn_all, ?skipn_all; reflexivity.
Qed.
End HandlerFacts.

(** The CONNECT of the scenarios to 127.0.0.1:19000, refused by the
    server. *)
Lemma channel_failure_replies_witness :
  Socks.events_of
    (SSHManager._handle_socks_connection Scenarios.any_ipv6_format
       Socks.NoChannel)
    [Scenarios.greeting; Scenarios.connect_request]
  = [Socks.Sent Socks.method_reply; Socks.ChannelOpened "127.0.0.1" 19000;
     Socks.Sent Socks.reply_host_unreachable; Socks.Closed] ∧
  Socks.events_of (PortForwarder._handle_socks_connection Socks.NoChannel)
    [Scenarios.greeting; Scenarios.connect_request]
  = [Socks.Sent Socks.method_reply; Socks.ChannelOpened "127.0.0.1" 19000;
     Socks.Sent Socks.reply_success; Socks.Closed].
Proof.
  destruct (channel_failure_replies Scenarios.any_ipv6_format [x00] x01 x00
              x7f x00 x00 x01 x4a x38 eq_refl) as (Hssh & _ & Hpf & _).
  split; [exact Hssh|exact Hpf].
Defined.

(** * Sessions and their forwardings (ssh_manager.py) *)
Section SessionFacts.
Import SSHManager.

Lemma forwarding_id_deactivate f :
  forwarding_id (deactivate f) = forwarding_id f.
Proof. done. Qed.

Lemma forwarding_id_kind f k :
  forwarding_id f = Some k →
  (type f = "local" ∧ ∃ h p, local_host f = Some h ∧ local_port f = Some p ∧
                             k = "local:" +:+ h +:+ ":" +:+ pretty p) ∨
  (type f = "remote" ∧ ∃ h p, remote_host f = Some h ∧ remote_port f = Some p ∧
                              k = "remote:" +:+ h +:+ ":" +:+ pretty p) ∨
  (type f = "dynamic" ∧ ∃ h p, bind_host f = Some h ∧ bind_port f = Some p ∧
                               k = "dynamic:" +:+ h +:+ ":" +:+ pretty p).
Proof.
  unfold forwarding_id. intros H.
  destruct (String.eqb_spec (type f) "local") as [->|_].
  { left. split; [done|]. repeat case_match; try done.
    injection H as <-. by eexists _, _. }
  destruct (String.eqb_spec (type f) "remote") as [->|_].
  { right; left. split; [done|]. repeat case_match; try done.
    injection H as <-. by eexists _, _. }
  destruct (String.eqb_spec (type f) "dynamic") as [->|_]; [|done].
  right; right. split; [done|]. repeat case_match; try done.
  injection H as <-. by eexists _, _.
Qed.

(** [stop_forwarding] on a dict registered under the id it prints. *)
Lemma stop_forwarding_keyed c k l f st :
  objs st !! l = Some f → forwarding_id f = Some k →
  let st' := stop_forwarding c l st in
  clients st' = clients st ∧
  if cancels c f then
    forwardings st' = delete k (forwardings st) ∧
    objs st' = alter deactivate l (objs st) ∧
    effects st'
    = effects st ++ cancel_request f ++ [EmitForwardingStatus l false]
  else
    forwardings st' = forwardings st ∧ objs st' = objs st ∧
    effects st' = effects st ++ cancel_request f.
Proof.
  intros Hl Hk. cbv zeta. unfold stop_forwarding, cancels, cancel_request.
  rewrite Hl.
  destruct (forwarding_id_kind f k Hk)
    as [(Hty & h & p & Hh & Hp & ->)|[(Hty & h & p & Hh & Hp & ->)
       |(Hty & h & p & Hh & Hp & ->)]];
    rewrite Hty; cbn; unfold drop_forwarding; rewrite ?Hh, ?Hp; cbn.
  - done.
  - destruct (transport f) as [t|]; cbn; [|done].
    destruct c; cbn; [|done]. by rewrite <- app_assoc.
  - done.
Qed.

Lemma keyed_inj st k1 k2 l :
  keyed st → forwardings st !! k1 = Some l → forwardings st !! k2 = Some l →
  k1 = k2.
Proof.
  intros Hk H1 H2.
  destruct (Hk k1 l H1) as (f1 & Hf1 & Hi1).
  destruct (Hk k2 l H2) as (f2 & Hf2 & Hi2). congruence.
Qed.

Lemma stop_forwarding_keeps_keyed c k l st :
  keyed st → forwardings st !! k = Some l →
  keyed (stop_forwarding c l st).
Proof.
  intros Hkeyed Hk. destruct (Hkeyed k l Hk) as (f & Hf & Hid).
  destruct (stop_forwarding_keyed c k l f st Hf Hid) as [_ Hst].
  destruct (cancels c f).
  - destruct Hst as (Hfw & Hobjs & _). intros k' l' Hk'.
    rewrite Hfw in Hk'. apply lookup_delete_Some in Hk' as [Hne Hk'].
    destruct (Hkeyed k' l' Hk') as (f' & Hf' & Hid'). rewrite Hobjs.
    destruct (decide (l = l')) as [->|Hl].
    + exists (deactivate f'). by rewrite lookup_alter_eq, Hf'.
    + exists f'. by rewrite lookup_alter_ne.
  - destruct Hst as (Hfw & Hobjs & _). intros k' l' Hk'.
    rewrite Hfw in Hk'. rewrite Hobjs. by apply Hkeyed.
Qed.

(** The loop of [disconnect] over ids that are registered, each once. *)
Lemma stop_each_spec cancel_ok ids st :
  keyed st → NoDup ids → (∀ k, k ∈ ids → is_Some (forwardings st !! k)) →
  ∃ es,
    (stop_each cancel_ok ids st).1 = true ∧
    keyed (stop_each cancel_ok ids st).2 ∧
    clients (stop_each cancel_ok ids st).2 = clients st ∧
    effects (stop_each cancel_ok ids st).2 = effects st ++ es ∧
    (∀ k, k ∉ ids →
       forwardings (stop_each cancel_ok ids st).2 !! k
       = forwardings st !! k) ∧
    (∀ l, (∀ k, k ∈ ids → forwardings st !! k ≠ Some l) →
       objs (stop_each cancel_ok ids st).2 !! l = objs st !! l) ∧
    (∀ k l f, k ∈ ids → forwardings st !! k = Some l →
       objs st !! l = Some f →
       if cancels (cancel_ok l) f then
         forwardings (stop_each cancel_ok ids st).2 !! k = None ∧
         objs (stop_each cancel_ok ids st).2 !! l = Some (deactivate f) ∧
         EmitForwardingStatus l false ∈ es
       else
         forwardings (stop_each cancel_ok ids st).2 !! k = Some l ∧
         objs (stop_each cancel_ok ids st).2 !! l = Some f).
Proof.
  revert st. induction ids as [|k0 ids IH]; intros st Hkeyed Hnd Hreg.
  { exists []. cbn. rewrite app_nil_r. repeat split; try done.
    intros k l f Hin. by apply elem_of_nil in Hin. }
  apply NoDup_cons in Hnd as [Hk0 Hnd].
  destruct (Hreg k0) as [l0 Hl0]; [by left|].
  destruct (Hkeyed k0 l0 Hl0) as (f0 & Hf0 & Hid0).
  cbn. rewrite Hl0.
  set (st1 := stop_forwarding (cancel_ok l0) l0 st).
  destruct (stop_forwarding_keyed (cancel_ok l0) k0 l0 f0 st Hf0 Hid0)
    as [Hcl Hst1]. fold st1 in Hcl, Hst1.
  pose proof (stop_forwarding_keeps_keyed (cancel_ok l0) k0 l0 st Hkeyed Hl0)
    as Hkeyed1. fold st1 in Hkeyed1.
  (* what the first stop leaves of the other entries *)
  assert (∀ k, k ≠ k0 → forwardings st1 !! k = forwardings st !! k) as Hfw1.
  { intros k Hne. destruct (cancels (cancel_ok l0) f0).
    - destruct Hst1 as (-> & _). by rewrite lookup_delete_ne.
    - by destruct Hst1 as (-> & _). }
  assert (∀ l, l ≠ l0 → objs st1 !! l = objs st !! l) as Hobj1.
  { intros l Hne. destruct (cancels (cancel_ok l0) f0).
    - destruct Hst1 as (_ & -> & _). by rewrite lookup_alter_ne.
    - by destruct Hst1 as (_ & -> & _). }
  assert (∃ es1, effects st1 = effects st ++ es1 ∧
                 (cancels (cancel_ok l0) f0 = true →
                  EmitForwardingStatus l0 false ∈ es1)) as (es1 & He1 & Hin1).
  { destruct (cancels (cancel_ok l0) f0).
    - destruct Hst1 as (_ & _ & ->). eexists. split; [done|]. intros _.
      apply elem_of_app. right. by apply list_elem_of_singleton.
    - destruct Hst1 as (_ & _ & ->). eexists. by split. }
  destruct (IH st1 Hkeyed1 Hnd)
    as (es & Hok & Hkeyed' & Hcl' & He & Hout & Hobj & Hin).
  { intros k Hk. rewrite Hfw1; [apply Hreg; by right|].
    intros ->. done. }
  exists (es1 ++ es). split; [done|]. split; [done|].
  split; [by rewrite Hcl'|]. split; [by rewrite He, He1, app_assoc|].
  assert (∀ k, k ∈ ids → forwardings st1 !! k ≠ Some l0) as Hl0free.
  { intros k Hk Hkl0. rewrite Hfw1 in Hkl0 by (intros ->; done).
    by rewrite (keyed_inj st k k0 l0 Hkeyed Hkl0 Hl0) in Hk. }
  split; [|split].
  - intros k Hk. apply not_elem_of_cons in Hk as [Hne Hk].
    rewrite (Hout k Hk). by apply Hfw1.
  - intros l Hl. rewrite Hobj.
    + apply Hobj1. intros ->. apply (Hl k0); [by left|done].
    + intros k Hk Hkl. apply (Hl k); [by right|].
      rewrite Hfw1 in Hkl; [done|]. by intros ->.
  - intros k l f Hk Hkl Hf. apply elem_of_cons in Hk as [->|Hk].
    + assert (l = l0) as -> by congruence.
      assert (f = f0) as -> by congruence.
      rewrite (Hout k0 Hk0), (Hobj l0 Hl0free).
      destruct (cancels (cancel_ok l0) f0).
      * destruct Hst1 as (-> & -> & _).
        rewrite lookup_delete_eq, lookup_alter_eq, Hf0.
        repeat split; [done..|]. apply elem_of_app. left. by apply Hin1.
      * destruct Hst1 as (-> & -> & _). done.
    + assert (k ≠ k0) as Hne by (intros ->; done).
      assert (l ≠ l0) as Hlne.
      { intros ->. apply Hne. by apply (keyed_inj st k k0 l0). }
      specialize (Hin k l f Hk).
      rewrite (Hfw1 k Hne), (Hobj1 l Hlne) in Hin.
      specialize (Hin Hkl Hf).
      destruct (cancels (cancel_ok l) f); [|done].
      destruct Hin as (? & ? & ?). repeat split; [done..|].
      apply elem_of_app. by right.
Qed.

Lemma filter_keys_NoDup {A} (P : string * A → Prop) `{∀ x, Decision (P x)}
    (L : list (string * A)) :
  NoDup L.*1 → NoDup (filter P L).*1.
Proof.
  induction L as [|[k a] L IH]; [done|]. rewrite fmap_cons.
  intros [Hk Hnd]%NoDup_cons. rewrite filter_cons.
  destruct (decide (P (k, a))); [|by apply IH].
  rewrite fmap_cons. apply NoDup_cons. split; [|by apply IH].
  intros Hin. apply Hk.
  apply list_elem_of_fmap in Hin as ([k' a'] & -> & Hin).
  apply list_elem_of_filter in Hin as [_ Hin].
  apply list_elem_of_fmap. by exists (k', a').
Qed.

Lemma forwardings_to_stop_spec cl items st k :
  items ≡ₚ map_to_list (forwardings st) →
  k ∈ forwardings_to_stop cl items st ↔
  ∃ l, forwardings st !! k = Some l ∧ client <$> objs st !! l = Some cl.
Proof.
  intros Hperm. unfold forwardings_to_stop. rewrite list_elem_of_fmap. split.
  - intros ([k' l] & -> & Hin). apply list_elem_of_filter in Hin as [HP Hin].
    rewrite Hperm in Hin. apply elem_of_map_to_list in Hin. by exists l.
  - intros (l & Hk & Hcl). exists (k, l). split; [done|].
    apply list_elem_of_filter. split; [done|].
    rewrite Hperm. by apply elem_of_map_to_list.
Qed.

Lemma find_client_id_none cl items :
  Forall (λ kv : string * handle, kv.2 ≠ cl) items →
  find_client_id cl items = None.
Proof.
  unfold find_client_id. induction 1 as [|[k c] items Hne _ IH]; [done|].
  cbn in *. by rewrite bool_decide_eq_false_2.
Qed.

Lemma find_client_id_some cl items cid :
  find_client_id cl items = Some cid → (cid, cl) ∈ items.
Proof.
  unfold find_client_id. induction items as [|[k c] items IH]; [done|].
  cbn. case_bool_decide as Hc; cbn in *.
  - intros [= <-]. subst c. by left.
  - intros H. right. by apply IH.
Qed.

(** X13, [disconnect] on a client object that is stored under no id (one
    that a later [connect] to the same host, port and user has replaced,
    for instance): the client is closed and that is all. No forwarding is
    stopped, also none that runs over this client; nothing is removed and
    no signal is emitted. *)
Theorem disconnect_unknown_client client_items forwarding_items cancel_ok cl
    st :
  client_items ≡ₚ map_to_list (clients st) →
  (∀ cid, clients st !! cid ≠ Some cl) →
  disconnect client_items forwarding_items cancel_ok (Some cl) st
  = emit [CloseClient cl] st.
Proof.
  intros Hperm Hno. unfold disconnect.
  rewrite find_client_id_none; [done|].
  apply Forall_forall. intros [cid c] Hin Hc. cbn in Hc. subst c.
  rewrite Hperm in Hin. apply elem_of_map_to_list in Hin. by apply Hno in Hin.
Qed.

(** X14, [disconnect] on a client stored under [cid], in a registry whose
    ids are the ones the dicts print: the client is stored under that id
    before and under none after; the effects end with the client being
    closed and the signal [connection_status_changed(cid, False)]; every
    registered forwarding of this client is marked inactive, dropped from
    the registry and announced as stopped, unless it is a remote
    forwarding whose [cancel_port_forward] raised, which stays registered
    and active; the forwardings of other clients are left as they were. *)
Theorem disconnect_registered_client client_items forwarding_items cancel_ok
    cl cid st :
  keyed st →
  client_items ≡ₚ map_to_list (clients st) →
  forwarding_items ≡ₚ map_to_list (forwardings st) →
  find_client_id cl client_items = Some cid → cid ≠ "" →
  let st' :=
    disconnect client_items forwarding_items cancel_ok (Some cl) st in
  clients st !! cid = Some cl ∧
  clients st' = delete cid (clients st) ∧
  keyed st' ∧
  (∃ es, emitted st st'
         = es ++ [CloseClient cl; EmitConnectionStatus cid false]) ∧
  ∀ k l f, forwardings st !! k = Some l → objs st !! l = Some f →
    if bool_decide (client f = cl) && cancels (cancel_ok l) f then
      forwardings st' !! k = None ∧ objs st' !! l = Some (deactivate f) ∧
      EmitForwardingStatus l false ∈ emitted st st'
    else
      forwardings st' !! k = Some l ∧ objs st' !! l = Some f.
Proof.
  intros Hkeyed Hcperm Hfperm Hfind Hne. cbv zeta. unfold disconnect.
  rewrite Hfind. unfold nonempty.
  destruct (String.eqb_spec cid "") as [->|_]; [done|]. cbn [negb].
  set (ids := forwardings_to_stop cl forwarding_items st).
  destruct (stop_each_spec cancel_ok ids st Hkeyed)
    as (es & -> & Hkeyed' & Hcl & He & Hout & Hobj & Hin).
  { apply filter_keys_NoDup. rewrite Hfperm. apply NoDup_fst_map_to_list. }
  { intros k Hk. apply (forwardings_to_stop_spec cl _ st k Hfperm) in Hk
      as (l & -> & _). by eexists. }
  split.
  { apply find_client_id_some in Hfind. rewrite Hcperm in Hfind.
    by apply elem_of_map_to_list in Hfind. }
  split; [cbn; by rewrite Hcl|]. split; [done|].
  assert (emitted st
            (emit [EmitConnectionStatus cid false]
               (set_clients
                  (delete cid (clients (stop_each cancel_ok ids st).2))
                  (emit [CloseClient cl] (stop_each cancel_ok ids st).2)))
          = es ++ [CloseClient cl; EmitConnectionStatus cid false]) as Hem.
  { unfold emitted. cbn. rewrite He, <- !app_assoc, drop_app_length. done. }
  split; [by exists es|]. rewrite Hem.
  intros k l f Hk Hf. cbn [forwardings objs emit set_clients].
  case_bool_decide as Hc; cbn [andb].
  - assert (k ∈ ids) as Hkin.
    { apply (forwardings_to_stop_spec cl _ st k Hfperm). exists l.
      by rewrite Hf, <- Hc. }
    specialize (Hin k l f Hkin Hk Hf).
    destruct (cancels (cancel_ok l) f); [|done].
    destruct Hin as (? & ? & ?). repeat split; [done..|].
    apply elem_of_app. by left.
  - assert (k ∉ ids) as Hkout.
    { intros (l' & Hk' & Hcl')%(forwardings_to_stop_spec cl _ st k Hfperm).
      rewrite Hk in Hk'. injection Hk' as <-. rewrite Hf in Hcl'.
      by injection Hcl'. }
    split; [by rewrite Hout|]. rewrite Hobj; [done|].
    intros k' Hk' Hkl'. apply Hkout.
    by rewrite <- (keyed_inj st k' k l Hkeyed Hkl' Hk).
Qed.

Lemma session_loc_fresh {A} (m : gmap loc A) : m !! new_loc m = None.
Proof. apply not_elem_of_dom, is_fresh. Qed.

(** Registering a new dict under the id it prints. *)
Lemma keyed_insert k fwd es st :
  keyed st → forwarding_id fwd = Some k →
  keyed (emit es
           (set_forwardings (<[k := new_loc (objs st)]> (forwardings st))
              (set_objs (<[new_loc (objs st) := fwd]> (objs st)) st))).
Proof.
  intros Hkeyed Hid k' l' Hk'. cbn in *.
  destruct (decide (k = k')) as [<-|Hne].
  - rewrite lookup_insert_eq in Hk'. injection Hk' as <-.
    exists fwd. by rewrite lookup_insert_eq.
  - rewrite lookup_insert_ne in Hk' by done.
    destruct (Hkeyed k' l' Hk') as (f & Hf & Hidf). exists f.
    split; [|done]. rewrite lookup_insert_ne; [done|].
    intros <-. by rewrite session_loc_fresh in Hf.
Qed.

Lemma stop_each_keeps_keyed cancel_ok ids st :
  keyed st → keyed (stop_each cancel_ok ids st).2.
Proof.
  revert st. induction ids as [|k ids IH]; intros st Hkeyed; [done|].
  cbn. destruct (forwardings st !! k) as [l|] eqn:Hk; [|done].
  apply IH. by apply (stop_forwarding_keeps_keyed _ k).
Qed.

(** X15, the registry of [SSHManager] is keyed by what the dicts print: in
    the empty manager, and after every [start_local_forwarding],
    [start_remote_forwarding], [start_dynamic_forwarding],
    [stop_forwarding] of a registered dict, [connect], [disconnect] and
    listener thread step, every id of [self.forwardings] refers to a dict
    from whose type, host and port that id is printed. So
    [stop_forwarding], which computes the id to delete from the dict,
    deletes the entry of the dict it is given. *)
Theorem registry_stays_keyed :
  keyed init ∧
  ∀ st, keyed st →
    (∀ t ok cl h p rh rp,
       keyed (start_local_forwarding t ok cl h p rh rp st).2) ∧
    (∀ t ok cl h p lh lp,
       keyed (start_remote_forwarding t ok cl h p lh lp st).2) ∧
    (∀ t ok cl h p, keyed (start_dynamic_forwarding t ok cl h p st).2) ∧
    (∀ c k l,
       forwardings st !! k = Some l → keyed (stop_forwarding c l st)) ∧
    (∀ e h p u pw key pp, keyed (connect e h p u pw key pp st).2) ∧
    (∀ bound l, keyed (_local_forwarding_thread bound l st) ∧
                keyed (_dynamic_forwarding_thread bound l st)) ∧
    (∀ client_items forwarding_items cancel_ok cl,
       keyed (disconnect client_items forwarding_items cancel_ok cl st)).
Proof.
  split.
  { intros k l Hk. cbn in Hk. by rewrite lookup_empty in Hk. }
  intros st Hkeyed. repeat split.
  - intros t ok [cl|] h p rh rp; [|done]. unfold start_local_forwarding.
    destruct ok; [|done]. by apply (keyed_insert _ _ _ st Hkeyed).
  - intros t ok [cl|] h p lh lp; [|done]. unfold start_remote_forwarding.
    destruct (_ && _); [|done]. by apply keyed_insert.
  - intros t ok [cl|] h p; [|done]. unfold start_dynamic_forwarding.
    destruct ok; [|done]. by apply (keyed_insert _ _ _ st Hkeyed).
  - intros c k l Hk. by apply (stop_forwarding_keeps_keyed c k).
  - intros e h p u pw key pp. unfold connect.
    destruct (build_kwargs _ _ _ _ _ _ _); [|done].
    by destruct (client_connect _ _).
  - unfold _local_forwarding_thread.
    destruct (objs st !! l) as [f|] eqn:Hf; [|done].
    destruct bound; [done|]. intros k' l' Hk'. cbn in *.
    destruct (Hkeyed k' l' Hk') as (f' & Hf' & Hid').
    destruct (decide (l = l')) as [->|Hne].
    + exists (deactivate f'). by rewrite lookup_alter_eq, Hf'.
    + exists f'. by rewrite lookup_alter_ne.
  - unfold _dynamic_forwarding_thread.
    destruct (objs st !! l) as [f|] eqn:Hf; [|done].
    destruct bound; [done|]. intros k' l' Hk'. cbn in *.
    destruct (Hkeyed k' l' Hk') as (f' & Hf' & Hid').
    destruct (decide (l = l')) as [->|Hne].
    + exists (deactivate f'). by rewrite lookup_alter_eq, Hf'.
    + exists f'. by rewrite lookup_alter_ne.
  - intros client_items forwarding_items cancel_ok [cl|]; [|done].
    unfold disconnect. destruct (find_client_id _ _) as [cid|]; [|done].
    destruct (nonempty cid); [|done].
    pose proof (stop_each_keeps_keyed cancel_ok
                  (forwardings_to_stop cl forwarding_items st) st Hkeyed).
    by destruct (stop_each _ _ _).1.
Qed.

(** X16, [stop_forwarding] on the dict a start has just returned. For a
    local and a dynamic forwarding, and for a remote one whose
    [cancel_port_forward] returns: the dict is marked inactive, no other
    dict is touched, one started and one stopped signal are emitted, and
    the registry is the one before the start without the id. So the
    registry is restored when the id was new; when an older forwarding was
    registered on the same address, its entry is gone as well while its
    dict is left as it was. For a remote forwarding whose
    [cancel_port_forward] raises, the dict stays registered and active and
    no stopped signal is emitted. *)
Theorem stop_after_start t cl host port target_host target_port st :
  let l := new_loc (objs st) in
  (let i := "local:" +:+ host +:+ ":" +:+ pretty port in
   let r := start_local_forwarding t true (Some cl) host port target_host
              target_port st in
   ∀ c,
     let st' := stop_forwarding c l r.2 in
     r.1 = Some l ∧
     forwardings st' = delete i (forwardings st) ∧
     (∀ l0, l0 ≠ l → objs st' !! l0 = objs st !! l0) ∧
     active <$> objs st' !! l = Some false ∧
     emitted st st' = [EmitForwardingStatus l true;
                       EmitForwardingStatus l false]) ∧
  (let i := "dynamic:" +:+ host +:+ ":" +:+ pretty port in
   let r := start_dynamic_forwarding t true (Some cl) host port st in
   ∀ c,
     let st' := stop_forwarding c l r.2 in
     r.1 = Some l ∧
     forwardings st' = delete i (forwardings st) ∧
     (∀ l0, l0 ≠ l → objs st' !! l0 = objs st !! l0) ∧
     active <$> objs st' !! l = Some false ∧
     emitted st st' = [EmitForwardingStatus l true;
                       EmitForwardingStatus l false]) ∧
  (let i := "remote:" +:+ host +:+ ":" +:+ pretty port in
   ∀ t0,
     let r := start_remote_forwarding (Some t0) true (Some cl) host port
                target_host target_port st in
     r.1 = Some l ∧
     (let st' := stop_forwarding true l r.2 in
      forwardings st' = delete i (forwardings st) ∧
      (∀ l0, l0 ≠ l → objs st' !! l0 = objs st !! l0) ∧
      active <$> objs st' !! l = Some false ∧
      emitted st st' = [RequestPortForward host port;
                        EmitForwardingStatus l true;
                        CancelPortForward host port;
                        EmitForwardingStatus l false]) ∧
     (let st' := stop_forwarding false l r.2 in
      forwardings st' !! i = Some l ∧
      active <$> objs st' !! l = Some true ∧
      emitted st st' = [RequestPortForward host port;
                        EmitForwardingStatus l true;
                        CancelPortForward host port])).
Proof.
  cbv zeta. repeat split; cbn; unfold stop_forwarding; cbn;
    rewrite ?lookup_insert_eq; cbn;
    rewrite ?lookup_alter_eq, ?lookup_insert_eq, ?delete_insert_eq; cbn;
    try done;
    try (intros; rewrite lookup_alter_ne, lookup_insert_ne by done; done);
    try (unfold emitted; cbn; rewrite <- ?app_assoc;
         by rewrite drop_app_length).
Qed.

(** X17, [start_local_forwarding] and [start_dynamic_forwarding] with a
    client and a thread that starts, together with the thread they start,
    in every order in which the two may run: the start returns the new
    dict, stores it under its id and announces it as started whatever
    becomes of the listener, whose outcome never reaches the caller. When
    the thread binds, it listens on the host and port given, before or
    after the started signal. When it cannot (the port is taken, say), the
    dict ends up inactive but stays registered under its id, and the
    started signal is still the only effect: no signal withdraws it. *)
Theorem listener_start_reports_whatever_binds when bound client_transport cl
    host port remote_host remote_port st :
  let l := new_loc (objs st) in
  let heard sock := ListenOn sock host port in
  let started := EmitForwardingStatus l true in
  let both (id : string) (return_value : option loc) (fin : state) :=
    return_value = Some l ∧
    clients fin = clients st ∧
    forwardings fin = <[id := l]> (forwardings st) ∧
    (∀ l', l' ≠ l → objs fin !! l' = objs st !! l') ∧
    active <$> objs fin !! l = Some (bool_decide (is_Some bound)) ∧
    match bound with
    | Some sock =>
      emitted st fin
      = (if (when <? 2)%nat then [heard sock; started]
         else [started; heard sock])
    | None => emitted st fin = [started]
    end in
  objs st !! l = None ∧
  both ("local:" +:+ host +:+ ":" +:+ pretty port)
    (start_local_forwarding client_transport true (Some cl) host port
       remote_host remote_port st).1
    (local_start_with_thread when bound client_transport cl host port
       remote_host remote_port st) ∧
  both ("dynamic:" +:+ host +:+ ":" +:+ pretty port)
    (start_dynamic_forwarding client_transport true (Some cl) host port st).1
    (dynamic_start_with_thread when bound client_transport cl host port st) ∧
  (_local_forwarding_thread bound l
     (start_local_forwarding client_transport true (Some cl) host port
        remote_host remote_port st).2
   = local_start_with_thread 2 bound client_transport cl host port
       remote_host remote_port st) ∧
  _dynamic_forwarding_thread bound l
    (start_dynamic_forwarding client_transport true (Some cl) host port st).2
  = dynamic_start_with_thread 2 bound client_transport cl host port st.
Proof.
  cbv zeta. split; [apply session_loc_fresh|].
  unfold local_start_with_thread, dynamic_start_with_thread, interleave,
    _local_forwarding_thread, _dynamic_forwarding_thread.
  repeat split; try done;
    destruct when as [|[|when]]; destruct bound as [sock|]; cbn;
    rewrite ?take_nil, ?drop_nil; cbn;
    rewrite ?lookup_insert_eq; cbn;
    rewrite ?lookup_alter_eq, ?lookup_insert_eq; cbn; try done;
    try (intros l' Hl';
         rewrite ?lookup_alter_ne, ?lookup_insert_ne by done; done);
    try (unfold emitted; cbn; rewrite <- ?app_assoc;
         apply (drop_app_length (effects st))).
Qed.
End SessionFacts.

Lemma one_remote_forwarding_keyed :
  SSHManager.keyed Scenarios.one_remote_forwarding.
Proof.
  apply (keyed_insert "remote:0.0.0.0:8080" Scenarios.remote_forwarding_dict
           _ Scenarios.one_session); [|done].
  intros k l Hk. vm_compute in Hk. discriminate Hk.
Qed.

(** The session of the scenarios closed after a later [connect] has
    replaced its client 0 by client 1. *)
Lemma disconnect_unknown_client_witness :
  SSHManager.disconnect [("127.0.0.1:2222:t", 1%nat)] [] (λ _, true)
    (Some 0%nat)
    (SSHManager.connect Scenarios.password_server "127.0.0.1" 2222 "t" "t"
       "" "" Scenarios.one_session).2
  = SSHManager.emit [CloseClient 0%nat]
      (SSHManager.connect Scenarios.password_server "127.0.0.1" 2222 "t" "t"
         "" "" Scenarios.one_session).2.
Proof.
  apply (disconnect_unknown_client [("127.0.0.1:2222:t", 1%nat)] []
           (λ _, true) 0%nat).
  - vm_compute. reflexivity.
  - intros cid Hc.
    change (({["127.0.0.1:2222:t" := 1%nat]} : gmap string handle) !! cid
            = Some 0%nat) in Hc.
    apply lookup_singleton_Some in Hc as [_ Hc]. discriminate Hc.
Defined.

(** The session with the remote forwarding 0.0.0.0:8080, disconnected. *)
Lemma disconnect_registered_client_witness :
  SSHManager.forwardings
    (SSHManager.disconnect [("127.0.0.1:2222:t", 0%nat)]
       [("remote:0.0.0.0:8080", 0%nat)] (λ _, true) (Some 0%nat)
       Scenarios.one_remote_forwarding) !! "remote:0.0.0.0:8080" = None.
Proof.
  destruct (disconnect_registered_client [("127.0.0.1:2222:t", 0%nat)]
              [("remote:0.0.0.0:8080", 0%nat)] (λ _, true) 0%nat
              "127.0.0.1:2222:t" Scenarios.one_remote_forwarding
              one_remote_forwarding_keyed)
    as (_ & _ & _ & _ & Hfw).
  - vm_compute. reflexivity.
  - vm_compute. reflexivity.
  - reflexivity.
  - discriminate.
  - exact (proj1 (Hfw "remote:0.0.0.0:8080" 0%nat
                    Scenarios.remote_forwarding_dict eq_refl eq_refl)).
Defined.

(** * Connections: registered, pumped, closed *)
Section ConnectionFacts.
Import PortForwarder.

Lemma list_remove_subset c cs x : x ∈ list_remove c cs → x ∈ cs.
Proof.
  induction cs as [|y cs IH]; [done|]. cbn.
  destruct (y =? c)%nat; [by right|].
  intros [->|H]%elem_of_cons; [by left|right; by apply IH].
Qed.

Lemma list_remove_NoDup c cs : NoDup cs → NoDup (list_remove c cs).
Proof.
  induction 1 as [|y cs Hy Hnd IH]; [constructor|]. cbn.
  destruct (y =? c)%nat; [done|]. constructor; [|done].
  intros H. by apply list_remove_subset in H.
Qed.

Lemma list_remove_gone c cs : NoDup cs → c ∉ list_remove c cs.
Proof.
  induction 1 as [|y cs Hy Hnd IH]; [apply not_elem_of_nil|]. cbn.
  destruct (Nat.eqb_spec y c) as [->|Hne]; [done|].
  apply not_elem_of_cons. split; [congruence|done].
Qed.

Lemma list_remove_others c cs x : x ≠ c → x ∈ cs → x ∈ list_remove c cs.
Proof.
  intros Hne. induction cs as [|y cs IH]; [done|]. cbn.
  destruct (Nat.eqb_spec y c) as [->|Hyc].
  - intros [->|H]%elem_of_cons; done.
  - intros [->|H]%elem_of_cons; [by left|right; by apply IH].
Qed.

Lemma list_remove_last c cs : c ∉ cs → list_remove c (cs ++ [c]) = cs.
Proof.
  induction cs as [|y cs IH]; cbn.
  - by rewrite Nat.eqb_refl.
  - intros [Hne Hc]%not_elem_of_cons.
    destruct (Nat.eqb_spec y c) as [->|_]; [done|]. by rewrite IH.
Qed.

(** A step that alters one dict by [g] and keeps or extends the connection
    dicts. *)
Lemma connections_known_update g l0 st st' :
  connections_known st →
  objs st' = alter g l0 (objs st) →
  (∀ c, is_Some (conns st !! c) → is_Some (conns st' !! c)) →
  (∀ f, objs st !! l0 = Some f →
     NoDup (f_connections (g f)) ∧
     ∀ c, c ∈ f_connections (g f) → is_Some (conns st' !! c)) →
  connections_known st'.
Proof.
  intros Hk Ho Hc Hg l f Hf. rewrite Ho in Hf.
  destruct (decide (l0 = l)) as [->|Hne].
  - rewrite lookup_alter_eq in Hf.
    destruct (objs st !! l) as [f0|] eqn:Hf0; [|done].
    injection Hf as <-. by apply Hg.
  - rewrite lookup_alter_ne in Hf by done.
    destruct (Hk l f Hf) as [Hnd Hin]. split; [done|]. intros c Hcin.
    by apply Hc, Hin.
Qed.

Lemma alter_is_Some {A} (g : A → A) (m : gmap loc A) c0 c :
  is_Some (m !! c) → is_Some (alter g c0 m !! c).
Proof.
  intros [x Hx]. destruct (decide (c0 = c)) as [->|Hne].
  - rewrite lookup_alter_eq, Hx. by eexists.
  - rewrite lookup_alter_ne by done. by eexists.
Qed.

Ltac same_connections Hk :=
  eapply connections_known_update; [exact Hk|reflexivity|done|];
  let f := fresh "f" in let Hf := fresh "Hf" in
  intros f Hf; cbn; try apply (Hk _ f Hf).

Lemma add_forwarding_known ty cfg st :
  connections_known st → connections_known (add_forwarding ty cfg st).2.
Proof.
  intros Hk. unfold add_forwarding.
  destruct (forwarding_id_of ty cfg) as [i|]; [|done].
  destruct (forwardings st !! i); [done|]. cbn.
  intros l f Hf. cbn in Hf.
  destruct (decide (new_loc (objs st) = l)) as [<-|Hne].
  - rewrite lookup_insert_eq in Hf. injection Hf as <-. cbn.
    split; [constructor|]. intros c Hc. by apply elem_of_nil in Hc.
  - rewrite lookup_insert_ne in Hf by done. by apply (Hk l f).
Qed.

Lemma start_forwarding_known e i st :
  connections_known st → connections_known (start_forwarding e i st).2.
Proof.
  intros Hk. unfold start_forwarding.
  destruct (forwardings st !! i) as [l|]; [|done].
  destruct (objs st !! l) as [f|]; [|done].
  destruct (f_active f); [done|].
  unfold _start_local_forwarding, _start_remote_forwarding,
    _start_dynamic_forwarding, _start_internal_forwarding, start_listener.
  repeat case_match; cbn; try done; same_connections Hk.
Qed.

Lemma stop_forwarding_known i st :
  connections_known st → connections_known (stop_forwarding i st).2.
Proof.
  intros Hk. unfold stop_forwarding.
  destruct (forwardings st !! i) as [l|]; [|done].
  destruct (objs st !! l) as [f|]; [|done].
  destruct (f_active f); cbn; [|done].
  eapply connections_known_update; [exact Hk|reflexivity|done|].
  intros f0 _. cbn. split; [constructor|].
  intros c Hc. by apply elem_of_nil in Hc.
Qed.

Lemma register_connection_known l conn st :
  connections_known st →
  connections_known (register_connection l conn st).2.
Proof.
  intros Hk. unfold register_connection. cbn.
  eapply connections_known_update; [exact Hk|reflexivity| |].
  - intros c [x Hx]. cbn.
    destruct (decide (new_loc (conns st) = c)) as [<-|Hne].
    + rewrite lookup_insert_eq. by eexists.
    + rewrite lookup_insert_ne by done. by eexists.
  - intros f Hf. cbn. destruct (Hk l f Hf) as [Hnd Hin]. split.
    + apply NoDup_app. split; [done|]. split; [|apply NoDup_singleton].
      intros c Hc Hc'%list_elem_of_singleton. subst c.
      apply Hin in Hc as [x Hx]. by rewrite new_loc_fresh in Hx.
    + intros c [Hc|Hc%list_elem_of_singleton]%elem_of_app; [|subst c].
      * destruct (Hin c Hc) as [x Hx].
        destruct (decide (new_loc (conns st) = c)) as [<-|Hne].
        -- rewrite lookup_insert_eq. by eexists.
        -- rewrite lookup_insert_ne by done. by eexists.
      * rewrite lookup_insert_eq. by eexists.
Qed.

Lemma count_sent_known l c data st :
  connections_known st → connections_known (count_sent l c data st).
Proof.
  intros Hk. unfold count_sent.
  eapply connections_known_update; [exact Hk|reflexivity| |].
  - intros c0. cbn. apply alter_is_Some.
  - intros f Hf. cbn. destruct (Hk l f Hf) as [Hnd Hin]. split; [done|].
    intros c0 Hc0. by apply alter_is_Some, Hin.
Qed.

Lemma count_received_known l c data st :
  connections_known st → connections_known (count_received l c data st).
Proof.
  intros Hk. unfold count_received.
  eapply connections_known_update; [exact Hk|reflexivity| |].
  - intros c0. cbn. apply alter_is_Some.
  - intros f Hf. cbn. destruct (Hk l f Hf) as [Hnd Hin]. split; [done|].
    intros c0 Hc0. by apply alter_is_Some, Hin.
Qed.

Lemma pump_iteration_known l c r st :
  connections_known st → connections_known (pump_iteration l c r st).2.
Proof.
  intros Hk. unfold pump_iteration.
  destruct (on_socket r) as [|d1 ok1|]; cbn;
    repeat (case_match; cbn); try done;
    repeat first [apply count_received_known | apply count_sent_known]; done.
Qed.

Lemma pump_finish_known l c st :
  connections_known st → connections_known (pump_finish l c st).
Proof.
  intros Hk. unfold pump_finish.
  eapply connections_known_update; [exact Hk|reflexivity|done|].
  intros f Hf. cbn. destruct (Hk l f Hf) as [Hnd Hin]. split.
  - by apply list_remove_NoDup.
  - intros c0 Hc0. by apply Hin, (list_remove_subset c).
Qed.

Lemma handle_forwarding_known l c rounds st :
  connections_known st →
  connections_known (_handle_forwarding l c rounds st).
Proof.
  revert st. induction rounds as [|r rounds IH]; intros st Hk; cbn.
  - destruct (is_active l st); cbn; [done|by apply pump_finish_known].
  - destruct (is_active l st); cbn; [|by apply pump_finish_known].
    destruct (pump_iteration l c r st).1 eqn:Hgo.
    + by apply IH, pump_iteration_known.
    + by apply pump_finish_known, pump_iteration_known.
Qed.

Lemma alloc_connection_known conn st :
  connections_known st →
  connections_known
    (set_conns (<[new_loc (conns st) := conn]> (conns st)) st).
Proof.
  intros Hk l f Hf. cbn in *. destruct (Hk l f Hf) as [Hnd Hin].
  split; [done|]. intros c Hc. destruct (Hin c Hc) as [x Hx].
  destruct (decide (new_loc (conns st) = c)) as [<-|Hne].
  - rewrite lookup_insert_eq. by eexists.
  - rewrite lookup_insert_ne by done. by eexists.
Qed.

Lemma socks_thread_known l segments o sock now rounds st :
  connections_known st →
  connections_known (socks_thread l segments o sock now rounds st).2.
Proof.
  intros Hk. unfold socks_thread.
  destruct o; try done.
  destruct (last _) as [[]|]; try done. cbn.
  by apply handle_forwarding_known, alloc_connection_known.
Qed.

Lemma apply_known o st :
  connections_known st → connections_known (apply o st).
Proof.
  intros Hk. destruct o; cbn.
  - by apply add_forwarding_known.
  - by apply start_forwarding_known.
  - by apply stop_forwarding_known.
  - unfold remove_forwarding. cbn.
    pose proof (stop_forwarding_known forwarding_id st Hk) as Hk'.
    intros l f Hf. by apply (Hk' l f).
  - by apply register_connection_known.
  - by apply pump_iteration_known.
  - by apply pump_finish_known.
  - unfold thread_failed. same_connections Hk.
  - by apply socks_thread_known.
Qed.

Lemma run_known ops st :
  connections_known st → connections_known (run ops st).
Proof.
  revert st. induction ops as [|o ops IH]; intros st Hk; [done|].
  cbn. by apply IH, apply_known.
Qed.

Lemma init_known : connections_known init.
Proof. intros l f Hf. cbn in Hf. by rewrite lookup_empty in Hf. Qed.

Lemma close_connections_members st cs c conn :
  c ∈ cs → conns st !! c = Some conn →
  CloseSocket (c_socket conn) ∈ close_connections st cs ∧
  CloseChannel (c_channel conn) ∈ close_connections st cs.
Proof.
  intros Hc Hconn. unfold close_connections.
  split; apply list_elem_of_In, in_flat_map; exists c;
    (split; [by apply list_elem_of_In|]); rewrite Hconn; cbn; auto.
Qed.

Lemma close_connections_length st cs :
  Forall (λ c, is_Some (conns st !! c)) cs →
  length (close_connections st cs) = (2 * length cs)%nat.
Proof.
  unfold close_connections. induction 1 as [|c cs [conn Hc] _ IH]; [done|].
  cbn. rewrite Hc. cbn. rewrite IH. lia.
Qed.

(** X18, [stop_forwarding] on a running rule, in any state a fresh manager
    can reach: the server socket, if there is one, is closed; every
    connection on the rule's list has a connection dict, and its socket
    and its channel are closed; nothing else is done but the stopped
    signal, which comes last; the list is left empty. *)
Theorem stop_closes_every_connection ops i l f :
  let st := run ops init in
  forwardings st !! i = Some l → objs st !! l = Some f →
  f_active f = true →
  let es := emitted st (stop_forwarding i st).2 in
  (∀ sock, f_server_socket f = Some sock → CloseServerSocket sock ∈ es) ∧
  (∀ c, c ∈ f_connections f →
     ∃ conn, conns st !! c = Some conn ∧
             CloseSocket (c_socket conn) ∈ es ∧
             CloseChannel (c_channel conn) ∈ es) ∧
  length es
  = (length (close_server_socket (f_server_socket f))
     + 2 * length (f_connections f) + 1)%nat ∧
  last es = Some (EmitForwardingStatus l false) ∧
  f_connections <$> objs (stop_forwarding i st).2 !! l = Some [].
Proof.
  cbv zeta. intros Hi Hl Ha.
  pose proof (run_known ops init init_known l f Hl) as [_ Hin].
  rewrite (stop_forwarding_effects i _ l f Hi Hl Ha).
  split; [|split; [|split; [|split]]].
  - intros sock ->. apply elem_of_app. left. by left.
  - intros c Hc. destruct (Hin c Hc) as [conn Hconn]. exists conn.
    split; [done|].
    destruct (close_connections_members _ _ c conn Hc Hconn) as [Hs Hch].
    split; apply elem_of_app; right; apply elem_of_app; by left.
  - rewrite !length_app, close_connections_length; [cbn; lia|].
    by apply Forall_forall.
  - by rewrite !app_assoc, last_snoc.
  - unfold stop_forwarding. rewrite Hi, Hl, Ha. cbn.
    by rewrite lookup_alter_eq, Hl.
Qed.

Lemma with_connections_same f : with_connections (f_connections f) f = f.
Proof. by destruct f. Qed.

(** A connection registered on a stopped rule and given to the pump. *)
Lemma pump_on_stopped_rule l f conn rounds st :
  connections_known st → objs st !! l = Some f → f_active f = false →
  let r := register_connection l conn st in
  objs (_handle_forwarding l r.1 rounds r.2) = objs st ∧
  forwardings (_handle_forwarding l r.1 rounds r.2) = forwardings st ∧
  emitted st (_handle_forwarding l r.1 rounds r.2)
  = [CloseSocket (c_socket conn); CloseChannel (c_channel conn)].
Proof.
  intros Hk Hl Ha. cbv zeta.
  assert (_handle_forwarding l (register_connection l conn st).1 rounds
            (register_connection l conn st).2
          = pump_finish l (register_connection l conn st).1
              (register_connection l conn st).2) as ->.
  { destruct rounds; cbn; unfold is_active; cbn;
      by rewrite lookup_alter_eq, Hl; cbn; rewrite Ha. }
  unfold pump_finish, register_connection. cbn.
  split; [|split; [done|]].
  - apply map_eq. intros l'.
    destruct (decide (l = l')) as [<-|Hne].
    + rewrite !lookup_alter_eq, Hl. cbn. f_equal.
      rewrite list_remove_last.
      * destruct f; done.
      * intros Hc. apply (Hk l f Hl) in Hc as [x Hx].
        by rewrite new_loc_fresh in Hx.
    + by rewrite !lookup_alter_ne.
  - unfold emitted, close_connections. cbn. rewrite lookup_insert_eq. cbn.
    by rewrite drop_app_length.
Qed.

(** X19, a connection that the SSH server still delivers for a remote
    forwarding that is stopped. [PortForwarder._handle_remote_connection]
    does not look at the flag: it dials the local target, and the pump
    then gives up at once, so that the socket and the channel are closed
    and the dicts are as before; when the dial fails only the channel is
    closed. [SSHManager._remote_forwarding_handler] closes the channel
    without dialling. *)
Theorem late_remote_connection ops l f sock chan now rounds :
  let st := run ops init in
  objs st !! l = Some f → f_active f = false →
  (let st' := _handle_remote_connection (Some sock) now l chan rounds st in
   objs st' = objs st ∧ forwardings st' = forwardings st ∧
   emitted st st' = [CloseSocket sock; CloseChannel chan]) ∧
  _handle_remote_connection None now l chan rounds st
  = emit [CloseChannel chan] st ∧
  ∀ dial l' (s : SSHManager.state) g,
    SSHManager.objs s !! l' = Some g → SSHManager.active g = false →
    SSHManager._remote_forwarding_handler dial chan l' s
    = (false, SSHManager.emit [CloseChannel chan] s).
Proof.
  cbv zeta. intros Hl Ha. split; [|split; [done|]].
  - unfold _handle_remote_connection.
    apply (pump_on_stopped_rule l f
             {| c_socket := sock; c_channel := chan; c_start_time := now;
                c_bytes_sent := 0; c_bytes_received := 0 |} rounds _
             (run_known ops init init_known) Hl Ha).
  - intros dial l' s g Hg Hga. unfold SSHManager._remote_forwarding_handler.
    by rewrite Hg, Hga.
Qed.

(** X20, [_handle_internal_connection] for one accepted client. Without an
    SSH client in the config, when [open_channel] returns None and when it
    raises, the client socket is closed and nothing else changes. With a
    channel on a running rule, a new connection dict with both counters
    at 0 is appended to the rule's list and nothing is emitted until data
    flows; on a stopped rule the socket and the channel are closed at once
    and the dicts are as before. *)
Theorem internal_connection_outcomes ops l f sock now rounds :
  let st := run ops init in
  objs st !! l = Some f →
  (∀ o, ssh_client (f_config f) = None ∨ o = Socks.NoChannel
        ∨ o = Socks.OpenFailed →
     _handle_internal_connection o now l sock rounds st
     = emit [CloseSocket sock] st) ∧
  (∀ chan,
     is_Some (ssh_client (f_config f)) →
     let conn := {| c_socket := sock; c_channel := chan; c_start_time := now;
                    c_bytes_sent := 0; c_bytes_received := 0 |} in
     let c := new_loc (conns st) in
     (f_active f = true →
      let st' := _handle_internal_connection (Socks.Opened chan) now l sock []
                   st in
      conns st !! c = None ∧ conns st' !! c = Some conn ∧
      objs st' !! l = Some (with_connections (f_connections f ++ [c]) f) ∧
      effects st' = effects st) ∧
     (f_active f = false →
      let st' := _handle_internal_connection (Socks.Opened chan) now l sock
                   rounds st in
      objs st' = objs st ∧
      emitted st st' = [CloseSocket sock; CloseChannel chan])).
Proof.
  cbv zeta. intros Hl. split.
  - intros o Ho. unfold _handle_internal_connection. rewrite Hl.
    destruct Ho as [->|[->| ->]]; [done|by destruct (ssh_client _)..].
  - intros chan [cl Hcl]. split.
    + intros Ha. unfold _handle_internal_connection. rewrite Hl, Hcl. cbn.
      unfold is_active. cbn. rewrite lookup_alter_eq, Hl. cbn. rewrite Ha.
      cbn. rewrite lookup_alter_eq, Hl, lookup_insert_eq. cbn.
      split; [apply new_loc_fresh|done].
    + intros Ha. unfold _handle_internal_connection. rewrite Hl, Hcl.
      destruct (pump_on_stopped_rule l f
                  {| c_socket := sock; c_channel := chan;
                     c_start_time := now; c_bytes_sent := 0;
                     c_bytes_received := 0 |} rounds _
                  (run_known ops init init_known) Hl Ha) as (? & _ & ?).
      done.
Qed.

Lemma alter_connection (g : connection → connection) c
    (m : gmap loc connection) c0 conn :
  (∀ x, c_socket (g x) = c_socket x ∧ c_channel (g x) = c_channel x) →
  m !! c0 = Some conn →
  ∃ conn', alter g c m !! c0 = Some conn' ∧
           c_socket conn' = c_socket conn ∧ c_channel conn' = c_channel conn.
Proof.
  intros Hg Hc. destruct (decide (c = c0)) as [->|Hne].
  - exists (g conn). rewrite lookup_alter_eq, Hc. by destruct (Hg conn).
  - exists conn. by rewrite lookup_alter_ne.
Qed.

(** One turn of the pump keeps every connection dict on its socket and
    channel, and only adds effects. *)
Lemma pump_iteration_connection l c r st c0 conn :
  conns st !! c0 = Some conn →
  ∃ conn', conns (pump_iteration l c r st).2 !! c0 = Some conn' ∧
           c_socket conn' = c_socket conn ∧ c_channel conn' = c_channel conn.
Proof.
  intros Hc. unfold pump_iteration.
  destruct (on_socket r) as [|d1 ok1|]; cbn;
    repeat (case_match; cbn); eauto;
    try (by apply alter_connection);
    match goal with
    | |- context [alter _ c (alter ?g c (conns st))] =>
      destruct (alter_connection g c (conns st) c0 conn)
        as (conn1 & H1' & <- & <-); [done|done|];
      by apply alter_connection
    end.
Qed.

Lemma pump_iteration_effects l c r st :
  ∃ es, effects (pump_iteration l c r st).2 = effects st ++ es.
Proof.
  unfold pump_iteration.
  destruct (on_socket r) as [|d1 ok1|]; cbn;
    repeat (case_match; cbn);
    first [ by exists []; rewrite app_nil_r
          | by rewrite <- ?app_assoc; eexists ].
Qed.

Lemma handle_forwarding_finishes l c rounds r st f conn :
  (∀ st0, (pump_iteration l c r st0).1 = false) →
  connections_known st → objs st !! l = Some f → conns st !! c = Some conn →
  ∃ stk fk connk es,
    _handle_forwarding l c (rounds ++ [r]) st = pump_finish l c stk ∧
    connections_known stk ∧ objs stk !! l = Some fk ∧
    conns stk !! c = Some connk ∧ c_socket connk = c_socket conn ∧
    c_channel connk = c_channel conn ∧ effects stk = effects st ++ es.
Proof.
  intros Hfinal. revert st f conn.
  assert (∀ r0 st f conn,
            connections_known st → objs st !! l = Some f →
            conns st !! c = Some conn →
            ∃ fk connk es,
              connections_known (pump_iteration l c r0 st).2 ∧
              objs (pump_iteration l c r0 st).2 !! l = Some fk ∧
              conns (pump_iteration l c r0 st).2 !! c = Some connk ∧
              c_socket connk = c_socket conn ∧
              c_channel connk = c_channel conn ∧
              effects (pump_iteration l c r0 st).2 = effects st ++ es)
    as Hstep.
  { intros r0 st f conn Hk Hl Hc.
    destruct (pump_iteration_evolves l c r0 st l f Hl) as (fk & Hfk & _).
    destruct (pump_iteration_connection l c r0 st c conn Hc)
      as (connk & Hck & Hs & Hch).
    destruct (pump_iteration_effects l c r0 st) as [es He].
    exists fk, connk, es. split; [by apply pump_iteration_known|done]. }
  induction rounds as [|r0 rounds IH]; intros st f conn Hk Hl Hc; cbn.
  - destruct (is_active l st); cbn.
    + rewrite Hfinal.
      destruct (Hstep r st f conn Hk Hl Hc)
        as (fk & connk & es & ? & ? & ? & ? & ? & ?).
      by exists (pump_iteration l c r st).2, fk, connk, es.
    + exists st, f, conn, []. by rewrite app_nil_r.
  - destruct (is_active l st); cbn.
    + destruct (Hstep r0 st f conn Hk Hl Hc)
        as (fk & connk & es & Hk1 & Hl1 & Hc1 & Hs1 & Hch1 & He1).
      destruct (pump_iteration l c r0 st).1.
      * destruct (IH _ fk connk Hk1 Hl1 Hc1)
          as (stk & fk' & connk' & es' & -> & Hk2 & Hl2 & Hc2 & Hs2 & Hch2
              & He').
        exists stk, fk', connk', (es ++ es').
        rewrite He', He1, app_assoc, Hs2, Hch2. done.
      * by exists (pump_iteration l c r0 st).2, fk, connk, es.
    + exists st, f, conn, []. by rewrite app_nil_r.
Qed.

(** X21, the end of [_handle_forwarding]: if the script of the pump ends
    with a turn that always leaves the loop (the client has closed its
    end, a [recv] or [sendall] raised, the channel is closed), then
    whatever the earlier turns were, and also when the rule is stopped in
    between, the last two things done are closing the connection's socket
    and its channel, and the connection is no longer on the rule's
    list. *)
Theorem pump_ends_with_cleanup ops l c f conn rounds r :
  let st := run ops init in
  objs st !! l = Some f → conns st !! c = Some conn →
  (∀ st0, (pump_iteration l c r st0).1 = false) →
  let st' := _handle_forwarding l c (rounds ++ [r]) st in
  (∃ f', objs st' !! l = Some f' ∧ c ∉ f_connections f') ∧
  ∃ es, emitted st st'
        = es ++ [CloseSocket (c_socket conn); CloseChannel (c_channel conn)].
Proof.
  cbv zeta. intros Hl Hc Hfinal.
  destruct (handle_forwarding_finishes l c rounds r _ f conn Hfinal
              (run_known ops init init_known) Hl Hc)
    as (stk & fk & connk & es & -> & Hk & Hlk & Hck & <- & <- & He).
  unfold pump_finish. cbn. split.
  - rewrite lookup_alter_eq, Hlk. cbn. eexists. split; [done|]. cbn.
    apply list_remove_gone. by apply (Hk l fk).
  - exists es. unfold emitted, close_connections. cbn.
    rewrite Hck, He. cbn. by rewrite <- app_assoc, drop_app_length.
Qed.

(** X22, [SSHManager.stop_forwarding] never closes anything: whatever the
    dict and whether or not the cancel request goes through, all it does
    to the outside is that request and the stopped signal. Connections
    that [_forward_data] is serving are not its business: their sockets
    and channels stay open. *)
Theorem ssh_stop_closes_nothing c l st e :
  e ∈ SSHManager.emitted st (SSHManager.stop_forwarding c l st) →
  (∃ host port, e = CancelPortForward host port) ∨
  e = EmitForwardingStatus l false.
Proof.
  unfold SSHManager.emitted, SSHManager.stop_forwarding,
    SSHManager.drop_forwarding.
  repeat case_match; simplify_eq; cbn;
    rewrite <- ?app_assoc, ?drop_app_length, ?drop_all;
    cbn; intros He;
    repeat (apply elem_of_cons in He as [->|He]);
    try (by apply elem_of_nil in He); eauto.
Qed.

End ConnectionFacts.

(** The local rule in use, stopped: its one connection is closed. *)
Lemma stop_closes_every_connection_witness :
  CloseSocket 11%nat
  ∈ PortForwarder.emitted Scenarios.local_rule_in_use
      (PortForwarder.stop_forwarding "local:127.0.0.1:18000"
         Scenarios.local_rule_in_use).2.
Proof.
  destruct (stop_closes_every_connection
              [PortForwarder.Add "local" Scenarios.local_rule;
               PortForwarder.Start Scenarios.fair_weather
                 "local:127.0.0.1:18000";
               PortForwarder.Register 0%nat Scenarios.a_connection]
              "local:127.0.0.1:18000" 0%nat Scenarios.local_rule_dict
              eq_refl eq_refl eq_refl) as (_ & Hconns & _).
  destruct (Hconns 0%nat) as (conn & Hconn & Hs & _).
  - apply list_elem_of_In. left. reflexivity.
  - injection Hconn as <-. exact Hs.
Defined.

(** The remote rule of the scenarios, added and never started, when the
    server delivers a connection. *)
Lemma late_remote_connection_witness :
  PortForwarder.emitted
    (PortForwarder.run [PortForwarder.Add "remote" Scenarios.remote_rule]
       PortForwarder.init)
    (PortForwarder._handle_remote_connection (Some 21%nat) 200 0%nat 22%nat
       [Scenarios.hello_round]
       (PortForwarder.run [PortForwarder.Add "remote" Scenarios.remote_rule]
          PortForwarder.init))
  = [CloseSocket 21%nat; CloseChannel 22%nat].
Proof.
  destruct (late_remote_connection
              [PortForwarder.Add "remote" Scenarios.remote_rule] 0%nat
              (PortForwarder.new_forwarding_info "remote:0.0.0.0:8080"
                 "remote" Scenarios.remote_rule)
              21%nat 22%nat 200 [Scenarios.hello_round] eq_refl eq_refl)
    as ((_ & _ & He) & _).
  exact He.
Defined.

(** A client of the internal rule of the scenarios whose channel is
    refused. *)
Lemma internal_connection_outcomes_witness :
  PortForwarder._handle_internal_connection Socks.NoChannel 200 0%nat 21%nat
    [Scenarios.hello_round]
    (PortForwarder.run [PortForwarder.Add "internal" Scenarios.internal_rule]
       PortForwarder.init)
  = PortForwarder.emit [CloseSocket 21%nat]
      (PortForwarder.run
         [PortForwarder.Add "internal" Scenarios.internal_rule]
         PortForwarder.init).
Proof.
  apply (proj1 (internal_connection_outcomes
                  [PortForwarder.Add "internal" Scenarios.internal_rule]
                  0%nat
                  (PortForwarder.new_forwarding_info "internal:10.0.0.5:80"
                     "internal" Scenarios.internal_rule)
                  21%nat 200 [Scenarios.hello_round] eq_refl)).
  right. left. reflexivity.
Defined.

(** The connection of the local rule in use: hello each way, then the
    client closes. *)
Lemma pump_ends_with_cleanup_witness :
  ∃ es,
    PortForwarder.emitted Scenarios.local_rule_in_use
      (PortForwarder._handle_forwarding 0%nat 0%nat
         ([Scenarios.hello_round] ++ [Scenarios.eof_round])
         Scenarios.local_rule_in_use)
    = es ++ [CloseSocket 11%nat; CloseChannel 12%nat].
Proof.
  refine (proj2 (pump_ends_with_cleanup
                   [PortForwarder.Add "local" Scenarios.local_rule;
                    PortForwarder.Start Scenarios.fair_weather
                      "local:127.0.0.1:18000";
                    PortForwarder.Register 0%nat Scenarios.a_connection]
                   0%nat 0%nat Scenarios.local_rule_dict
                   Scenarios.a_connection [Scenarios.hello_round]
                   Scenarios.eof_round eq_refl eq_refl _)).
  intros st0. reflexivity.
Defined.

(** The remote forwarding of the scenarios, stopped: the cancel request is
    one of the two things done. *)
Lemma ssh_stop_closes_nothing_witness :
  (∃ host port, CancelPortForward "0.0.0.0" 8080
                = CancelPortForward host port) ∨
  CancelPortForward "0.0.0.0" 8080 = EmitForwardingStatus 0%nat false.
Proof.
  apply (ssh_stop_closes_nothing true 0%nat Scenarios.one_remote_forwarding).
  apply list_elem_of_In. vm_compute. left. reflexivity.
Defined.

(** * Stored secrets *)

Section CipherFacts.
Import Encryption.
Context `{F : Fernet}.

(** X23, [encrypt] and [decrypt] of encryption.py: a token that [encrypt]
    returns decrypts to the text it was made from, and it is empty exactly
    when the text is; [encrypt] returns for every text without a lone
    surrogate and raises for every text with one; [decrypt] of empty data
    is the empty text. *)
Theorem cipher_round_trip key r s :
  (∀ token, encrypt s key r = Some token →
     decrypt token key = s ∧ (token = [] ↔ s = [])) ∧
  (Utf8.encodable s → is_Some (encrypt s key r)) ∧
  (Exists (λ c, Utf8.is_surrogate c = true) s → encrypt s key r = None) ∧
  decrypt [] key = [].
Proof.
  split; [|split; [|split; [|done]]].
  - intros token. unfold encrypt, decrypt.
    destruct s as [|c s]; [by intros [= <-]|].
    destruct (Utf8.encode (c :: s)) as [bs|] eqn:Hbs; [|done]. cbn.
    intros [= <-].
    pose proof (fernet_token_nonempty key r bs) as Hne.
    destruct (fernet_encrypt key r bs) as [|t token] eqn:Het; [done|].
    rewrite <- Het, fernet_decrypt_encrypt, (decode_encode _ _ Hbs). cbn.
    split; [done|]. rewrite Het. split; intros; discriminate.
  - intros He. unfold encrypt. destruct s as [|c s]; [by eexists|].
    destruct (encode_encodable _ He) as [bs ->]. by eexists.
  - intros Hs. unfold encrypt. rewrite (encode_surrogate s Hs).
    destruct s; [by apply Exists_nil in Hs|done].
Qed.

(** X24, [ConfigManager._encrypt] and [_decrypt]: [_encrypt] computes
    what [encrypt_to_string] of encryption.py computes; what it returns
    decrypts to the text it was made from and is empty exactly when the
    text is; it returns for every text without a lone surrogate; and when
    Fernet refuses the empty token, [_decrypt] computes what
    [decrypt_from_string] computes, the empty text on every failure
    included. *)
Theorem stored_secret_round_trip key r s :
  ConfigManager._encrypt key r s = encrypt_to_string s key r ∧
  (∀ c, ConfigManager._encrypt key r s = Some c →
     ConfigManager._decrypt key c = s ∧ (c = [] ↔ s = [])) ∧
  (Utf8.encodable s → is_Some (ConfigManager._encrypt key r s)) ∧
  (fernet_decrypt key [] = None →
   ∀ c, ConfigManager._decrypt key c = decrypt_from_string c key).
Proof.
  assert (ConfigManager._encrypt key r s = encrypt_to_string s key r) as Hsame.
  { unfold ConfigManager._encrypt, encrypt_to_string, encrypt.
    destruct s as [|p s]; [done|].
    destruct (Utf8.encode (p :: s)) as [bs|]; [|done]. cbn.
    pose proof (fernet_token_nonempty key r bs).
    by destruct (fernet_encrypt key r bs). }
  split; [done|]. split; [|split].
  - intros c. unfold ConfigManager._encrypt, ConfigManager._decrypt.
    destruct s as [|p s]; [by intros [= <-]|].
    destruct (Utf8.encode (p :: s)) as [bs|] eqn:Hbs; [|done].
    pose proof (fernet_token_nonempty key r bs) as Hne.
    destruct (b64decode_b64encode (fernet_encrypt key r bs))
      as (c' & Hc' & Hd & Hiff).
    rewrite Hc'. intros [= <-].
    destruct c' as [|q c'].
    { destruct Hiff as [Hiff _]. by destruct (Hne (Hiff eq_refl)). }
    rewrite Hd, fernet_decrypt_encrypt, (decode_encode _ _ Hbs). cbn.
    split; [done|]. split; intros; discriminate.
  - intros He. rewrite Hsame. unfold encrypt_to_string, encrypt.
    destruct s as [|p s]; [by eexists|].
    destruct (encode_encodable _ He) as [bs ->]. cbn.
    pose proof (fernet_token_nonempty key r bs) as Hne.
    destruct (b64decode_b64encode (fernet_encrypt key r bs))
      as (c' & Hc' & _).
    destruct (fernet_encrypt key r bs); [done|]. rewrite Hc'. by eexists.
  - intros Hempty c. unfold ConfigManager._decrypt, decrypt_from_string, decrypt.
    destruct c as [|q c]; [done|].
    destruct (Base64.b64decode (q :: c)) as [[|t token]|]; [|done..].
    by rewrite Hempty.
Qed.
End CipherFacts.

(** * The dialogs and the main window *)

Section DialogFacts.
Import Gui.

(** X25, a connection dialog that closes as accepted: name, host and user
    of the dict it returns are not empty; [connect_ssh] on that dict calls
    [SSHManager.connect] with the texts of the boxes the authentication
    choice shows and the empty text for the others, and marks the dict
    connected exactly when a client comes back; with password
    authentication the password of the box is what is offered; with the
    key choices and a key file that does not exist, no key is offered
    (and with key only, no password either); with a key file that exists
    and parses, the key is offered and the password is not. *)
Theorem dialog_credentials e data w :
  accept w = true →
  let c := get_connection_data data w in
  let kwargs :=
    SSHManager.build_kwargs e (host c) (port c) (username c)
      (default "" (password c)) (default "" (key_path c))
      (default "" (passphrase c)) in
  let bare :=
    {| SSHManager.hostname := host_edit w; SSHManager.port := port_spin w;
       SSHManager.username := username_edit w; SSHManager.timeout := 10;
       SSHManager.pkey := None; SSHManager.password := None |} in
  let with_password :=
    {| SSHManager.hostname := host_edit w; SSHManager.port := port_spin w;
       SSHManager.username := username_edit w; SSHManager.timeout := 10;
       SSHManager.pkey := None;
       SSHManager.password := Some (password_edit w) |} in
  name c ≠ "" ∧ host c ≠ "" ∧ username c ≠ "" ∧
  (∀ st,
     let r :=
       SSHManager.connect e (host_edit w) (port_spin w) (username_edit w)
         (if (auth_combo w =? 0) || (auth_combo w =? 2)
          then password_edit w else "")
         (if (auth_combo w =? 1) || (auth_combo w =? 2)
          then key_path_edit w else "")
         (if (auth_combo w =? 1) || (auth_combo w =? 2)
          then passphrase_edit w else "") st in
     (connect_ssh e c st).2 = r.2 ∧
     client (connect_ssh e c st).1 = r.1 ∧
     connected (connect_ssh e c st).1 = bool_decide (is_Some r.1)) ∧
  (auth_combo w = 0 → kwargs = Some with_password) ∧
  (auth_combo w = 1 →
   SSHManager.path_exists e (key_path_edit w) = false →
   kwargs = Some bare) ∧
  (auth_combo w = 2 →
   SSHManager.path_exists e (key_path_edit w) = false →
   kwargs = Some with_password) ∧
  (auth_combo w = 1 ∨ auth_combo w = 2 →
   SSHManager.path_exists e (key_path_edit w) = true →
   ∀ kw, kwargs = Some kw →
     SSHManager.password kw = None ∧ is_Some (SSHManager.pkey kw)).
Proof.
  intros Hacc. cbv zeta. unfold accept in Hacc.
  destruct (String.eqb_spec (name_edit w) "") as [|Hname]; [done|].
  destruct (String.eqb_spec (host_edit w) "") as [|Hhost]; [done|].
  destruct (String.eqb_spec (username_edit w) "") as [|Huser]; [done|].
  split; [done|]. split; [done|]. split; [done|]. split.
  { intros st. unfold connect_ssh. cbn -[SSHManager.connect].
    destruct ((auth_combo w =? 0) || (auth_combo w =? 2));
      destruct ((auth_combo w =? 1) || (auth_combo w =? 2));
      cbn -[SSHManager.connect];
      match goal with
      | |- context [SSHManager.connect ?a ?b ?c ?d ?x ?y ?z ?t] =>
        by destruct (SSHManager.connect a b c d x y z t).1
      end. }
  unfold SSHManager.build_kwargs, SSHManager.nonempty. cbn.
  split; [|split; [|split]].
  - intros H0. rewrite H0 in *. cbn in *.
    destruct (String.eqb_spec (password_edit w) "") as [|Hpw]; [done|]. done.
  - intros H1 Hex. rewrite H1 in *. cbn in *. rewrite Hex.
    by rewrite andb_false_r.
  - intros H2 Hex. rewrite H2 in *. cbn in *. rewrite Hex.
    rewrite andb_false_r.
    destruct (String.eqb_spec (password_edit w) "") as [|Hpw]; [done|]. done.
  - intros H12 Hex kw.
    assert (String.eqb (key_path_edit w) "" = false) as Hkey.
    { destruct H12 as [H|H]; rewrite H in Hacc; cbn in Hacc;
        destruct (String.eqb (key_path_edit w) ""); try done.
      by destruct (String.eqb (password_edit w) ""). }
    assert ((auth_combo w =? 1) || (auth_combo w =? 2) = true) as ->.
    { destruct H12 as [-> | ->]; done. }
    cbn. rewrite Hkey, Hex. cbn.
    destruct (SSHManager.load_key _ _ _); [|done].
    intros [= <-]. cbn. split; [done|by eexists].
Qed.

Lemma dialog_credentials_witness :
  accept Scenarios.password_form = true ∧
  name (get_connection_data None Scenarios.password_form) ≠ "".
Proof.
  split; [reflexivity|].
  exact (proj1 (dialog_credentials Scenarios.password_server None
                  Scenarios.password_form eq_refl)).
Defined.

End DialogFacts.

Section RuleFacts.
Import Gui.

Lemma pretty_colon_free (z : Z) : all_chars not_colon (pretty z) = true.
Proof. apply (py_str_int_colon_free (Some z)). Qed.

Lemma rule_id_inj r1 r2 : rule_id r1 = rule_id r2 → address r1 = address r2.
Proof.
  unfold rule_id.
  destruct r1, r2; cbn; intros E; try discriminate E;
    repeat (injection E as E);
    apply cut_at_last_colon in E as [-> E]; try apply pretty_colon_free;
    by apply (inj pretty) in E as ->.
Qed.

Lemma NoDup_fmap_eq {A B} (f : A → B) (l : list A) x y :
  NoDup (f <$> l) → x ∈ l → y ∈ l → f x = f y → x = y.
Proof.
  induction l as [|a l IH]; [by intros _ ?%elem_of_nil|].
  rewrite fmap_cons. intros [Ha Hnd]%NoDup_cons Hx Hy E.
  apply elem_of_cons in Hx as [->|Hx]; apply elem_of_cons in Hy as [->|Hy].
  - done.
  - destruct Ha. rewrite E. by apply list_elem_of_fmap_2.
  - destruct Ha. rewrite <- E. by apply list_elem_of_fmap_2.
  - by apply IH.
Qed.

Lemma existsb_same (same : string → Z → rule → bool) kind h p rules :
  (∀ r, same h p r = true ↔ address r = (kind, h, p)) →
  existsb (same h p) rules = false → (kind, h, p) ∉ address <$> rules.
Proof.
  intros Hsame Hex Hin. apply list_elem_of_fmap in Hin as (r & Hr & Hin).
  assert (existsb (same h p) rules = true); [|congruence].
  apply existsb_exists. exists r. split; [by apply list_elem_of_In|].
  by apply Hsame.
Qed.

Lemma same_local_address h p r :
  same_local h p r = true ↔ address r = ("local", h, p).
Proof.
  destruct r; cbn; try (split; [done|intros [=]]).
  rewrite andb_true_iff, String.eqb_eq, Z.eqb_eq. split.
  - by intros [-> ->].
  - by intros [= -> ->].
Qed.

Lemma same_remote_address h p r :
  same_remote h p r = true ↔ address r = ("remote", h, p).
Proof.
  destruct r; cbn; try (split; [done|intros [=]]).
  rewrite andb_true_iff, String.eqb_eq, Z.eqb_eq. split.
  - by intros [-> ->].
  - by intros [= -> ->].
Qed.

Lemma same_dynamic_address h p r :
  same_dynamic h p r = true ↔ address r = ("dynamic", h, p).
Proof.
  destruct r; cbn; try (split; [done|intros [=]]).
  rewrite andb_true_iff, String.eqb_eq, Z.eqb_eq. split.
  - by intros [-> ->].
  - by intros [= -> ->].
Qed.

Lemma NoDup_snoc_address rules r :
  NoDup (address <$> rules) → address r ∉ address <$> rules →
  NoDup (address <$> rules ++ [r]).
Proof.
  intros Hnd Hr. rewrite fmap_app. apply NoDup_app. split; [done|].
  split; [|apply NoDup_singleton].
  intros a Ha Ha'%list_elem_of_singleton. by subst a.
Qed.

(** A start through the dialog either changes nothing or registers a new
    dict under the rule's id. *)
Lemma start_rule_spec t ok cl r st :
  start_rule t ok cl r st = (None, st) ∨
  ∃ fwd es,
    start_rule t ok cl r st
    = (Some (SSHManager.new_loc (SSHManager.objs st)),
       SSHManager.emit es
         (SSHManager.set_forwardings
            (<[rule_id r := SSHManager.new_loc (SSHManager.objs st)]>
               (SSHManager.forwardings st))
            (SSHManager.set_objs
               (<[SSHManager.new_loc (SSHManager.objs st) := fwd]>
                  (SSHManager.objs st)) st))).
Proof.
  destruct r; cbn;
    unfold SSHManager.start_local_forwarding,
      SSHManager.start_remote_forwarding,
      SSHManager.start_dynamic_forwarding;
    destruct cl; auto;
    match goal with |- context [if ?b then _ else _] => destruct b end;
    auto; right; by eexists _, _.
Qed.

(** X26, the rule list of the forwarding dialog, when no two of its rules
    have the same type, host and port: each of the three [add_*] methods
    keeps it so; it either leaves list and port box as they are, or
    appends one stopped rule, for hosts that are not empty and an address
    no listed rule has, and steps the port box by one within 1..65535.
    Two different rules of the list are started under different ids of
    the session manager, and of two rules with different ids, starting
    the second leaves the first registered with its dict as it was. *)
Theorem dialog_rules_stay_distinct rules :
  NoDup (address <$> rules) →
  (∀ h p rh rp,
     let r := add_local_forwarding h p rh rp rules in
     NoDup (address <$> r.1) ∧
     (r = (rules, p) ∨
      r = (rules ++ [LocalRule h p rh rp false], spin_set (p + 1)) ∧
      h ≠ "" ∧ rh ≠ "" ∧ ("local", h, p) ∉ address <$> rules)) ∧
  (∀ h p lh lp,
     let r := add_remote_forwarding h p lh lp rules in
     NoDup (address <$> r.1) ∧
     (r = (rules, p) ∨
      r = (rules ++ [RemoteRule h p lh lp false], spin_set (p + 1)) ∧
      h ≠ "" ∧ lh ≠ "" ∧ ("remote", h, p) ∉ address <$> rules)) ∧
  (∀ h p,
     let r := add_dynamic_forwarding h p rules in
     NoDup (address <$> r.1) ∧
     (r = (rules, p) ∨
      r = (rules ++ [DynamicRule h p false], spin_set (p + 1)) ∧
      h ≠ "" ∧ ("dynamic", h, p) ∉ address <$> rules)) ∧
  (∀ r1 r2, r1 ∈ rules → r2 ∈ rules → r1 ≠ r2 → rule_id r1 ≠ rule_id r2) ∧
  (∀ r1 r2 t1 ok1 cl1 t2 ok2 cl2 st l1,
     rule_id r1 ≠ rule_id r2 →
     (start_rule t1 ok1 cl1 r1 st).1 = Some l1 →
     let st1 := (start_rule t1 ok1 cl1 r1 st).2 in
     let st2 := (start_rule t2 ok2 cl2 r2 st1).2 in
     SSHManager.forwardings st1 !! rule_id r1 = Some l1 ∧
     SSHManager.forwardings st2 !! rule_id r1 = Some l1 ∧
     SSHManager.objs st2 !! l1 = SSHManager.objs st1 !! l1 ∧
     is_Some (SSHManager.objs st1 !! l1)).
Proof.
  intros Hnd. split; [|split; [|split; [|split]]].
  - intros h p rh rp. cbv zeta. unfold add_local_forwarding.
    destruct (String.eqb_spec h "") as [|Hh]; cbn; [by auto|].
    destruct (String.eqb_spec rh "") as [|Hrh]; cbn; [by auto|].
    destruct (existsb _ _) eqn:Hex; cbn; [by auto|].
    apply (existsb_same _ "local" h p rules (same_local_address h p)) in Hex.
    split; [by apply NoDup_snoc_address|]. right. done.
  - intros h p lh lp. cbv zeta. unfold add_remote_forwarding.
    destruct (String.eqb_spec h "") as [|Hh]; cbn; [by auto|].
    destruct (String.eqb_spec lh "") as [|Hlh]; cbn; [by auto|].
    destruct (existsb _ _) eqn:Hex; cbn; [by auto|].
    apply (existsb_same _ "remote" h p rules (same_remote_address h p))
      in Hex.
    split; [by apply NoDup_snoc_address|]. right. done.
  - intros h p. cbv zeta. unfold add_dynamic_forwarding.
    destruct (String.eqb_spec h "") as [|Hh]; cbn; [by auto|].
    destruct (existsb _ _) eqn:Hex; cbn; [by auto|].
    apply (existsb_same _ "dynamic" h p rules (same_dynamic_address h p))
      in Hex.
    split; [by apply NoDup_snoc_address|]. right. done.
  - intros r1 r2 H1 H2 Hne Hid. apply Hne.
    by apply (NoDup_fmap_eq address rules), rule_id_inj.
  - intros r1 r2 t1 ok1 cl1 t2 ok2 cl2 st l1 Hid Hl1. cbv zeta.
    destruct (start_rule_spec t1 ok1 cl1 r1 st) as [E1|(fwd1 & es1 & E1)];
      rewrite E1 in *; [done|].
    cbn in Hl1. injection Hl1 as <-. cbn [snd].
    set (st1 := SSHManager.emit es1 _).
    assert (SSHManager.objs st1 !! SSHManager.new_loc (SSHManager.objs st)
            = Some fwd1) as Hobj1.
    { cbn. by rewrite lookup_insert_eq. }
    assert (SSHManager.forwardings st1 !! rule_id r1
            = Some (SSHManager.new_loc (SSHManager.objs st))) as Hfw1.
    { cbn. by rewrite lookup_insert_eq. }
    split; [done|].
    destruct (start_rule_spec t2 ok2 cl2 r2 st1) as [E2|(fwd2 & es2 & E2)];
      rewrite E2; cbn [snd]; [by rewrite Hobj1|].
    cbn [SSHManager.forwardings SSHManager.objs SSHManager.emit
         SSHManager.set_forwardings SSHManager.set_objs].
    rewrite lookup_insert_ne by done. split; [done|].
    rewrite lookup_insert_ne; [by rewrite Hobj1|].
    intros E. pose proof (session_loc_fresh (SSHManager.objs st1)) as Hfresh.
    rewrite E in Hfresh. by rewrite Hobj1 in Hfresh.
Qed.

Lemma dialog_rules_stay_distinct_witness :
  NoDup (address <$> Scenarios.listed_rules) ∧
  NoDup (address <$>
           (add_dynamic_forwarding "127.0.0.1" 1081 Scenarios.listed_rules).1).
Proof.
  assert (NoDup (address <$> Scenarios.listed_rules)) as Hnd.
  { apply (bool_decide_unpack _). vm_compute. reflexivity. }
  split; [exact Hnd|].
  exact (proj1 (proj1 (proj2 (proj2 (dialog_rules_stay_distinct
                                        Scenarios.listed_rules Hnd)))
                  "127.0.0.1" 1081)).
Defined.

End RuleFacts.

Section RoundTripFacts.
Import Gui.

Lemma find_client_id_is_Some cl items cid :
  (cid, cl) ∈ items → is_Some (SSHManager.find_client_id cl items).
Proof.
  intros Hin. destruct (SSHManager.find_client_id cl items) eqn:E; [done|].
  unfold SSHManager.find_client_id in E.
  destruct (List.find _ items) eqn:Hf; [done|].
  apply list_elem_of_In in Hin.
  pose proof (find_none _ _ Hf _ Hin) as Hb. cbn in Hb.
  by rewrite bool_decide_eq_true_2 in Hb.
Qed.

Lemma client_id_of_nonempty host port username :
  SSHManager.nonempty (SSHManager.client_id_of host port username) = true.
Proof. unfold SSHManager.client_id_of. by destruct host. Qed.

Lemma forwardings_to_stop_none cl items st :
  (∀ l f, SSHManager.objs st !! l = Some f → SSHManager.client f ≠ cl) →
  SSHManager.forwardings_to_stop cl items st = [].
Proof.
  intros Hno. unfold SSHManager.forwardings_to_stop.
  induction items as [|[k l] items IH]; [done|].
  rewrite filter_cons. case_decide as Hc; [|done]. cbn in Hc.
  destruct (SSHManager.objs st !! l) as [f|] eqn:Hl; [|done].
  injection Hc as Hc. by destruct (Hno l f Hl).
Qed.

(** X27, [connect_ssh] on a row that is not connected, followed by
    [disconnect_ssh], in a manager whose clients and forwarding dicts all
    refer to client objects made earlier: when the connect marks the row
    connected, the row holds the new client and the manager stores it
    under host:port:user; after the disconnect the row is marked
    disconnected with no client, the manager has no client under that id
    (also not one that was stored there before the connect), forwardings
    and dicts are as before, and the effects are the connected signal,
    closing the client, and the disconnected signal. *)
Theorem session_round_trip e c st client_items forwarding_items cancel_ok :
  connected c = false →
  (∀ k h, SSHManager.clients st !! k = Some h →
          (h < SSHManager.created st)%nat) →
  (∀ l f, SSHManager.objs st !! l = Some f →
          (SSHManager.client f < SSHManager.created st)%nat) →
  let up := connect_ssh e c st in
  connected up.1 = true →
  client_items ≡ₚ map_to_list (SSHManager.clients up.2) →
  let down :=
    disconnect_ssh client_items forwarding_items cancel_ok up.1 up.2 in
  let cid := SSHManager.client_id_of (host c) (port c) (username c) in
  client up.1 = Some (SSHManager.created st) ∧
  SSHManager.clients up.2 !! cid = Some (SSHManager.created st) ∧
  down.1 = set_session false None c ∧
  SSHManager.clients down.2 = delete cid (SSHManager.clients st) ∧
  SSHManager.forwardings down.2 = SSHManager.forwardings st ∧
  SSHManager.objs down.2 = SSHManager.objs st ∧
  SSHManager.emitted st down.2
  = [EmitConnectionStatus cid true; CloseClient (SSHManager.created st);
     EmitConnectionStatus cid false].
Proof.
  intros Hdown Hcl Hobj. cbv zeta. unfold connect_ssh, SSHManager.connect.
  destruct (SSHManager.build_kwargs _ _ _ _ _ _ _) as [kw|]; cbn [fst snd];
    [|by rewrite Hdown].
  destruct (SSHManager.client_connect e kw); cbn [fst snd];
    [|by rewrite Hdown].
  intros _ Hperm.
  set (cid := SSHManager.client_id_of (host c) (port c) (username c)) in *.
  set (cl := SSHManager.created st) in *.
  cbn in Hperm.
  assert (SSHManager.find_client_id cl client_items = Some cid) as Hfind.
  { destruct (find_client_id_is_Some cl client_items cid) as [k Hk].
    { rewrite Hperm. apply elem_of_map_to_list, lookup_insert_eq. }
    rewrite Hk. f_equal. apply find_client_id_some in Hk.
    rewrite Hperm in Hk. apply elem_of_map_to_list in Hk.
    destruct (decide (cid = k)) as [|Hne]; [done|].
    rewrite lookup_insert_ne in Hk by done.
    apply Hcl in Hk. unfold cl in Hk. lia. }
  unfold disconnect_ssh, SSHManager.disconnect. cbn [fst snd client set_session].
  rewrite Hfind. cbn [fst snd].
  pose proof (client_id_of_nonempty (host c) (port c) (username c)) as Hne.
  fold cid in Hne. rewrite Hne.
  rewrite forwardings_to_stop_none.
  2:{ intros l f Hl. cbn in Hl. apply Hobj in Hl. unfold cl. lia. }
  cbn. rewrite lookup_insert_eq, delete_insert_eq.
  repeat split; try done.
  unfold SSHManager.emitted. cbn.
  by rewrite <- !app_assoc, drop_app_length.
Qed.

Lemma session_round_trip_witness :
  client
    (connect_ssh Scenarios.password_server
       (get_connection_data None Scenarios.password_form)
       SSHManager.init).1
  = Some 0%nat.
Proof.
  refine (proj1 (session_round_trip Scenarios.password_server
                   (get_connection_data None Scenarios.password_form)
                   SSHManager.init [("127.0.0.1:2222:t", 0%nat)] []
                   (λ _, true) eq_refl _ _ _ _)).
  - intros k h Hk. vm_compute in Hk. discriminate Hk.
  - intros l f Hl. vm_compute in Hl. discriminate Hl.
  - vm_compute. reflexivity.
  - vm_compute. reflexivity.
Defined.

End RoundTripFacts.
